(** * qrseq: chunk framing and sequence reassembly

    A shallow embedding of the Go packages [qrseq] (qrseq.go) and
    [qrseq/internal] (internal/imgwriter.go): the 4-byte frame header codec,
    the chunker, and the sequence assembler, followed by the properties the
    specification states about them.

    Conventions of the embedding:
    - Go's [uint8]/[uint16] values are integers in [Z]; every conversion that
      can wrap is written with its modulus.  Go's [int] is 64 bits wide; in
      the framing code and the assembler it only ever holds lengths and
      loop counters, so it is [Z] as is, and in the image writer, where it
      holds products of caller-chosen sizes, its arithmetic is written
      with the wrap-around.
    - a byte is [Byte.byte]; a [[]byte] whose contents alone matter is a
      [list byte]; the argument of [NewChunk] is re-sliced, which Go checks
      against the capacity, so it is a [bslice] that also carries the bytes
      of the backing array beyond its length.
    - a run-time panic is an explicit outcome, [Panic]; a method with a
      pointer receiver returns the receiver as the call left it together
      with that outcome.
    - a [*QRChunk] that may be nil is an [option QRChunk].
    - [float32] is IEEE 754 binary32, computed with the Standard Library's
      [SpecFloat] at precision 24 and maximal exponent 128. *)

From Stdlib Require Import ZArith Lia Bool.
From Stdlib Require Import Strings.Byte.
From Stdlib Require Import Floats.SpecFloat.
From stdpp Require Import base list.

Local Open Scope Z_scope.

(** ** Run-time outcomes *)

Inductive panic : Type :=
| IndexOutOfRange (i len : Z)
| SliceBoundsOutOfRange (lo hi cap : Z)
| NilDereference
| DivideByZero
| HugeDimensions             (* image: NewPaletted Rectangle has huge or
                                negative dimensions *)
| MakeSliceLenOutOfRange (len : Z).   (* makeslice: len out of range *)

Inductive run (A : Type) : Type :=
| Ret (a : A)
| Panic (p : panic).

Arguments Ret {A} a.
Arguments Panic {A} p.

(** Sequencing: a panic ends the run.  With these instances stdpp's
    [x ← m; k] is available for [run]. *)
#[global] Instance run_ret : MRet run := fun A a => Ret a.

#[global] Instance run_bind : MBind run := fun A B k m =>
  match m with
  | Ret a => k a
  | Panic p => Panic p
  end.

Definition panics {A : Type} (m : run A) : Prop := exists p, m = Panic p.

(** ** Bytes and fixed-width integers *)

Definition Zlength' {A : Type} (l : list A) : Z := Z.of_nat (length l).

Definition byte_to_Z (b : byte) : Z := Z.of_N (Byte.to_N b).

(** [uint8(z)] as a byte: the low eight bits of [z]. *)
Definition byte_of_Z (z : Z) : byte :=
  match Byte.of_N (Z.to_N (z mod 256)) with
  | Some b => b
  | None => x00
  end.

Definition uint8 (z : Z) : Z := z mod 256.
Definition uint16 (z : Z) : Z := z mod 65536.

Definition is_uint8 (z : Z) : Prop := 0 <= z < 256.
Definition is_uint16 (z : Z) : Prop := 0 <= z < 65536.

(** [binary.Write(buf, binary.LittleEndian, v)] for a [uint16]. *)
Definition putUint16LE (v : Z) : list byte :=
  [byte_of_Z v; byte_of_Z (Z.shiftr v 8)].

(** [binary.Read(r, binary.LittleEndian, &v)] for a [uint16] over a reader
    holding [buf]: an error ([None]) when fewer than two bytes are left. *)
Definition readUint16LE (buf : list byte) : option Z :=
  match buf with
  | lo :: hi :: _ => Some (Z.lor (byte_to_Z lo) (Z.shiftl (byte_to_Z hi) 8))
  | _ => None
  end.

(** ** Byte slices with their capacity *)

Record bslice : Type := mkSlice {
  elems : list byte;   (* the [len] visible bytes *)
  spare : list byte    (* the backing array between [len] and [cap] *)
}.

Definition slen (d : bslice) : Z := Zlength' (elems d).
Definition scap (d : bslice) : Z := Zlength' (elems d) + Zlength' (spare d).

(** A slice whose capacity equals its length. *)
Definition exact (l : list byte) : bslice := mkSlice l [].

(** [d[i]]: checked against the length. *)
Definition at_index (d : bslice) (i : Z) : run byte :=
  if (0 <=? i) && (i <? slen d) then
    match elems d !! Z.to_nat i with
    | Some b => Ret b
    | None => Panic (IndexOutOfRange i (slen d))
    end
  else Panic (IndexOutOfRange i (slen d)).

(** [d[lo:hi]]: checked against the capacity. *)
Definition reslice (d : bslice) (lo hi : Z) : run (list byte) :=
  if (0 <=? lo) && (lo <=? hi) && (hi <=? scap d) then
    Ret (take (Z.to_nat (hi - lo)) (drop (Z.to_nat lo) (elems d ++ spare d)))
  else Panic (SliceBoundsOutOfRange lo hi (scap d)).

(** [d[lo:]]: the upper bound defaults to the length. *)
Definition reslice_from (d : bslice) (lo : Z) : run (list byte) :=
  reslice d lo (slen d).

(** [l[lo:hi]] and [l[lo:]] on a slice of which only the visible bytes are
    used; both bounds are checked against the length. *)
Definition subslice (l : list byte) (lo hi : Z) : run (list byte) :=
  if (0 <=? lo) && (lo <=? hi) && (hi <=? Zlength' l) then
    Ret (take (Z.to_nat (hi - lo)) (drop (Z.to_nat lo) l))
  else Panic (SliceBoundsOutOfRange lo hi (Zlength' l)).

(** ** Package internal (internal/imgwriter.go) *)

Module internal.

Definition ChunkSize32 : Z := 32.
Definition ChunkSize64 : Z := 64.
Definition ChunkSize128 : Z := 128.
Definition ChunkSize256 : Z := 256.
Definition ChunkSize512 : Z := 512.
Definition ChunkSize1024 : Z := 1024.

Definition isValidChunkSize (cs : Z) : bool :=
  (cs =? ChunkSize32) || (cs =? ChunkSize64) || (cs =? ChunkSize128)
  || (cs =? ChunkSize256) || (cs =? ChunkSize512) || (cs =? ChunkSize1024).

Record QRChunk : Type := mkChunk {
  nr : Z;             (* uint8: chunk number *)
  tot : Z;            (* uint8: total number of chunks *)
  cs : Z;             (* uint16: chunk size in bytes, header included *)
  data : list byte
}.

Definition Nr (c : QRChunk) : Z := nr c.
Definition Tot (c : QRChunk) : Z := tot c.
Definition Size (c : QRChunk) : Z := cs c.
Definition Data (c : QRChunk) : list byte := data c.

(** The fields of a chunk lie in the ranges of their Go types. *)
Definition chunk_in_range (c : QRChunk) : Prop :=
  is_uint8 (nr c) /\ is_uint8 (tot c) /\ is_uint16 (cs c).

(** [NewChunk]: [Ret None] is the nil chunk. *)
Definition NewChunk (d : bslice) : run (option QRChunk) :=
  b0 ← at_index d 0;
  let nr := byte_to_Z b0 in
  b1 ← at_index d 1;
  let tot := byte_to_Z b1 in
  csBuf ← reslice d 2 4;
  match readUint16LE csBuf with
  | None => Ret None
  | Some cs =>
      if negb (isValidChunkSize cs) then Ret None
      else
        payload ← (if slen d >? cs then reslice d 4 cs
                    else reslice_from d 4);
        Ret (Some (mkChunk nr tot cs payload))
  end.

(** The payload of chunk [i] in [CreateChunks]: [data[s:]] or [data[s:e]]. *)
Definition chunkPayload (data : list byte) (ds i : Z) : run (list byte) :=
  let s := i * ds in
  let e := s + ds in
  if e >? Zlength' data then subslice data s (Zlength' data)
  else subslice data s e.

(** The loop [for i := 0; i < tot; i++] of [CreateChunks]; [n] counts the
    iterations that remain, [tot - i]. *)
Fixpoint createLoop (data : list byte) (chunkSize ds tot : Z)
    (n : nat) (i : Z) (chunks : list QRChunk) : run (list QRChunk) :=
  match n with
  | O => Ret chunks
  | S n' =>
      payload ← chunkPayload data ds i;
      createLoop data chunkSize ds tot n' (i + 1)
        (chunks ++ [mkChunk (uint8 i) (uint8 tot) chunkSize payload])
  end.

(** [CreateChunks]: every pointer of the returned slice is non-nil, so the
    result is a list of chunks.  [ds] is computed in [uint16]; the integer
    division panics when it is zero. *)
Definition CreateChunks (data : list byte) (chunkSize : Z)
    : run (list QRChunk) :=
  let ds := uint16 (chunkSize - 4) in
  if ds =? 0 then Panic DivideByZero
  else
    let tot := Z.quot (Zlength' data) ds in
    let tot := if negb (Z.rem (Zlength' data) ds =? 0) then tot + 1 else tot in
    createLoop data chunkSize ds tot (Z.to_nat tot) 0 [].

(** [estimatedDataSize]: only the capacity hint of [GetData]'s buffer. *)
Definition estimatedDataSize (c : QRChunk) : Z :=
  (uint16 (cs c - 4) * tot c) mod 2 ^ 64.

(** The loop of [GetData]: appending [chunk.data] dereferences [chunk]. *)
Fixpoint appendAll (acc : list byte) (chunks : list (option QRChunk))
    : run (list byte) :=
  match chunks with
  | [] => Ret acc
  | None :: _ => Panic NilDereference
  | Some c :: rest => appendAll (acc ++ data c) rest
  end.

(** [GetData]: [Ret None] is the nil slice, [Ret (Some l)] a non-nil slice
    holding [l]. *)
Definition GetData (chunks : list (option QRChunk))
    : run (option (list byte)) :=
  match chunks with
  | [] => Ret None
  | None :: _ => Panic NilDereference   (* chunks[0].estimatedDataSize() *)
  | Some _ :: _ =>
      d ← appendAll [] chunks;
      Ret (Some d)
  end.

(** The bytes [QRChunk.QRCode] builds in [qrdata] before handing their
    base64 text to the QR encoder: index, total, chunk size as a
    little-endian [uint16], payload.  The buffer is made with capacity
    [len(c.data)+4], which the appends fill exactly. *)
Definition wireBytes (c : QRChunk) : bslice :=
  exact ([byte_of_Z (nr c); byte_of_Z (tot c)] ++ putUint16LE (cs c) ++ data c).

End internal.

(** ** binary32 arithmetic *)

Definition float32 : Type := spec_float.

Definition f32_prec : Z := 24.
Definition f32_emax : Z := 128.

(** [float32(z)] for an integer [z]: round to nearest, ties to even. *)
Definition f32_of_Z (z : Z) : float32 :=
  binary_normalize f32_prec f32_emax z 0 false.

Definition f32_div (x y : float32) : float32 := SFdiv f32_prec f32_emax x y.

Definition f32_zero : float32 := S754_zero false.
Definition f32_one : float32 := f32_of_Z 1.

Definition f32_eqb (x y : float32) : bool := SFeqb x y.
Definition f32_leb (x y : float32) : bool := SFleb x y.
Definition f32_ltb (x y : float32) : bool := SFltb x y.

(** ** Package qrseq (qrseq.go) *)

Import internal.

Definition ChunkSizeUnknown : Z := 0.

Record QRSequence : Type := mkSeq {
  ChunkSize : Z;                    (* uint16 *)
  chunks : list (option QRChunk);   (* []*internal.QRChunk *)
  nrReceived : Z                    (* int *)
}.

(** What a method with a pointer receiver leaves behind: the receiver and
    how the call ended. *)
Definition effect (A : Type) : Type := (QRSequence * run A)%type.

Definition New (data : list byte) (chunkSize : Z) : run QRSequence :=
  cl ← CreateChunks data (uint16 chunkSize);
  Ret (mkSeq chunkSize (Some <$> cl) (Zlength' cl)).

Definition NewEmpty : QRSequence := mkSeq ChunkSizeUnknown [] 0.

Definition IsComplete (s : QRSequence) : bool :=
  if ChunkSize s =? ChunkSizeUnknown then false
  else nrReceived s =? Zlength' (chunks s).

Definition Progress (s : QRSequence) : float32 :=
  if ChunkSize s =? ChunkSizeUnknown then f32_zero
  else if nrReceived s =? Zlength' (chunks s) then f32_one
  else f32_div (f32_of_Z (nrReceived s)) (f32_of_Z (Zlength' (chunks s))).

(** [Data]: [Ret None] is the nil slice. *)
Definition Data (s : QRSequence) : run (option (list byte)) :=
  if negb (IsComplete s) then Ret None
  else GetData (chunks s).

(** [s.chunks[i]]: checked against the length; the slot may hold nil. *)
Definition slot_at (l : list (option QRChunk)) (i : Z)
    : run (option QRChunk) :=
  if (0 <=? i) && (i <? Zlength' l) then
    match l !! Z.to_nat i with
    | Some slot => Ret slot
    | None => Panic (IndexOutOfRange i (Zlength' l))
    end
  else Panic (IndexOutOfRange i (Zlength' l)).

(** [addChunk]: the assignments of the first block have happened when the
    index expression panics. *)
Definition addChunk (s : QRSequence) (chunk : QRChunk) : effect unit :=
  let s1 :=
    if ChunkSize s =? ChunkSizeUnknown then
      mkSeq (Size chunk) (replicate (Z.to_nat (Tot chunk)) None) 0
    else s in
  match slot_at (chunks s1) (Nr chunk) with
  | Panic p => (s1, Panic p)
  | Ret (Some _) => (s1, Ret tt)
  | Ret None =>
      (mkSeq (ChunkSize s1)
             (<[Z.to_nat (Nr chunk) := Some chunk]> (chunks s1))
             (nrReceived s1 + 1),
       Ret tt)
  end.

Definition AddChunkFromBytes (s : QRSequence) (d : bslice) : effect unit :=
  if IsComplete s then (s, Ret tt)
  else
    match NewChunk d with
    | Panic p => (s, Panic p)
    | Ret None => (s, Ret tt)
    | Ret (Some chunk) => addChunk s chunk
    end.

(** The image path.  Rendering and scanning QR symbols and the base64
    transform belong to external libraries: [scan img] stands for
    [gozxing]'s decoding of [img] followed by [base64.StdEncoding]'s, and is
    [None] when either reports an error. *)
Section Carrier.

Context {image : Type}.
Variable scan : image -> option bslice.

Inductive decode_error : Type :=
| CarrierError     (* an error of the bitmap, QR or base64 decoder *)
| InvalidChunk.    (* errors.New("invalid chunk") *)

Definition NewChunkFromImage (img : image)
    : run (decode_error + QRChunk) :=
  match scan img with
  | None => Ret (inl CarrierError)
  | Some bytes =>
      chunk ← NewChunk bytes;
      match chunk with
      | None => Ret (inl InvalidChunk)
      | Some c => Ret (inr c)
      end
  end.

(** [DecodeImage]: [Ret None] is the nil error. *)
Definition DecodeImage (s : QRSequence) (img : image)
    : effect (option decode_error) :=
  if IsComplete s then (s, Ret None)
  else
    match NewChunkFromImage img with
    | Panic p => (s, Panic p)
    | Ret (inl err) => (s, Ret (Some err))
    | Ret (inr chunk) =>
        let '(s', r) := addChunk s chunk in
        (s', _ ← r; Ret None)
    end.

End Carrier.

(** Absorbing a list of frames one after the other, as a caller that stops
    at the first panic does. *)
Fixpoint addChunks (s : QRSequence) (l : list QRChunk) : effect unit :=
  match l with
  | [] => (s, Ret tt)
  | c :: rest =>
      match addChunk s c with
      | (s', Ret _) => addChunks s' rest
      | (s', Panic p) => (s', Panic p)
      end
  end.

(** The states a program can bring a sequence into: it starts from
    [NewEmpty] or [New], and every call of [AddChunkFromBytes] or
    [DecodeImage] leaves the next one, whether the call returned or
    panicked. *)
Inductive reachable : QRSequence -> Prop :=
| reach_empty : reachable NewEmpty
| reach_new data chunkSize s :
    is_uint16 chunkSize -> New data chunkSize = Ret s -> reachable s
| reach_add s d : reachable s -> reachable (AddChunkFromBytes s d).1
| reach_decode (image : Type) (scan : image -> option bslice) s img :
    reachable s -> reachable (DecodeImage scan s img).1.

(** ** Vocabulary of the specification *)

(** The bytes of a slice that may be nil: a nil slice has none. *)
Definition buffer (o : option (list byte)) : list byte := default [] o.

(** [ceil(len / (frameSize - 4))]. *)
Definition framesNeeded (len frameSize : Z) : Z :=
  (len + (frameSize - 4) - 1) / (frameSize - 4).

(** The number of slots that hold a chunk. *)
Fixpoint filled (l : list (option QRChunk)) : Z :=
  match l with
  | [] => 0
  | None :: rest => filled rest
  | Some _ :: rest => 1 + filled rest
  end.

(** What every reachable sequence satisfies: [nrReceived] counts the filled
    slots, and a sequence with an empty slot has at most 255 slots. *)
Definition seq_inv (s : QRSequence) : Prop :=
  nrReceived s = filled (chunks s)
  /\ (nrReceived s = Zlength' (chunks s) \/ Zlength' (chunks s) <= 255).

(** Frame [i] of a split of [data] into [total] frames of size
    [frameSize]: the payload is [data[i*cap : min((i+1)*cap, len)]] for
    [cap = frameSize - 4], and the header fields are what fits in eight
    bits of [i] and [total]. *)
Definition frame (data : list byte) (frameSize total i : Z) : QRChunk :=
  mkChunk (i mod 256) (total mod 256) frameSize
    (take (Z.to_nat (frameSize - 4))
          (drop (Z.to_nat (i * (frameSize - 4))) data)).

Definition frames (data : list byte) (frameSize total : Z) : list QRChunk :=
  (fun k : nat => frame data frameSize total (Z.of_nat k))
    <$> seq 0 (Z.to_nat total).

(** 7196 bytes: 257 payloads of the 28 bytes a frame of size 32 carries. *)
Definition oversized : list byte := replicate (Z.to_nat 7196) x2a.

(** [q] is the binary32 number nearest to the rational [n / d], for
    [0 <= n < d]: zero when [n] is zero, and otherwise [m * 2^e] with
    [|m * 2^e - n / d| <= 2^e / 2], half a unit in the last place. *)
Definition f32_nearest (q : float32) (n d : Z) : bool :=
  match q with
  | S754_zero _ => n =? 0
  | S754_finite false m e =>
      (e <? 0) && (2 * Z.abs (Z.pos m * d - n * 2 ^ (- e)) <=? d)
  | _ => false
  end.

(** The quotient [Progress] computes. *)
Definition quotient (n d : Z) : float32 := f32_div (f32_of_Z n) (f32_of_Z d).

(** The progress with [n] of [d] frames received, [d] slots known. *)
Definition progress_at (n d : Z) : float32 :=
  if n =? d then f32_one else quotient n d.

(** What [Progress] relies on at a quotient [q] of [n / d] with [n < d]:
    it is not negative, it is below 1, it is correctly rounded, it compares
    equal to itself, and [next], the progress with one more frame received,
    is not lower. *)
Definition quotient_ok (q : float32) (n d : Z) (next : float32) : bool :=
  f32_leb f32_zero q
  && f32_ltb q f32_one
  && negb (f32_eqb q f32_one)
  && f32_nearest q n d
  && f32_leb q q
  && f32_leb q next.

(** [quotient_ok] at [n = k - 1, ..., 0], where [next] is the progress at
    [k] received frames. *)
Fixpoint quotients_ok (d : Z) (k : nat) (next : float32) : bool :=
  match k with
  | O => true
  | S k' =>
      let q := quotient (Z.of_nat k') d in
      quotient_ok q (Z.of_nat k') d next && quotients_ok d k' q
  end.

(** All quotients of a sequence of [d] slots; with [d] frames received
    [Progress] is 1. *)
Definition quotient_row (d : nat) : bool :=
  quotients_ok (Z.of_nat d) d f32_one.

(** A series of [AddChunkFromBytes] calls by a caller that goes on after a
    panic: the sequence the calls leave. *)
Fixpoint absorbAll (s : QRSequence) (l : list bslice) : QRSequence :=
  match l with
  | [] => s
  | d :: rest => absorbAll (AddChunkFromBytes s d).1 rest
  end.

(** One step of a sequence, as [Progress] sees it: nothing changed, or the
    sequence was of unknown size, or one more frame is received out of the
    same number of slots. *)
Definition advances (s s' : QRSequence) : Prop :=
  s' = s
  \/ ChunkSize s = ChunkSizeUnknown
  \/ (ChunkSize s <> ChunkSizeUnknown
      /\ ChunkSize s' = ChunkSize s
      /\ Zlength' (chunks s') = Zlength' (chunks s)
      /\ nrReceived s' = nrReceived s + 1).

(** Bytes given by their values. *)
Definition bs (l : list Z) : list byte := byte_of_Z <$> l.

(** ** Further vocabulary *)

(** The payload capacity [CreateChunks] works with: [chunkSize - 4] in
    [uint16]. *)
Definition payloadCap (chunkSize : Z) : Z := uint16 (chunkSize - 4).

(** [ceil(a / b)] for a positive [b]. *)
Definition ceilDiv (a b : Z) : Z := (a + b - 1) / b.

(** [data[i*cap : min((i+1)*cap, len)]]. *)
Definition piece (data : list byte) (cap i : Z) : list byte :=
  take (Z.to_nat cap) (drop (Z.to_nat (i * cap)) data).

(** The frame-size field of a header: bytes 2 and 3, low byte first. *)
Definition sizeField (l : list byte) : Z :=
  default 0 (readUint16LE (drop 2 l)).

(** The frame a header of at least four bytes describes. *)
Definition parsed (l : list byte) : QRChunk :=
  mkChunk (byte_to_Z (default x00 (l !! 0%nat)))
          (byte_to_Z (default x00 (l !! 1%nat)))
          (sizeField l)
          (take (Z.to_nat (sizeField l - 4)) (drop 4 l)).

(** [AddChunkFromBytes] over a list of inputs by a caller that stops at the
    first panic. *)
Fixpoint AddAllFromBytes (s : QRSequence) (l : list bslice) : effect unit :=
  match l with
  | [] => (s, Ret tt)
  | d :: rest =>
      match AddChunkFromBytes s d with
      | (s', Ret _) => AddAllFromBytes s' rest
      | (s', Panic p) => (s', Panic p)
      end
  end.

(** The slots [sl] after the frames with the indices [l] of a split have
    been put in their places. *)
Definition placed (data : list byte) (frameSize total : Z)
    (sl : list (option QRChunk)) (l : list Z) : list (option QRChunk) :=
  foldl (fun sl j => <[Z.to_nat j := Some (frame data frameSize total j)]> sl)
        sl l.

(** A sequence that is assembling the split of [data]: size and number of
    slots are those of the split, [nrReceived] counts the filled slots, and
    a filled slot holds the frame of its index. *)
Definition assembling (data : list byte) (frameSize total : Z)
    (s : QRSequence) : Prop :=
  ChunkSize s = frameSize
  /\ Zlength' (chunks s) = total
  /\ nrReceived s = filled (chunks s)
  /\ forall (i : nat) (c : QRChunk),
       chunks s !! i = Some (Some c) ->
       c = frame data frameSize total (Z.of_nat i).

(** ** The image writer (internal/imgwriter.go)

    The writer draws into an [image.Paletted] of Go's standard library: a
    rectangle of bounds, a row stride and one palette index per pixel, row
    after row.  The sizes are [int]s the caller chooses, so [int]
    arithmetic is written with its 64-bit wrap-around, and
    [image.NewPaletted] panics as the library does: in [pixelBufferLength]
    when a dimension is negative or the size of the pixel buffer does not
    fit an [int], and in [make] when it exceeds what the runtime allocates
    at all ([maxAlloc], 2^48 bytes on a 64-bit platform).  A buffer within
    that limit is taken to be allocated: running out of memory ends the
    process and is not a panic.  The QR matrix belongs to the external
    encoder; the writer sees its [Width] and the cells [Iterate] hands to
    the callback, which are kept as [visits], in the order of the calls. *)

(** An [int] result: the low 64 bits, read as a signed number. *)
Definition wrapInt (z : Z) : Z := (z + 2 ^ 63) mod 2 ^ 64 - 2 ^ 63.

Definition addInt (a b : Z) : Z := wrapInt (a + b).
Definition subInt (a b : Z) : Z := wrapInt (a - b).
Definition mulInt (a b : Z) : Z := wrapInt (a * b).

Record Rectangle : Type := mkRect {
  MinX : Z; MinY : Z; MaxX : Z; MaxY : Z
}.

(** [image.Rect]: the corners are put in order. *)
Definition Rect (x0 y0 x1 y1 : Z) : Rectangle :=
  let '(x0, x1) := if x0 >? x1 then (x1, x0) else (x0, x1) in
  let '(y0, y1) := if y0 >? y1 then (y1, y0) else (y0, y1) in
  mkRect x0 y0 x1 y1.

Definition Dx (r : Rectangle) : Z := subInt (MaxX r) (MinX r).
Definition Dy (r : Rectangle) : Z := subInt (MaxY r) (MinY r).

Record Paletted : Type := mkPaletted {
  Pix : list Z;          (* []uint8: palette indices *)
  Stride : Z;
  Bounds : Rectangle     (* the field Rect *)
}.

(** [mul3NonNeg] of package image: [x * y * z], or -1 when an argument is
    negative or the product does not fit an [int].  [bits.Mul64] gives the
    high and the low 64 bits of a product. *)
Definition mul3NonNeg (x y z : Z) : Z :=
  if (x <? 0) || (y <? 0) || (z <? 0) then -1
  else
    let hi := (x * y) / 2 ^ 64 in
    let lo := (x * y) mod 2 ^ 64 in
    if negb (hi =? 0) then -1
    else
      let hi := (lo * z) / 2 ^ 64 in
      let lo := (lo * z) mod 2 ^ 64 in
      if negb (hi =? 0) then -1
      else
        let a := wrapInt lo in
        if a <? 0 then -1 else a.

(** [pixelBufferLength] of package image. *)
Definition pixelBufferLength (bytesPerPixel : Z) (r : Rectangle) : run Z :=
  let totalLength := mul3NonNeg bytesPerPixel (Dx r) (Dy r) in
  if totalLength <? 0 then Panic HugeDimensions else Ret totalLength.

(** The most the runtime allocates. *)
Definition maxAlloc : Z := 2 ^ 48.

(** [make([]uint8, n)]. *)
Definition makePix (n : Z) : run (list Z) :=
  if (n <? 0) || (maxAlloc <? n) then Panic (MakeSliceLenOutOfRange n)
  else Ret (replicate (Z.to_nat n) 0).

(** [image.NewPaletted], one byte per pixel. *)
Definition NewPaletted (r : Rectangle) : run Paletted :=
  n ← pixelBufferLength 1 r;
  pix ← makePix n;
  Ret (mkPaletted pix (mulInt 1 (Dx r)) r).

Definition PixOffset (p : Paletted) (x y : Z) : Z :=
  addInt (mulInt (subInt y (MinY (Bounds p))) (Stride p))
         (mulInt (subInt x (MinX (Bounds p))) 1).

(** [img.Pix[pos] = color]. *)
Definition setPix (p : Paletted) (pos color : Z) : run Paletted :=
  if (0 <=? pos) && (pos <? Zlength' (Pix p)) then
    Ret (mkPaletted (<[Z.to_nat pos := color]> (Pix p)) (Stride p) (Bounds p))
  else Panic (IndexOutOfRange pos (Zlength' (Pix p))).

(** The palette of the writer is [{backgroundColor, foregroundColor}],
    white and black; [Palette.Index] of a colour of the palette is its
    position. *)
Definition bgColor : Z := 0.
Definition fgColor : Z := 1.

Record Option : Type := mkOption {
  Padding : Z;
  BlockSize : Z
}.

Record Matrix : Type := mkMatrix {
  Width : Z;
  visits : list (Z * Z * bool)   (* x, y, v.IsSet() of each callback call *)
}.

Record imgWriter : Type := mkWriter {
  img : option Paletted;   (* image.Image, nil before Write *)
  opt : Option             (* the field option *)
}.

Definition NewImageWriter (o : Option) : imgWriter := mkWriter None o.

(** The inner loop of [rectangle]: [for y := y1; y < y2; y++] at column
    [x]; [n] counts the iterations that remain, [y2 - y] of them. *)
Fixpoint fillColumn (p : Paletted) (color x : Z) (n : nat) (y : Z)
    : run Paletted :=
  match n with
  | O => Ret p
  | S n' =>
      p' ← setPix p (PixOffset p x y) color;
      fillColumn p' color x n' (addInt y 1)
  end.

(** The outer loop of [rectangle]: [for x := x1; x < x2; x++]. *)
Fixpoint fillColumns (p : Paletted) (color y1 y2 : Z) (n : nat) (x : Z)
    : run Paletted :=
  match n with
  | O => Ret p
  | S n' =>
      p' ← fillColumn p color x (Z.to_nat (y2 - y1)) y1;
      fillColumns p' color y1 y2 n' (addInt x 1)
  end.

Definition rectangle (x1 y1 x2 y2 : Z) (p : Paletted) (color : Z)
    : run Paletted :=
  fillColumns p color y1 y2 (Z.to_nat (x2 - x1)) x1.

(** The callback [Write] passes to [Iterate], over the visited cells. *)
Fixpoint drawCells (p : Paletted) (blockWidth padding : Z)
    (cells : list (Z * Z * bool)) : run Paletted :=
  match cells with
  | [] => Ret p
  | (x, y, v) :: rest =>
      p' ← (if v then
               let sx := addInt (mulInt x blockWidth) padding in
               let sy := addInt (mulInt y blockWidth) padding in
               let ex := addInt (mulInt (addInt x 1) blockWidth) padding in
               let ey := addInt (mulInt (addInt y 1) blockWidth) padding in
               rectangle sx sy ex ey p fgColor
             else Ret p);
      drawCells p' blockWidth padding rest
  end.

(** [Write]: the writer with its image set; the error it returns is always
    nil. *)
Definition Write (w : imgWriter) (mat : Matrix) : run imgWriter :=
  let padding := Padding (opt w) in
  let blockWidth := BlockSize (opt w) in
  let width := addInt (mulInt (Width mat) blockWidth) (mulInt 2 padding) in
  let height := width in
  p ← NewPaletted (Rect 0 0 width height);
  p ← rectangle 0 0 width height p bgColor;
  p ← drawCells p blockWidth padding (visits mat);
  Ret (mkWriter (Some p) (opt w)).

(** [Close]: the image the callback is called with. *)
Definition Close (w : imgWriter) : option Paletted := img w.

Definition Image (w : imgWriter) : option Paletted := img w.

(** A pixel lies in the block of a set cell. *)
Definition inBlock (blockWidth padding px py : Z) (cell : Z * Z * bool)
    : bool :=
  let '(x, y, v) := cell in
  v && (x * blockWidth + padding <=? px) && (px <? (x + 1) * blockWidth + padding)
    && (y * blockWidth + padding <=? py) && (py <? (y + 1) * blockWidth + padding).

(** A square image of the given side that has a pixel for every
    position, of a size the runtime allocates. *)
Definition square (side : Z) (p : Paletted) : Prop :=
  Bounds p = mkRect 0 0 side side
  /\ Stride p = side
  /\ Zlength' (Pix p) = side * side
  /\ side * side <= maxAlloc.

(** The palette index at a position. *)
Definition pixel (p : Paletted) (px py : Z) : option Z :=
  Pix p !! Z.to_nat (PixOffset p px py).

(** A visited cell lies inside a matrix of width [w]. *)
Definition cell_in (w : Z) (cell : Z * Z * bool) : Prop :=
  0 <= cell.1.1 < w /\ 0 <= cell.1.2 < w.

(** ** QR codes of frames (internal/imgwriter.go, qrseq.go)

    The QR encoder is an external library.  [base64] stands for
    [base64.StdEncoding.EncodeToString] and [qrNew] for [qrcode.New], with
    [None] for its error; [qr.Save(w)] of that library calls [w.Write] with
    the matrix of the symbol and then [w.Close], and returns the error of
    [Write]. *)

Inductive encode_error : Type :=
| InvalidBlockSize       (* errors.New("invalid block size") *)
| EncoderError           (* the error of qrcode.New *)
| SequenceNotComplete.   (* errors.New("sequence not complete") *)

Section Encoder.

Context {text : Type}.
Variable base64 : list byte -> text.
Variable qrNew : text -> option Matrix.

(** [QRCode]: the error, or the image the callback stored, which is nil
    when it was never called. *)
Definition QRCode (c : QRChunk) (blockSize : Z)
    : run (encode_error + option Paletted) :=
  if blockSize <? 1 then Ret (inl InvalidBlockSize)
  else
    let qrdata := elems (wireBytes c) in
    match qrNew (base64 qrdata) with
    | None => Ret (inl EncoderError)
    | Some mat =>
        w ← Write (NewImageWriter (mkOption blockSize blockSize)) mat;
        Ret (inr (Close w))
    end.

(** The loop of [QRCodes]; calling [QRCode] dereferences the chunk. *)
Fixpoint qrLoop (blockSize : Z) (l : list (option QRChunk))
    (images : list (option Paletted))
    : run (encode_error + list (option Paletted)) :=
  match l with
  | [] => Ret (inr images)
  | None :: _ => Panic NilDereference
  | Some chunk :: rest =>
      r ← QRCode chunk blockSize;
      match r with
      | inl err => Ret (inl err)
      | inr qr => qrLoop blockSize rest (images ++ [qr])
      end
  end.

Definition QRCodes (s : QRSequence) (blockSize : Z)
    : run (encode_error + list (option Paletted)) :=
  if negb (IsComplete s) then Ret (inl SequenceNotComplete)
  else qrLoop blockSize (chunks s) [].

End Encoder.

(** [DecodeImage] over a list of images by a caller that ignores the errors
    it returns, as the example program does, and stops at a panic. *)
Fixpoint DecodeAll {image : Type} (scan : image -> option bslice)
    (s : QRSequence) (imgs : list image) : effect unit :=
  match imgs with
  | [] => (s, Ret tt)
  | i :: rest =>
      match DecodeImage scan s i with
      | (s', Ret _) => DecodeAll scan s' rest
      | (s', Panic p) => (s', Panic p)
      end
  end.






(** * Properties *)

(** ** Bytes *)

Lemma byte_to_Z_range (b : byte) : is_uint8 (byte_to_Z b).
Proof.
  unfold is_uint8, byte_to_Z. pose proof (Byte.to_N_bounded b). lia.
Qed.

Lemma byte_of_to_Z (b : byte) : byte_of_Z (byte_to_Z b) = b.
Proof.
  unfold byte_of_Z. pose proof (byte_to_Z_range b) as Hb.
  unfold is_uint8 in Hb. rewrite Z.mod_small by lia.
  unfold byte_to_Z. rewrite N2Z.id, Byte.of_to_N. reflexivity.
Qed.

Lemma byte_to_of_Z (z : Z) : byte_to_Z (byte_of_Z z) = z mod 256.
Proof.
  unfold byte_of_Z, byte_to_Z.
  assert (Hr : 0 <= z mod 256 < 256) by (apply Z.mod_pos_bound; lia).
  destruct (Byte.of_N (Z.to_N (z mod 256))) as [b|] eqn:E.
  - apply Byte.to_of_N in E. rewrite E. lia.
  - apply Byte.of_N_None_iff in E. lia.
Qed.

Lemma byte_to_of_Z_small (z : Z) : is_uint8 z -> byte_to_Z (byte_of_Z z) = z.
Proof.
  intros Hz. rewrite byte_to_of_Z. apply Z.mod_small. exact Hz.
Qed.

Lemma isValidChunkSize_cases (cs : Z) :
  isValidChunkSize cs = true ->
  cs = 32 \/ cs = 64 \/ cs = 128 \/ cs = 256 \/ cs = 512 \/ cs = 1024.
Proof.
  unfold isValidChunkSize, ChunkSize32, ChunkSize64, ChunkSize128,
    ChunkSize256, ChunkSize512, ChunkSize1024.
  rewrite !orb_true_iff, !Z.eqb_eq. tauto.
Qed.

Lemma readUint16LE_put (cs : Z) :
  is_uint16 cs -> readUint16LE (putUint16LE cs) = Some cs.
Proof.
  intros Hcs. unfold readUint16LE, putUint16LE. f_equal.
  rewrite !byte_to_of_Z. unfold is_uint16 in Hcs.
  change 256 with (2 ^ 8).
  apply Z.bits_inj'. intros n Hn.
  rewrite Z.lor_spec, Z.shiftl_spec by lia.
  destruct (Z.ltb_spec n 8) as [Hlt | Hge].
  - rewrite Z.mod_pow2_bits_low by lia.
    rewrite (Z.testbit_neg_r _ (n - 8)) by lia.
    apply orb_false_r.
  - rewrite Z.mod_pow2_bits_high by lia. simpl.
    destruct (Z.ltb_spec n 16) as [Hlt | Hge16].
    + rewrite Z.mod_pow2_bits_low by lia.
      rewrite Z.shiftr_spec by lia. f_equal. lia.
    + rewrite Z.mod_pow2_bits_high by lia.
      rewrite <- (Z.mod_small cs (2 ^ 16)) by (change (2 ^ 16) with 65536; lia).
      rewrite Z.mod_pow2_bits_high by lia. reflexivity.
Qed.

(** ** Outcomes and slices *)

Lemma bind_Ret {A B : Type} (a : A) (k : A -> run B) : (Ret a ≫= k) = k a.
Proof. reflexivity. Qed.

Lemma Zlength'_nonneg {A : Type} (l : list A) : 0 <= Zlength' l.
Proof. unfold Zlength'. lia. Qed.

Lemma Zlength'_cons {A : Type} (x : A) (l : list A) :
  Zlength' (x :: l) = 1 + Zlength' l.
Proof. unfold Zlength'. simpl. lia. Qed.

Lemma Zlength'_app {A : Type} (l k : list A) :
  Zlength' (l ++ k) = Zlength' l + Zlength' k.
Proof. unfold Zlength'. rewrite length_app. lia. Qed.

Lemma Zgtb_le (a b : Z) : a <= b -> (a >? b) = false.
Proof. intros H. rewrite Z.gtb_ltb. apply Z.ltb_ge. exact H. Qed.

Lemma at_index_lookup (d : bslice) (i : Z) (b : byte) :
  0 <= i -> elems d !! Z.to_nat i = Some b -> at_index d i = Ret b.
Proof.
  intros Hi Hb. unfold at_index. rewrite Hb.
  apply lookup_lt_Some in Hb.
  replace ((0 <=? i) && (i <? slen d)) with true; [reflexivity|].
  symmetry. apply andb_true_iff. unfold slen, Zlength'. split; lia.
Qed.

Lemma reslice_ok (d : bslice) (lo hi : Z) :
  0 <= lo <= hi -> hi <= scap d ->
  reslice d lo hi =
  Ret (take (Z.to_nat (hi - lo)) (drop (Z.to_nat lo) (elems d ++ spare d))).
Proof.
  intros [Hlo Hhi] Hcap. unfold reslice.
  replace ((0 <=? lo) && (lo <=? hi) && (hi <=? scap d)) with true;
    [reflexivity|].
  symmetry. rewrite !andb_true_iff. repeat split; lia.
Qed.

Lemma reslice_beyond (d : bslice) (lo hi : Z) :
  scap d < hi \/ hi < lo ->
  reslice d lo hi = Panic (SliceBoundsOutOfRange lo hi (scap d)).
Proof.
  intros H. unfold reslice.
  replace ((0 <=? lo) && (lo <=? hi) && (hi <=? scap d)) with false;
    [reflexivity|].
  symmetry. rewrite !andb_false_iff. destruct H; [right | left; right]; lia.
Qed.

(** ** Header decoding *)

(** A slice shorter than four bytes whose capacity is its length makes
    [NewChunk] panic: at [data[0]], at [data[1]] or at [data[2:4]]. *)
Lemma NewChunk_short_exact (l : list byte) :
  Zlength' l < 4 -> panics (NewChunk (exact l)).
Proof.
  intros Hl. unfold NewChunk, panics.
  destruct l as [|b0 [|b1 l']].
  - eexists. reflexivity.
  - eexists. reflexivity.
  - rewrite (at_index_lookup _ 0 b0), bind_Ret by (simpl; first [lia | reflexivity]).
    rewrite (at_index_lookup _ 1 b1), bind_Ret by (simpl; first [lia | reflexivity]).
    rewrite reslice_beyond.
    + eexists. reflexivity.
    + left. unfold scap, exact. simpl elems. simpl spare.
      rewrite !Zlength'_cons in *. change (Zlength' (@nil byte)) with 0. lia.
Qed.

(** With spare capacity behind a two- or three-byte slice, [data[2:4]]
    reads the backing array; the call then returns nil for an invalid size
    and panics at [data[4:]] for a valid one. *)
Lemma NewChunk_short_spare (d : bslice) :
  2 <= slen d < 4 -> 4 <= scap d ->
  NewChunk d = Ret None \/ panics (NewChunk d).
Proof.
  intros Hl Hc. unfold NewChunk.
  destruct d as [el sp]. unfold slen, scap in *. simpl elems in *. simpl spare in *.
  destruct el as [|b0 [|b1 el']];
    try (rewrite ?Zlength'_cons in Hl; change (Zlength' (@nil byte)) with 0 in Hl; lia).
  rewrite (at_index_lookup _ 0 b0), bind_Ret by (simpl; first [lia | reflexivity]).
  rewrite (at_index_lookup _ 1 b1), bind_Ret by (simpl; first [lia | reflexivity]).
  rewrite reslice_ok, bind_Ret by (unfold scap; simpl; lia).
  destruct (readUint16LE _) as [z|]; [|left; reflexivity].
  destruct (isValidChunkSize z) eqn:Hv; [|left; reflexivity].
  right. simpl negb. cbv iota.
  apply isValidChunkSize_cases in Hv.
  rewrite Zgtb_le by (unfold slen; simpl elems; lia).
  unfold reslice_from. rewrite reslice_beyond.
  - eexists. reflexivity.
  - right. unfold slen. simpl elems. lia.
Qed.

(** C2: the empty slice, the shortest input of fewer than four bytes, makes
    [NewChunk] panic with an index out of range at [data[0]]; it does not
    return a failure value. *)
Theorem NewChunk_empty_panics :
  NewChunk (exact []) = Panic (IndexOutOfRange 0 0).
Proof. reflexivity. Qed.

(** ** Frame serialisation *)

Lemma NewChunk_wireBytes_parse (c : QRChunk) :
  chunk_in_range c ->
  isValidChunkSize (cs c) = true ->
  Zlength' (data c) <= cs c - 4 ->
  NewChunk (wireBytes c) = Ret (Some c).
Proof.
  intros (Hnr & Htot & Hcs) Hv Hlen.
  destruct c as [n t z d]. simpl in Hnr, Htot, Hcs, Hv, Hlen.
  unfold NewChunk, wireBytes. simpl nr. simpl tot. simpl cs. simpl data.
  pose proof (Zlength'_nonneg d) as Hd.
  rewrite (at_index_lookup _ 0 (byte_of_Z n)), bind_Ret
    by (first [lia | reflexivity]).
  rewrite (at_index_lookup _ 1 (byte_of_Z t)), bind_Ret
    by (first [lia | reflexivity]).
  assert (Hcap : scap (exact ([byte_of_Z n; byte_of_Z t] ++ putUint16LE z ++ d))
                 = 4 + Zlength' d).
  { unfold scap, exact, putUint16LE. simpl elems. simpl spare. simpl app.
    rewrite !Zlength'_cons. change (Zlength' (@nil byte)) with 0. lia. }
  assert (Hslen : slen (exact ([byte_of_Z n; byte_of_Z t] ++ putUint16LE z ++ d))
                 = 4 + Zlength' d).
  { unfold slen, exact, putUint16LE. simpl elems. simpl app.
    rewrite !Zlength'_cons. lia. }
  rewrite reslice_ok, bind_Ret by lia.
  change (take (Z.to_nat (4 - 2)) (drop (Z.to_nat 2) _))
    with (putUint16LE z).
  rewrite readUint16LE_put by exact Hcs.
  rewrite Hv. simpl negb. cbv iota.
  rewrite Zgtb_le by lia.
  unfold reslice_from. rewrite reslice_ok, bind_Ret by lia.
  rewrite Hslen. rewrite !byte_to_of_Z_small by assumption.
  do 3 f_equal.
  replace (Z.to_nat (4 + Zlength' d - 4)) with (length d)
    by (unfold Zlength'; lia).
  unfold exact, putUint16LE. simpl elems. simpl spare.
  change (Z.to_nat 4) with 4%nat. simpl drop.
  rewrite app_nil_r. apply firstn_all.
Qed.

(** C8: the wire bytes of a frame, as [QRCode] builds them, are the index
    byte, the total byte, the frame size low byte first, and the payload;
    parsing them with [NewChunk] gives the frame back, index, total, frame
    size and payload, for every frame whose header fields are in range,
    whose frame size is valid and whose payload has at most
    [frameSize - 4] bytes. *)
Theorem NewChunk_wireBytes (c : QRChunk) :
  chunk_in_range c ->
  isValidChunkSize (cs c) = true ->
  Zlength' (data c) <= cs c - 4 ->
  elems (wireBytes c)
  = byte_of_Z (nr c) :: byte_of_Z (tot c)
    :: byte_of_Z (cs c mod 256) :: byte_of_Z (cs c / 256) :: data c
  /\ NewChunk (wireBytes c) = Ret (Some c).
Proof.
  intros Hr Hv Hlen. split; [|apply NewChunk_wireBytes_parse; assumption].
  unfold wireBytes, exact, putUint16LE. cbn [elems app].
  rewrite Z.shiftr_div_pow2 by lia. change (2 ^ 8) with 256.
  do 2 f_equal. f_equal. unfold byte_of_Z.
  rewrite Z.mod_mod by lia. reflexivity.
Qed.

Lemma NewChunk_wireBytes_witness :
  elems (wireBytes (mkChunk 3 4 64 (bs [200; 0; 17])))
  = bs [3; 4; 64; 0; 200; 0; 17]
  /\ NewChunk (wireBytes (mkChunk 3 4 64 (bs [200; 0; 17])))
     = Ret (Some (mkChunk 3 4 64 (bs [200; 0; 17]))).
Proof.
  apply (NewChunk_wireBytes (mkChunk 3 4 64 (bs [200; 0; 17]))).
  - unfold chunk_in_range, is_uint8, is_uint16. cbn. lia.
  - reflexivity.
  - vm_compute. discriminate.
Defined.

(** ** The chunker *)

Lemma subslice_ok (l : list byte) (lo hi : Z) :
  0 <= lo <= hi -> hi <= Zlength' l ->
  subslice l lo hi = Ret (take (Z.to_nat (hi - lo)) (drop (Z.to_nat lo) l)).
Proof.
  intros [Hlo Hhi] Hlen. unfold subslice.
  replace ((0 <=? lo) && (lo <=? hi) && (hi <=? Zlength' l)) with true;
    [reflexivity|].
  symmetry. rewrite !andb_true_iff. repeat split; lia.
Qed.

Lemma chunkPayload_ok (data : list byte) (ds i : Z) :
  0 < ds -> 0 <= i -> i * ds <= Zlength' data ->
  chunkPayload data ds i =
  Ret (take (Z.to_nat ds) (drop (Z.to_nat (i * ds)) data)).
Proof.
  intros Hds Hi Hs. unfold chunkPayload. cbv zeta.
  destruct (Z.gtb_spec (i * ds + ds) (Zlength' data)) as [Hgt | Hle].
  - rewrite subslice_ok by nia. f_equal.
    rewrite !take_ge; [reflexivity | |];
      rewrite length_drop; unfold Zlength' in *; lia.
  - rewrite subslice_ok by nia. do 2 f_equal. lia.
Qed.

Lemma createLoop_ok (data : list byte) (chunkSize tot : Z) (n : nat) :
  forall (i : Z) (acc : list QRChunk),
    4 < chunkSize -> 0 <= i ->
    (n = 0%nat \/ (i + Z.of_nat n - 1) * (chunkSize - 4) <= Zlength' data) ->
    createLoop data chunkSize (chunkSize - 4) tot n i acc =
    Ret (acc ++ ((fun k : nat => frame data chunkSize tot (i + Z.of_nat k))
                   <$> seq 0 n)).
Proof.
  induction n as [|n IH]; intros i acc Hcs Hi Hfit.
  - simpl. rewrite app_nil_r. reflexivity.
  - destruct Hfit as [Hfit | Hfit]; [discriminate|].
    cbn [createLoop].
    rewrite chunkPayload_ok, bind_Ret by nia.
    rewrite IH by (try lia; right; nia).
    rewrite <- app_assoc. do 2 f_equal.
    cbn [seq fmap list_fmap app]. f_equal.
    + unfold frame, uint8. rewrite Z.add_0_r. reflexivity.
    + rewrite <- seq_shift, <- list_fmap_compose.
      apply list_fmap_ext. intros _ k _. cbn. f_equal. lia.
Qed.

(** Go's truncated division of a length by a positive payload capacity,
    rounded up as [CreateChunks] does, is [framesNeeded]. *)
Lemma tot_framesNeeded (len frameSize : Z) :
  0 <= len -> 4 < frameSize ->
  (if negb (Z.rem len (frameSize - 4) =? 0)
   then Z.quot len (frameSize - 4) + 1
   else Z.quot len (frameSize - 4))
  = framesNeeded len frameSize.
Proof.
  intros Hlen Hfs. unfold framesNeeded.
  rewrite Z.quot_div_nonneg, Z.rem_mod_nonneg by lia.
  set (ds := frameSize - 4). assert (Hds : 0 < ds) by (unfold ds; lia).
  pose proof (Z.div_mod len ds ltac:(lia)) as Hdm.
  pose proof (Z.mod_pos_bound len ds Hds) as Hr.
  generalize dependent (len mod ds). generalize dependent (len / ds).
  intros q r Hdm Hr.
  destruct (Z.eqb_spec r 0) as [H0 | Hn0]; cbn [negb].
  - apply Z.div_unique with (r := ds - 1); lia.
  - apply Z.div_unique with (r := r - 1); lia.
Qed.

Lemma framesNeeded_fit (len frameSize : Z) :
  0 <= len -> 4 < frameSize ->
  0 <= framesNeeded len frameSize
  /\ (framesNeeded len frameSize - 1) * (frameSize - 4) <= len
  /\ len <= framesNeeded len frameSize * (frameSize - 4).
Proof.
  intros Hlen Hfs. unfold framesNeeded.
  set (ds := frameSize - 4). assert (Hds : 0 < ds) by (unfold ds; lia).
  pose proof (Z.div_mod (len + ds - 1) ds ltac:(lia)) as Hdm.
  pose proof (Z.mod_pos_bound (len + ds - 1) ds Hds) as Hr.
  assert (Hq : 0 <= (len + ds - 1) / ds) by (apply Z.div_pos; lia).
  generalize dependent ((len + ds - 1) mod ds).
  generalize dependent ((len + ds - 1) / ds).
  intros q Hq r Hdm Hr. repeat split; nia.
Qed.

Lemma valid_size_bounds (cs : Z) :
  isValidChunkSize cs = true -> 4 < cs < 65536.
Proof. intros H. apply isValidChunkSize_cases in H. lia. Qed.

(** [CreateChunks] on a valid frame size never panics and returns the
    frames of the split, whatever the length of the data. *)
Lemma CreateChunks_frames (data : list byte) (chunkSize : Z) :
  isValidChunkSize chunkSize = true ->
  CreateChunks data chunkSize =
  Ret (frames data chunkSize (framesNeeded (Zlength' data) chunkSize)).
Proof.
  intros Hv. apply valid_size_bounds in Hv.
  pose proof (Zlength'_nonneg data) as Hlen.
  unfold CreateChunks, uint16. cbv zeta.
  rewrite Z.mod_small by lia.
  destruct (Z.eqb_spec (chunkSize - 4) 0) as [H0 | _]; [lia|].
  rewrite tot_framesNeeded by lia.
  destruct (framesNeeded_fit (Zlength' data) chunkSize) as (Hn & Hfit & _);
    [lia | lia |].
  rewrite createLoop_ok; [reflexivity | lia | lia |].
  right. rewrite Z2Nat.id by lia. lia.
Qed.

Lemma frames_length (data : list byte) (fs total : Z) :
  0 <= total -> Zlength' (frames data fs total) = total.
Proof.
  intros Ht. unfold frames, Zlength'.
  rewrite length_fmap, length_seq. lia.
Qed.

Lemma frames_lookup (data : list byte) (fs total i : Z) :
  0 <= i < total ->
  frames data fs total !! Z.to_nat i = Some (frame data fs total i).
Proof.
  intros Hi. unfold frames.
  rewrite list_lookup_fmap, lookup_seq_lt by lia.
  cbn. rewrite Z2Nat.id by lia. reflexivity.
Qed.

Lemma frames_payloads (data : list byte) (fs total : Z) (n : nat) :
  4 < fs ->
  concat (internal.data <$>
            ((fun k : nat => frame data fs total (Z.of_nat k)) <$> seq 0 n))
  = take (n * Z.to_nat (fs - 4)) data.
Proof.
  intros Hfs. induction n as [|n IH].
  - reflexivity.
  - rewrite seq_S, !fmap_app, concat_app, IH. cbn.
    rewrite app_nil_r.
    replace (Z.to_nat (Z.of_nat n * (fs - 4))) with (n * Z.to_nat (fs - 4))%nat
      by nia.
    rewrite take_take_drop. f_equal. lia.
Qed.

(** The payloads of the frames of a split, in order, make up the data. *)
Lemma frames_concat (data : list byte) (fs : Z) :
  4 < fs ->
  concat (internal.data <$> frames data fs (framesNeeded (Zlength' data) fs))
  = data.
Proof.
  intros Hfs. unfold frames. rewrite frames_payloads by exact Hfs.
  destruct (framesNeeded_fit (Zlength' data) fs) as (Hn & _ & Hcover);
    [apply Zlength'_nonneg | lia |].
  apply take_ge. unfold Zlength' in *. nia.
Qed.

(** C3 fails in the code: 7196 bytes at frame size 32 need 257 frames, and
    [CreateChunks] reports no failure.  It returns 257 frames whose header
    fields are cut to 8 bits: every frame declares a total of 1 and the
    last one declares index 0, where [Tot] is documented as the total
    number of chunks.  The receiver of the same package cannot put these
    frames together: after the first frame alone the sequence is complete
    and [Data] returns 28 of the 7196 bytes, and when the second frame
    arrives first, absorbing it panics. *)
Theorem CreateChunks_oversized_truncates :
  isValidChunkSize 32 = true
  /\ framesNeeded (Zlength' oversized) 32 = 257
  /\ exists split : list QRChunk,
       CreateChunks oversized 32 = Ret split
       /\ Zlength' split = 257
       /\ Forall (fun c => Tot c = 1) split
       /\ Nr <$> last split = Some 0
       /\ (exists (c0 : QRChunk) (s : QRSequence),
             split !! 0%nat = Some c0
             /\ AddChunkFromBytes NewEmpty (wireBytes c0) = (s, Ret tt)
             /\ IsComplete s = true
             /\ Data s = Ret (Some (take 28 oversized)))
       /\ (exists (c1 : QRChunk) (s : QRSequence),
             split !! 1%nat = Some c1
             /\ AddChunkFromBytes NewEmpty (wireBytes c1)
                = (s, Panic (IndexOutOfRange 1 1))).
Proof.
  split; [reflexivity|]. split; [vm_compute; reflexivity|].
  eexists. split; [vm_compute; reflexivity|].
  split; [vm_compute; reflexivity|].
  split; [|split; [vm_compute; reflexivity|]].
  - apply Forall_forall. intros c Hc.
    apply list_elem_of_fmap_2 with (f := Tot) in Hc.
    revert Hc. generalize (Tot c). intros t Ht.
    vm_compute in Ht.
    repeat (apply elem_of_cons in Ht; destruct Ht as [Ht | Ht]; [exact Ht|]).
    apply elem_of_nil in Ht. destruct Ht.
  - split.
    + eexists _, _. split; [vm_compute; reflexivity|].
      split; [vm_compute; reflexivity|].
      split; vm_compute; reflexivity.
    + eexists _, _. split; vm_compute; reflexivity.
Qed.

(** ** Reconstruction *)

Lemma appendAll_filled (l : list QRChunk) (acc : list byte) :
  appendAll acc (Some <$> l) = Ret (acc ++ concat (internal.data <$> l)).
Proof.
  revert acc. induction l as [|c l IH]; intros acc; cbn.
  - rewrite app_nil_r. reflexivity.
  - rewrite IH, <- app_assoc. reflexivity.
Qed.

Lemma GetData_filled (c : QRChunk) (l : list QRChunk) :
  GetData (Some <$> (c :: l))
  = Ret (Some (concat (internal.data <$> (c :: l)))).
Proof.
  pose proof (appendAll_filled (c :: l) []) as H.
  unfold GetData. cbn [fmap list_fmap] in *. rewrite H. reflexivity.
Qed.

(** ** Pre-filled sequences *)

(** C10: [New] on zero-length data and a valid chunk size returns a
    sequence without frames for which [IsComplete] is true, [Progress] is 1
    and [Data] is the nil slice. *)
Theorem New_empty_data (chunkSize : Z) :
  isValidChunkSize chunkSize = true ->
  exists s : QRSequence,
    New [] chunkSize = Ret s
    /\ chunks s = []
    /\ IsComplete s = true
    /\ Progress s = f32_one
    /\ Data s = Ret None.
Proof.
  intros Hv. exists (mkSeq chunkSize [] 0).
  apply isValidChunkSize_cases in Hv.
  destruct Hv as [-> | [-> | [-> | [-> | [-> | ->]]]]];
    repeat split; reflexivity.
Qed.

Lemma New_empty_data_witness :
  exists s : QRSequence,
    New [] 64 = Ret s
    /\ chunks s = []
    /\ IsComplete s = true
    /\ Progress s = f32_one
    /\ Data s = Ret None.
Proof. apply (New_empty_data 64). reflexivity. Defined.

(** ** The assembler *)

Lemma slot_at_lookup (l : list (option QRChunk)) (i : Z) (o : option QRChunk) :
  0 <= i -> l !! Z.to_nat i = Some o -> slot_at l i = Ret o.
Proof.
  intros Hi Ho. unfold slot_at. rewrite Ho.
  apply lookup_lt_Some in Ho.
  replace ((0 <=? i) && (i <? Zlength' l)) with true; [reflexivity|].
  symmetry. apply andb_true_iff. unfold Zlength'. split; lia.
Qed.

Lemma slot_at_outside (l : list (option QRChunk)) (i : Z) :
  i < 0 \/ Zlength' l <= i ->
  slot_at l i = Panic (IndexOutOfRange i (Zlength' l)).
Proof.
  intros Hi. unfold slot_at.
  replace ((0 <=? i) && (i <? Zlength' l)) with false; [reflexivity|].
  symmetry. apply andb_false_iff. destruct Hi; [left | right]; lia.
Qed.

(** The three ways [slot_at] can end. *)
Lemma slot_at_cases (l : list (option QRChunk)) (i : Z) :
  (slot_at l i = Panic (IndexOutOfRange i (Zlength' l))
   /\ (i < 0 \/ Zlength' l <= i))
  \/ (slot_at l i = Ret None
      /\ 0 <= i < Zlength' l /\ l !! Z.to_nat i = Some None)
  \/ (exists c, slot_at l i = Ret (Some c)
      /\ 0 <= i < Zlength' l /\ l !! Z.to_nat i = Some (Some c)).
Proof.
  destruct (Z_lt_dec i 0) as [Hneg | Hpos].
  { left. split; [apply slot_at_outside|]; lia. }
  destruct (Z_le_dec (Zlength' l) i) as [Hout | Hin].
  { left. split; [apply slot_at_outside|]; lia. }
  assert (Hlt : (Z.to_nat i < length l)%nat) by (unfold Zlength' in *; lia).
  destruct (lookup_lt_is_Some_2 l _ Hlt) as [o Ho].
  rewrite (slot_at_lookup l i o) by (first [lia | exact Ho]).
  destruct o as [c|].
  - right. right. exists c. repeat split; try lia. exact Ho.
  - right. left. repeat split; try lia. exact Ho.
Qed.

Lemma addChunk_known (s : QRSequence) (c : QRChunk) :
  ChunkSize s <> ChunkSizeUnknown ->
  addChunk s c =
  match slot_at (chunks s) (Nr c) with
  | Panic p => (s, Panic p)
  | Ret (Some _) => (s, Ret tt)
  | Ret None =>
      (mkSeq (ChunkSize s) (<[Z.to_nat (Nr c) := Some c]> (chunks s))
             (nrReceived s + 1), Ret tt)
  end.
Proof.
  intros Hk. unfold addChunk.
  destruct (Z.eqb_spec (ChunkSize s) ChunkSizeUnknown) as [H0 | _];
    [contradiction | reflexivity].
Qed.

(** On a sequence of unknown size [addChunk] first allocates the slots the
    frame declares, and goes on as on that sequence. *)
Lemma addChunk_unknown (s : QRSequence) (c : QRChunk) :
  ChunkSize s = ChunkSizeUnknown ->
  Size c <> ChunkSizeUnknown ->
  addChunk s c =
  addChunk (mkSeq (Size c) (replicate (Z.to_nat (Tot c)) None) 0) c.
Proof.
  intros Hu Hc. unfold addChunk. rewrite Hu.
  cbn [ChunkSize]. rewrite Z.eqb_refl.
  destruct (Z.eqb_spec (Size c) ChunkSizeUnknown) as [H0 | _];
    [contradiction | reflexivity].
Qed.

Lemma addChunks_unknown (s : QRSequence) (c : QRChunk) (rest : list QRChunk) :
  ChunkSize s = ChunkSizeUnknown ->
  Size c <> ChunkSizeUnknown ->
  addChunks s (c :: rest) =
  addChunks (mkSeq (Size c) (replicate (Z.to_nat (Tot c)) None) 0) (c :: rest).
Proof.
  intros Hu Hc. cbn [addChunks]. rewrite addChunk_unknown by assumption.
  reflexivity.
Qed.

(** Frames whose indices continue the filled prefix of the slots fill the
    remaining slots one after the other. *)
Lemma addChunks_fill (size : Z) (post : list QRChunk) :
  forall pre : list QRChunk,
    size <> ChunkSizeUnknown ->
    (forall (j : nat) (c : QRChunk),
        post !! j = Some c -> Nr c = Z.of_nat (length pre + j)) ->
    addChunks
      (mkSeq size ((Some <$> pre) ++ replicate (length post) None)
             (Zlength' pre))
      post
    = (mkSeq size (Some <$> (pre ++ post)) (Zlength' (pre ++ post)), Ret tt).
Proof.
  induction post as [|c rest IH]; intros pre Hsize Hnr.
  - cbn. rewrite !app_nil_r. reflexivity.
  - assert (Hc : Nr c = Z.of_nat (length pre)).
    { rewrite (Hnr 0%nat c eq_refl). f_equal. lia. }
    assert (Hpos : Z.to_nat (Nr c) = length (Some <$> pre)).
    { rewrite Hc, length_fmap. lia. }
    cbn [addChunks]. rewrite addChunk_known by exact Hsize.
    cbn [chunks ChunkSize nrReceived].
    rewrite (slot_at_lookup _ _ None).
    + rewrite Hpos.
      rewrite insert_app_r_alt by lia. rewrite Nat.sub_diag.
      cbn [length replicate]. cbn [insert list_insert].
      specialize (IH (pre ++ [c]) Hsize).
      rewrite fmap_app, <- app_assoc in IH. cbn [fmap list_fmap app] in IH.
      rewrite Zlength'_app in IH. change (Zlength' [c]) with 1 in IH.
      rewrite <- (app_assoc pre [c] rest) in IH. cbn [app] in IH.
      apply IH. intros j c' Hj.
      rewrite (Hnr (S j) c' Hj), length_app. f_equal. cbn. lia.
    + lia.
    + rewrite Hpos, lookup_app_r by lia. rewrite Nat.sub_diag. reflexivity.
Qed.

Lemma frames_cons_inv (data : list byte) (fs total : Z) :
  0 < total ->
  exists rest : list QRChunk,
    frames data fs total = frame data fs total 0 :: rest.
Proof.
  intros Ht. unfold frames.
  destruct (Z.to_nat total) as [|n] eqn:E; [lia|].
  cbn [seq fmap list_fmap]. eexists. reflexivity.
Qed.

(** Absorbing the frames of a split with at most 255 frames, in split
    order, into the empty sequence fills every slot. *)
Lemma addChunks_frames (data : list byte) (fs total : Z) :
  fs <> ChunkSizeUnknown ->
  0 < total <= 255 ->
  addChunks NewEmpty (frames data fs total)
  = (mkSeq fs (Some <$> frames data fs total) total, Ret tt).
Proof.
  intros Hfs Ht.
  destruct (frames_cons_inv data fs total) as [rest Hrest]; [lia|].
  pose proof (frames_length data fs total ltac:(lia)) as Hlen.
  rewrite <- Hlen at 3.
  pose proof (addChunks_fill fs (frames data fs total) [] Hfs) as Hfill.
  cbn [fmap list_fmap app length] in Hfill.
  change (Zlength' []) with 0 in Hfill.
  rewrite <- Hfill.
  - rewrite Hrest at 1. rewrite addChunks_unknown by (first [reflexivity | exact Hfs]).
    rewrite <- Hrest. unfold Size, Tot, frame. cbn [cs tot].
    rewrite Z.mod_small by lia.
    do 3 f_equal. unfold Zlength' in Hlen. lia.
  - intros j c Hj.
    pose proof (lookup_lt_Some _ _ _ Hj) as Hlt.
    unfold Zlength' in Hlen.
    rewrite <- (Nat2Z.id j), frames_lookup in Hj by lia.
    injection Hj as <-. unfold Nr, frame. cbn [nr].
    rewrite Z.mod_small by lia. reflexivity.
Qed.

(** C1: for every byte buffer [D] and valid frame size under which [D]
    needs at most 255 frames, splitting [D] with [CreateChunks], absorbing
    the frames in split order with [addChunk] into an empty sequence and
    reconstructing returns the bytes of [D], from [Data] and from [GetData]
    on the slots alike.  No step panics; for a non-empty [D] the sequence
    is complete and the result is a non-nil slice, for the empty [D] there
    is no frame to absorb and the result is the nil slice. *)
Theorem split_absorb_reconstruct (D : list byte) (frameSize : Z) :
  isValidChunkSize frameSize = true ->
  framesNeeded (Zlength' D) frameSize <= 255 ->
  exists (split : list QRChunk) (s : QRSequence) (out : option (list byte)),
    CreateChunks D frameSize = Ret split
    /\ addChunks NewEmpty split = (s, Ret tt)
    /\ Data s = Ret out
    /\ GetData (chunks s) = Ret out
    /\ buffer out = D
    /\ (D <> [] -> IsComplete s = true /\ out = Some D).
Proof.
  intros Hv Hmax.
  pose proof (valid_size_bounds _ Hv) as Hb.
  rewrite (CreateChunks_frames D frameSize Hv).
  set (n := framesNeeded (Zlength' D) frameSize) in *.
  destruct (framesNeeded_fit (Zlength' D) frameSize) as (Hn & _ & Hcover);
    [apply Zlength'_nonneg | lia |].
  fold n in Hn, Hcover.
  destruct (Z.eq_dec n 0) as [H0 | Hpos].
  - (* no frame: the data is empty *)
    assert (HD : D = []).
    { destruct D; [reflexivity|]. rewrite Zlength'_cons in Hcover.
      pose proof (Zlength'_nonneg D). nia. }
    subst D. exists [], NewEmpty, None.
    rewrite H0. repeat split; solve [reflexivity | intros; congruence].
  - pose proof (frames_concat D frameSize ltac:(lia)) as Hcat. fold n in Hcat.
    destruct (frames_cons_inv D frameSize n) as [rest Hrest]; [lia|].
    exists (frames D frameSize n),
           (mkSeq frameSize (Some <$> frames D frameSize n) n),
           (Some D).
    assert (Hget : GetData (Some <$> frames D frameSize n) = Ret (Some D)).
    { rewrite <- Hcat at 2. rewrite Hrest. apply GetData_filled. }
    assert (Hdone : IsComplete (mkSeq frameSize (Some <$> frames D frameSize n) n)
                    = true).
    { unfold IsComplete, ChunkSizeUnknown. cbn [ChunkSize nrReceived chunks].
      destruct (Z.eqb_spec frameSize 0) as [Hz | _]; [lia|].
      apply Z.eqb_eq. unfold Zlength'. rewrite length_fmap.
      symmetry. apply frames_length. lia. }
    split; [reflexivity|].
    split; [apply addChunks_frames; unfold ChunkSizeUnknown; lia|].
    split; [unfold Data; rewrite Hdone; exact Hget|].
    split; [exact Hget|].
    split; [reflexivity|].
    intros _. split; [exact Hdone | reflexivity].
Qed.

Lemma split_absorb_reconstruct_witness :
  exists (split : list QRChunk) (s : QRSequence) (out : option (list byte)),
    CreateChunks (bs [1; 2; 3; 4; 5]) 32 = Ret split
    /\ addChunks NewEmpty split = (s, Ret tt)
    /\ Data s = Ret out
    /\ GetData (chunks s) = Ret out
    /\ buffer out = bs [1; 2; 3; 4; 5]
    /\ (bs [1; 2; 3; 4; 5] <> [] -> IsComplete s = true
                                    /\ out = Some (bs [1; 2; 3; 4; 5])).
Proof.
  apply (split_absorb_reconstruct (bs [1; 2; 3; 4; 5]) 32);
    [reflexivity | vm_compute; discriminate].
Defined.

(** ** What [NewChunk] returns *)

Lemma NewChunk_Some (d : bslice) (c : QRChunk) :
  NewChunk d = Ret (Some c) ->
  isValidChunkSize (cs c) = true /\ chunk_in_range c.
Proof.
  unfold NewChunk. intros H.
  destruct (at_index d 0) as [b0|] eqn:E0; [|discriminate].
  destruct (at_index d 1) as [b1|] eqn:E1; [|discriminate].
  destruct (reslice d 2 4) as [buf|] eqn:E2; [|discriminate].
  rewrite !bind_Ret in H.
  destruct (readUint16LE buf) as [z|] eqn:Ez; [|discriminate].
  destruct (isValidChunkSize z) eqn:Hv; [|discriminate].
  cbn [negb] in H.
  destruct (if slen d >? z then reslice d 4 z else reslice_from d 4)
    as [payload|]; [|discriminate].
  rewrite bind_Ret in H. injection H as <-.
  cbn [cs nr tot]. split; [exact Hv|].
  unfold chunk_in_range. cbn [cs nr tot].
  repeat split; try apply byte_to_Z_range;
    apply valid_size_bounds in Hv; lia.
Qed.

Lemma valid_size_known (c : QRChunk) :
  isValidChunkSize (cs c) = true -> Size c <> ChunkSizeUnknown.
Proof.
  intros Hv. apply valid_size_bounds in Hv.
  unfold Size, ChunkSizeUnknown. lia.
Qed.

(** ** Absorbing a frame twice *)

(** A second [addChunk] of the same frame ends as the first did and leaves
    the sequence as the first left it. *)
Lemma addChunk_twice (s : QRSequence) (c : QRChunk) :
  Size c <> ChunkSizeUnknown ->
  addChunk (addChunk s c).1 c = addChunk s c.
Proof.
  intros Hc.
  assert (Hknown : forall s0, ChunkSize s0 <> ChunkSizeUnknown ->
            addChunk (addChunk s0 c).1 c = addChunk s0 c).
  { intros s0 Hk. rewrite (addChunk_known s0) by exact Hk.
    destruct (slot_at_cases (chunks s0) (Nr c))
      as [[E _] | [(E & Hi & Hl) | (c' & E & _)]]; rewrite E; cbn [fst].
    - rewrite addChunk_known, E by exact Hk. reflexivity.
    - rewrite addChunk_known by exact Hk. cbn [chunks ChunkSize nrReceived].
      rewrite (slot_at_lookup _ _ (Some c)); [reflexivity | lia |].
      apply list_lookup_insert_eq. unfold Zlength' in Hi. lia.
    - rewrite addChunk_known, E by exact Hk. reflexivity. }
  destruct (Z.eq_dec (ChunkSize s) ChunkSizeUnknown) as [Hu | Hk].
  - rewrite (addChunk_unknown s c Hu Hc). apply Hknown. exact Hc.
  - apply Hknown. exact Hk.
Qed.

Lemma AddChunkFromBytes_complete (s : QRSequence) (d : bslice) :
  IsComplete s = true -> AddChunkFromBytes s d = (s, Ret tt).
Proof. intros H. unfold AddChunkFromBytes. rewrite H. reflexivity. Qed.

(** The sequence a second [AddChunkFromBytes] of the same bytes leaves is
    the one the first left. *)
Lemma AddChunkFromBytes_twice_state (s : QRSequence) (d : bslice) :
  (AddChunkFromBytes (AddChunkFromBytes s d).1 d).1
  = (AddChunkFromBytes s d).1.
Proof.
  destruct (IsComplete s) eqn:Hs.
  { rewrite (AddChunkFromBytes_complete s d Hs). cbn [fst].
    rewrite (AddChunkFromBytes_complete s d Hs). reflexivity. }
  destruct (NewChunk d) as [[c|]|p] eqn:Hd.
  - assert (E : AddChunkFromBytes s d = addChunk s c)
      by (unfold AddChunkFromBytes; rewrite Hs, Hd; reflexivity).
    rewrite E. unfold AddChunkFromBytes.
    destruct (IsComplete (addChunk s c).1); [reflexivity|].
    rewrite Hd. apply NewChunk_Some in Hd as [Hv _].
    rewrite addChunk_twice by (apply valid_size_known; exact Hv).
    reflexivity.
  - assert (E : AddChunkFromBytes s d = (s, Ret tt))
      by (unfold AddChunkFromBytes; rewrite Hs, Hd; reflexivity).
    rewrite E. cbn [fst]. rewrite E. reflexivity.
  - assert (E : AddChunkFromBytes s d = (s, Panic p))
      by (unfold AddChunkFromBytes; rewrite Hs, Hd; reflexivity).
    rewrite E. cbn [fst]. rewrite E. reflexivity.
Qed.

(** When the first call returned, so does the second. *)
Lemma AddChunkFromBytes_twice (s s' : QRSequence) (d : bslice) :
  AddChunkFromBytes s d = (s', Ret tt) ->
  AddChunkFromBytes s' d = (s', Ret tt).
Proof.
  intros H. unfold AddChunkFromBytes in H.
  destruct (IsComplete s) eqn:Hs.
  { injection H as <-. apply AddChunkFromBytes_complete. exact Hs. }
  destruct (NewChunk d) as [[c|]|p] eqn:Hd.
  - unfold AddChunkFromBytes.
    destruct (IsComplete s'); [reflexivity|]. rewrite Hd.
    apply NewChunk_Some in Hd as [Hv _]. apply valid_size_known in Hv.
    pose proof (addChunk_twice s c Hv) as Htw. rewrite H in Htw. exact Htw.
  - injection H as <-. unfold AddChunkFromBytes. rewrite Hs, Hd. reflexivity.
  - discriminate.
Qed.

(** A frame whose slot is taken changes nothing, whatever it carries. *)
Lemma addChunk_duplicate (s : QRSequence) (c c' : QRChunk) :
  ChunkSize s <> ChunkSizeUnknown ->
  0 <= Nr c ->
  chunks s !! Z.to_nat (Nr c) = Some (Some c') ->
  addChunk s c = (s, Ret tt).
Proof.
  intros Hk Hnr Hslot. rewrite addChunk_known by exact Hk.
  rewrite (slot_at_lookup _ _ (Some c')) by assumption. reflexivity.
Qed.

(** The image path absorbs what the byte path absorbs. *)
Lemma DecodeImage_state {image : Type} (scan : image -> option bslice)
    (s : QRSequence) (img : image) :
  (DecodeImage scan s img).1 =
  match scan img with
  | None => s
  | Some d => (AddChunkFromBytes s d).1
  end.
Proof.
  unfold DecodeImage, NewChunkFromImage, AddChunkFromBytes.
  destruct (IsComplete s); [destruct (scan img); reflexivity|].
  destruct (scan img) as [d|]; [|reflexivity].
  destruct (NewChunk d) as [[c|]|p]; cbn; try reflexivity.
  destruct (addChunk s c) as [s' r]. reflexivity.
Qed.

Lemma DecodeImage_complete {image : Type} (scan : image -> option bslice)
    (s : QRSequence) (img : image) :
  IsComplete s = true -> DecodeImage scan s img = (s, Ret None).
Proof. intros H. unfold DecodeImage. rewrite H. reflexivity. Qed.

Lemma DecodeImage_twice_state {image : Type} (scan : image -> option bslice)
    (s : QRSequence) (img : image) :
  (DecodeImage scan (DecodeImage scan s img).1 img).1
  = (DecodeImage scan s img).1.
Proof.
  rewrite !DecodeImage_state.
  destruct (scan img) as [d|]; [|reflexivity].
  apply AddChunkFromBytes_twice_state.
Qed.

(** C6: absorption is idempotent.  The sequence left by absorbing the same
    bytes (or the same image) a second time is the sequence left by the
    first call, so [nrReceived], [Progress], [IsComplete] and [Data] agree,
    and a second call returns when the first did; absorbing anything into a
    complete sequence changes nothing; a frame whose slot is already filled
    changes nothing and does not count. *)
Theorem absorb_idempotent (s : QRSequence) (d : bslice) :
  let once := (AddChunkFromBytes s d).1 in
  let twice := (AddChunkFromBytes once d).1 in
  (twice = once
   /\ nrReceived twice = nrReceived once
   /\ Progress twice = Progress once
   /\ IsComplete twice = IsComplete once
   /\ Data twice = Data once)
  /\ ((AddChunkFromBytes s d).2 = Ret tt ->
      AddChunkFromBytes once d = (once, Ret tt))
  /\ (IsComplete s = true -> AddChunkFromBytes s d = (s, Ret tt))
  /\ (forall c c' : QRChunk,
        ChunkSize s <> ChunkSizeUnknown -> 0 <= Nr c ->
        chunks s !! Z.to_nat (Nr c) = Some (Some c') ->
        addChunk s c = (s, Ret tt))
  /\ (forall (image : Type) (scan : image -> option bslice) (img : image),
        (DecodeImage scan (DecodeImage scan s img).1 img).1
        = (DecodeImage scan s img).1
        /\ (IsComplete s = true -> DecodeImage scan s img = (s, Ret None))).
Proof.
  cbv zeta. pose proof (AddChunkFromBytes_twice_state s d) as Hst.
  split; [rewrite Hst; repeat split; reflexivity|].
  split.
  { intros Hret. apply AddChunkFromBytes_twice with (s := s).
    destruct (AddChunkFromBytes s d) as [s' r]. cbn in *. congruence. }
  split; [apply AddChunkFromBytes_complete|].
  split; [apply addChunk_duplicate|].
  intros image scan img. split.
  - apply DecodeImage_twice_state.
  - apply DecodeImage_complete.
Qed.

(** ** Headers the assembler does not check *)

(** With no slots allocated every index is out of range. *)
Lemma addChunk_total_zero (c : QRChunk) :
  Tot c = 0 -> Size c <> ChunkSizeUnknown ->
  addChunk NewEmpty c
  = (mkSeq (Size c) [] 0, Panic (IndexOutOfRange (Nr c) 0)).
Proof.
  intros Ht Hs. rewrite addChunk_unknown by (first [reflexivity | exact Hs]).
  rewrite addChunk_known by exact Hs. rewrite Ht.
  cbn [chunks Z.to_nat replicate].
  rewrite slot_at_outside; [reflexivity|].
  unfold Zlength'. rewrite length_replicate. lia.
Qed.

(** Whatever frame declares a total of 0: absorbed into the empty sequence
    it is not stored, and the sequence it leaves has the frame size of the
    header, no slots, and reports itself complete. *)
Lemma absorb_total_zero_state (d : bslice) (c : QRChunk) :
  NewChunk d = Ret (Some c) ->
  Tot c = 0 ->
  AddChunkFromBytes NewEmpty d
  = (mkSeq (Size c) [] 0, Panic (IndexOutOfRange (Nr c) 0))
  /\ IsComplete (mkSeq (Size c) [] 0) = true.
Proof.
  intros Hd Ht.
  pose proof (NewChunk_Some d c Hd) as [Hv _].
  pose proof (valid_size_known c Hv) as Hk.
  split.
  - unfold AddChunkFromBytes. rewrite Hd. apply addChunk_total_zero; assumption.
  - unfold IsComplete. cbn [ChunkSize nrReceived chunks].
    destruct (Z.eqb_spec (Size c) ChunkSizeUnknown); [contradiction|].
    reflexivity.
Qed.

(** C4: the four header bytes of a frame of size 32 with index 0 and
    total 0, absorbed into the empty sequence, are parsed as a frame and
    not rejected with a failure value: [AddChunkFromBytes] panics at the
    slot access, and the sequence it leaves has no slots and reports itself
    complete. *)
Theorem absorb_total_zero_panics :
  NewChunk (exact (bs [0; 0; 32; 0])) = Ret (Some (mkChunk 0 0 32 []))
  /\ AddChunkFromBytes NewEmpty (exact (bs [0; 0; 32; 0]))
     = (mkSeq 32 [] 0, Panic (IndexOutOfRange 0 0))
  /\ IsComplete (mkSeq 32 [] 0) = true.
Proof. repeat split; reflexivity. Qed.

(** An index beyond the allocated slots makes [addChunk] panic. *)
Lemma addChunk_index_beyond (s : QRSequence) (c : QRChunk) :
  ChunkSize s <> ChunkSizeUnknown ->
  Zlength' (chunks s) <= Nr c ->
  addChunk s c = (s, Panic (IndexOutOfRange (Nr c) (Zlength' (chunks s)))).
Proof.
  intros Hk Hnr. rewrite addChunk_known by exact Hk.
  rewrite slot_at_outside by (right; exact Hnr). reflexivity.
Qed.

(** A parsed frame whose index is not below its total makes the first
    absorption panic, whatever the frame. *)
Lemma absorb_index_beyond_total (d : bslice) (c : QRChunk) :
  NewChunk d = Ret (Some c) ->
  Tot c <= Nr c ->
  AddChunkFromBytes NewEmpty d
  = (mkSeq (Size c) (replicate (Z.to_nat (Tot c)) None) 0,
     Panic (IndexOutOfRange (Nr c) (Tot c))).
Proof.
  intros Hd Hnr.
  pose proof (NewChunk_Some d c Hd) as [Hv (_ & Ht & _)].
  pose proof (valid_size_known c Hv) as Hk.
  assert (Hlen : Zlength' (replicate (Z.to_nat (Tot c)) (@None QRChunk))
                 = Tot c).
  { unfold Zlength'. rewrite length_replicate.
    unfold is_uint8, Tot in *. lia. }
  unfold AddChunkFromBytes. rewrite Hd. cbn [IsComplete NewEmpty].
  change (IsComplete NewEmpty) with false. cbv iota.
  rewrite addChunk_unknown by (first [reflexivity | exact Hk]).
  rewrite addChunk_index_beyond.
  - cbn [chunks]. rewrite Hlen. reflexivity.
  - exact Hk.
  - cbn [chunks]. rewrite Hlen. exact Hnr.
Qed.

(** C9: a well-formed frame that declares index 5 of 3, absorbed into the
    empty sequence: three slots are allocated and the access to slot 5
    panics. *)
Theorem absorb_index_beyond_total_panics :
  AddChunkFromBytes NewEmpty (exact (bs [5; 3; 32; 0]))
  = (mkSeq 32 [None; None; None] 0, Panic (IndexOutOfRange 5 3)).
Proof. reflexivity. Qed.

(** C5, as the code has it: the header of a later frame is not compared
    with the frame size and the total the sequence has fixed.  A frame that
    conflicts with them and whose index lies within the allocated slots is
    treated as any other: stored, and counted, when its slot is empty, and
    ignored when the slot is filled; the fixed frame size and the number of
    slots stay as they are. *)
Theorem addChunk_conflicting (s : QRSequence) (c : QRChunk) :
  ChunkSize s <> ChunkSizeUnknown ->
  Size c <> ChunkSize s \/ Tot c <> Zlength' (chunks s) ->
  0 <= Nr c < Zlength' (chunks s) ->
  (chunks s !! Z.to_nat (Nr c) = Some None ->
   addChunk s c
   = (mkSeq (ChunkSize s) (<[Z.to_nat (Nr c) := Some c]> (chunks s))
            (nrReceived s + 1), Ret tt))
  /\ (forall c' : QRChunk,
        chunks s !! Z.to_nat (Nr c) = Some (Some c') ->
        addChunk s c = (s, Ret tt)).
Proof.
  intros Hk _ Hnr. split.
  - intros Hslot. rewrite addChunk_known by exact Hk.
    rewrite (slot_at_lookup _ _ None) by (first [lia | exact Hslot]).
    reflexivity.
  - intros c' Hslot. apply addChunk_duplicate with (c' := c');
      first [assumption | lia].
Qed.

Lemma addChunk_conflicting_witness :
  addChunk (mkSeq 32 [Some (mkChunk 0 2 32 [x01]); None] 1)
           (mkChunk 1 3 64 [x09])
  = (mkSeq 32 [Some (mkChunk 0 2 32 [x01]); Some (mkChunk 1 3 64 [x09])] 2,
     Ret tt).
Proof.
  apply (addChunk_conflicting
           (mkSeq 32 [Some (mkChunk 0 2 32 [x01]); None] 1)
           (mkChunk 1 3 64 [x09])).
  - discriminate.
  - left. discriminate.
  - vm_compute. split; [discriminate | reflexivity].
  - reflexivity.
Defined.

(** C5 fails as stated: after a first frame has fixed frame size 32 and
    total 2, a frame declaring frame size 64 and total 3 is parsed, stored
    in slot 1 and counted; the sequence becomes complete and [Data] returns
    the two payloads joined. *)
Lemma addChunk_conflicting_counterexample :
  let first := (AddChunkFromBytes NewEmpty (exact (bs [0; 2; 32; 0; 1]))).1 in
  let later := exact (bs [1; 3; 64; 0; 9]) in
  first = mkSeq 32 [Some (mkChunk 0 2 32 [x01]); None] 1
  /\ NewChunk later = Ret (Some (mkChunk 1 3 64 [x09]))
  /\ AddChunkFromBytes first later
     = (mkSeq 32 [Some (mkChunk 0 2 32 [x01]); Some (mkChunk 1 3 64 [x09])] 2,
        Ret tt)
  /\ Data (AddChunkFromBytes first later).1 = Ret (Some [x01; x09]).
Proof. repeat split; reflexivity. Qed.

Lemma absorb_idempotent_witness :
  let d := exact (bs [0; 2; 32; 0; 1]) in
  let once := (AddChunkFromBytes NewEmpty d).1 in
  AddChunkFromBytes once d = (once, Ret tt)
  /\ Progress (AddChunkFromBytes once d).1 = Progress once.
Proof.
  cbv zeta.
  destruct (absorb_idempotent NewEmpty (exact (bs [0; 2; 32; 0; 1])))
    as ((_ & _ & Hp & _) & Hret & _).
  split; [apply Hret; reflexivity | exact Hp].
Defined.

(** ** Progress *)

(** The quotients of all [n < d <= 255], by evaluation. *)
Lemma quotient_table_holds : forallb quotient_row (seq 1 255) = true.
Proof. vm_compute. reflexivity. Qed.

Lemma forallb_seq (f : nat -> bool) (start len : nat) :
  forallb f (seq start len) = true ->
  forall k : nat, (start <= k < start + len)%nat -> f k = true.
Proof.
  intros H k Hk. rewrite forallb_forall in H. apply H. apply in_seq. exact Hk.
Qed.

Lemma quotients_ok_at (d : Z) (k : nat) :
  forall next : float32,
    quotients_ok d k next = true ->
    forall n : nat, (n < k)%nat ->
      quotient_ok (quotient (Z.of_nat n) d) (Z.of_nat n) d
        (if (S n =? k)%nat then next else quotient (Z.of_nat (S n)) d) = true.
Proof.
  induction k as [|k IH]; intros next H n Hn; [lia|].
  cbn [quotients_ok] in H. cbv zeta in H.
  apply andb_true_iff in H as [Hk Hrest].
  destruct (Nat.eq_dec n k) as [-> | Hne].
  - rewrite Nat.eqb_refl. exact Hk.
  - replace (S n =? S k)%nat with false
      by (symmetry; apply Nat.eqb_neq; lia).
    specialize (IH _ Hrest n ltac:(lia)).
    destruct (Nat.eqb_spec (S n) k) as [<- | _]; exact IH.
Qed.

Lemma quotient_ok_all (n d : Z) :
  0 <= n < d -> d <= 255 ->
  quotient_ok (quotient n d) n d (progress_at (n + 1) d) = true.
Proof.
  intros Hn Hd.
  assert (Hd' : (1 <= Z.to_nat d < 1 + 255)%nat) by lia.
  pose proof (forallb_seq quotient_row 1 255 quotient_table_holds
                (Z.to_nat d) Hd') as H.
  unfold quotient_row in H.
  pose proof (quotients_ok_at _ _ _ H (Z.to_nat n) ltac:(lia)) as H'.
  rewrite !Z2Nat.id in H' by lia.
  replace (Z.of_nat (S (Z.to_nat n))) with (n + 1) in H' by lia.
  unfold progress_at.
  destruct (Z.eqb_spec (n + 1) d) as [E | E].
  - replace (S (Z.to_nat n) =? Z.to_nat d)%nat with true in H'
      by (symmetry; apply Nat.eqb_eq; lia).
    exact H'.
  - replace (S (Z.to_nat n) =? Z.to_nat d)%nat with false in H'
      by (symmetry; apply Nat.eqb_neq; lia).
    exact H'.
Qed.

Lemma quotient_ok_parts (q : float32) (n d : Z) (next : float32) :
  quotient_ok q n d next = true ->
  f32_leb f32_zero q = true
  /\ f32_ltb q f32_one = true
  /\ f32_eqb q f32_one = false
  /\ f32_nearest q n d = true
  /\ f32_leb q q = true
  /\ f32_leb q next = true.
Proof.
  unfold quotient_ok. rewrite !andb_true_iff, negb_true_iff. tauto.
Qed.

(** ** The invariant of reachable sequences *)

Lemma filled_bounds (l : list (option QRChunk)) :
  0 <= filled l <= Zlength' l.
Proof.
  induction l as [|[c|] l IH]; cbn [filled]; rewrite ?Zlength'_cons;
    [unfold Zlength'; cbn; lia | lia | lia].
Qed.

Lemma filled_replicate_None (n : nat) : filled (replicate n None) = 0.
Proof. induction n as [|n IH]; [reflexivity | exact IH]. Qed.

Lemma filled_fmap_Some (l : list QRChunk) : filled (Some <$> l) = Zlength' l.
Proof.
  induction l as [|c l IH]; [reflexivity|].
  cbn [fmap list_fmap filled]. rewrite Zlength'_cons. f_equal. exact IH.
Qed.

Lemma filled_insert (l : list (option QRChunk)) (c : QRChunk) :
  forall i : nat,
    l !! i = Some None -> filled (<[i := Some c]> l) = filled l + 1.
Proof.
  induction l as [|o l IH]; intros i Hi; [discriminate|].
  destruct i as [|i].
  - cbn in Hi. injection Hi as ->. cbn. lia.
  - cbn in Hi.
    change (<[S i := Some c]> (o :: l)) with (o :: <[i := Some c]> l).
    destruct o; cbn [filled]; rewrite (IH i Hi); lia.
Qed.

Lemma filled_empty_slot (l : list (option QRChunk)) :
  forall i : nat, l !! i = Some None -> filled l < Zlength' l.
Proof.
  induction l as [|o l IH]; intros i Hi; [discriminate|].
  rewrite Zlength'_cons. pose proof (filled_bounds l) as Hb.
  destruct i as [|i].
  - cbn in Hi. injection Hi as ->. cbn [filled]. lia.
  - cbn in Hi. specialize (IH i Hi). destruct o; cbn [filled]; lia.
Qed.

Lemma seq_inv_addChunk (s : QRSequence) (c : QRChunk) :
  seq_inv s -> 0 <= Tot c <= 255 ->
  seq_inv (addChunk s c).1 /\ advances s (addChunk s c).1.
Proof.
  intros Hinv Htot. unfold addChunk.
  set (s1 := if ChunkSize s =? ChunkSizeUnknown
             then mkSeq (Size c) (replicate (Z.to_nat (Tot c)) None) 0
             else s).
  assert (Hs1 : seq_inv s1
                /\ (ChunkSize s = ChunkSizeUnknown
                    \/ (ChunkSize s <> ChunkSizeUnknown /\ s1 = s))).
  { unfold s1. destruct (Z.eqb_spec (ChunkSize s) ChunkSizeUnknown) as [Hu | Hk].
    - split; [|left; exact Hu]. unfold seq_inv. cbn [nrReceived chunks].
      rewrite filled_replicate_None. split; [reflexivity|].
      right. unfold Zlength'. rewrite length_replicate. lia.
    - split; [exact Hinv | right; split; [exact Hk | reflexivity]]. }
  destruct Hs1 as [[Hcount Hsize] Hfrom].
  assert (Hadv1 : advances s s1).
  { destruct Hfrom as [Hu | [_ ->]]; [right; left; exact Hu | left; reflexivity]. }
  destruct (slot_at_cases (chunks s1) (Nr c))
    as [[E _] | [(E & Hi & Hl) | (c' & E & _)]]; rewrite E; cbn [fst].
  - split; [split; assumption | exact Hadv1].
  - pose proof (filled_empty_slot _ _ Hl) as Hlt.
    split.
    + unfold seq_inv. cbn [nrReceived chunks].
      rewrite (filled_insert _ _ _ Hl). split; [lia|].
      right. unfold Zlength' in *. rewrite length_insert. lia.
    + destruct Hfrom as [Hu | [Hk ->]]; [right; left; exact Hu|].
      right. right. cbn [ChunkSize chunks nrReceived].
      repeat split; try assumption; try reflexivity.
      unfold Zlength'. rewrite length_insert. reflexivity.
  - split; [split; assumption | exact Hadv1].
Qed.

Lemma advances_refl (s : QRSequence) : advances s s.
Proof. left. reflexivity. Qed.

Lemma seq_inv_AddChunkFromBytes (s : QRSequence) (d : bslice) :
  seq_inv s ->
  seq_inv (AddChunkFromBytes s d).1 /\ advances s (AddChunkFromBytes s d).1.
Proof.
  intros Hinv. unfold AddChunkFromBytes.
  destruct (IsComplete s); [split; [exact Hinv | apply advances_refl]|].
  destruct (NewChunk d) as [[c|]|p] eqn:Hd;
    try (split; [exact Hinv | apply advances_refl]).
  apply NewChunk_Some in Hd as [_ (_ & Ht & _)].
  apply seq_inv_addChunk; [exact Hinv|]. unfold is_uint8, Tot in *. lia.
Qed.

Lemma seq_inv_DecodeImage {image : Type} (scan : image -> option bslice)
    (s : QRSequence) (img : image) :
  seq_inv s ->
  seq_inv (DecodeImage scan s img).1 /\ advances s (DecodeImage scan s img).1.
Proof.
  intros Hinv. rewrite DecodeImage_state.
  destruct (scan img) as [d|];
    [apply seq_inv_AddChunkFromBytes; exact Hinv|].
  split; [exact Hinv | apply advances_refl].
Qed.

Lemma seq_inv_New (data : list byte) (chunkSize : Z) (s : QRSequence) :
  New data chunkSize = Ret s -> seq_inv s.
Proof.
  unfold New. destruct (CreateChunks data (uint16 chunkSize)) as [cl|p];
    [|discriminate].
  rewrite bind_Ret. intros H. injection H as <-.
  unfold seq_inv. cbn [nrReceived chunks]. rewrite filled_fmap_Some.
  split; [reflexivity|]. left. unfold Zlength'. rewrite length_fmap.
  reflexivity.
Qed.

Lemma reachable_inv (s : QRSequence) : reachable s -> seq_inv s.
Proof.
  induction 1 as [| data chunkSize s _ Hnew | s d _ IH | image scan s img _ IH].
  - split; [reflexivity | left; reflexivity].
  - exact (seq_inv_New _ _ _ Hnew).
  - apply seq_inv_AddChunkFromBytes. exact IH.
  - apply seq_inv_DecodeImage. exact IH.
Qed.

(** ** The values of [Progress] *)

Lemma f32_leb_trans (x y z : float32) :
  f32_leb x y = true -> f32_leb y z = true -> f32_leb x z = true.
Proof.
  unfold f32_leb, SFleb, SFcompare.
  destruct x as [sx|sx| |sx mx ex], y as [sy|sy| |sy my ey],
           z as [sz|sz| |sz mz ez];
    try destruct sx; try destruct sy; try destruct sz;
    try discriminate; try reflexivity;
    change (Pos.compare_cont Eq) with Pos.compare;
    try (destruct (Z.compare_spec ex ey); try discriminate);
    try (destruct (Z.compare_spec ey ez); try discriminate);
    try (destruct (Z.compare_spec ex ez); try lia; try reflexivity);
    try (destruct (Pos.compare_spec mx my); try discriminate);
    try (destruct (Pos.compare_spec my mz); try discriminate);
    try (destruct (Pos.compare_spec mx mz); try lia; try reflexivity);
    cbn; intros; try reflexivity; try discriminate; try lia.
Qed.

Lemma Progress_unknown (s : QRSequence) :
  ChunkSize s = ChunkSizeUnknown -> Progress s = f32_zero.
Proof. intros H. unfold Progress. rewrite H. reflexivity. Qed.

Lemma Progress_known (s : QRSequence) :
  ChunkSize s <> ChunkSizeUnknown ->
  Progress s = progress_at (nrReceived s) (Zlength' (chunks s)).
Proof.
  intros H. unfold Progress, progress_at, quotient.
  destruct (Z.eqb_spec (ChunkSize s) ChunkSizeUnknown); [contradiction|].
  reflexivity.
Qed.

Lemma Progress_complete (s : QRSequence) :
  IsComplete s = true -> Progress s = f32_one.
Proof.
  unfold IsComplete, Progress.
  destruct (ChunkSize s =? ChunkSizeUnknown); [discriminate|].
  intros ->. reflexivity.
Qed.

Lemma seq_inv_partial (s : QRSequence) :
  seq_inv s -> nrReceived s <> Zlength' (chunks s) ->
  0 <= nrReceived s < Zlength' (chunks s) /\ Zlength' (chunks s) <= 255.
Proof.
  intros [Hcount Hsize] Hne. pose proof (filled_bounds (chunks s)). lia.
Qed.

Lemma Progress_values (s : QRSequence) :
  seq_inv s ->
  Progress s = f32_zero \/ Progress s = f32_one
  \/ exists n d : Z, 0 <= n < d /\ d <= 255 /\ Progress s = quotient n d.
Proof.
  intros Hinv.
  destruct (Z.eq_dec (ChunkSize s) ChunkSizeUnknown) as [Hu | Hk].
  { left. apply Progress_unknown. exact Hu. }
  rewrite (Progress_known s Hk). unfold progress_at.
  destruct (Z.eqb_spec (nrReceived s) (Zlength' (chunks s))) as [He | Hne].
  - right. left. reflexivity.
  - right. right. destruct (seq_inv_partial s Hinv Hne) as [Hn Hd].
    exists (nrReceived s), (Zlength' (chunks s)). repeat split; lia.
Qed.

Lemma Progress_nonneg (s : QRSequence) :
  seq_inv s -> f32_leb f32_zero (Progress s) = true.
Proof.
  intros Hinv.
  destruct (Progress_values s Hinv) as [-> | [-> | (n & d & Hn & Hd & ->)]];
    [reflexivity | reflexivity |].
  apply (quotient_ok_parts _ _ _ _ (quotient_ok_all n d Hn Hd)).
Qed.

Lemma Progress_le_self (s : QRSequence) :
  seq_inv s -> f32_leb (Progress s) (Progress s) = true.
Proof.
  intros Hinv.
  destruct (Progress_values s Hinv) as [-> | [-> | (n & d & Hn & Hd & ->)]];
    [reflexivity | reflexivity |].
  apply (quotient_ok_parts _ _ _ _ (quotient_ok_all n d Hn Hd)).
Qed.

(** A step never lowers [Progress]. *)
Lemma Progress_advances (s s' : QRSequence) :
  seq_inv s -> seq_inv s' -> advances s s' ->
  f32_leb (Progress s) (Progress s') = true.
Proof.
  intros Hinv Hinv' [-> | [Hu | (Hk & Hcs & Hlen & Hnr)]].
  - apply Progress_le_self. exact Hinv.
  - rewrite (Progress_unknown s Hu). apply Progress_nonneg. exact Hinv'.
  - assert (Hk' : ChunkSize s' <> ChunkSizeUnknown) by congruence.
    rewrite (Progress_known s Hk), (Progress_known s' Hk'), Hlen, Hnr.
    destruct Hinv' as [Hcount' _].
    pose proof (filled_bounds (chunks s')) as Hb.
    assert (Hne : nrReceived s <> Zlength' (chunks s)) by lia.
    destruct (seq_inv_partial s Hinv Hne) as [Hn Hd].
    unfold progress_at at 1.
    destruct (Z.eqb_spec (nrReceived s) (Zlength' (chunks s)));
      [contradiction|].
    apply (quotient_ok_parts _ _ _ _ (quotient_ok_all _ _ Hn Hd)).
Qed.

(** No series of calls lowers [Progress]. *)
Lemma Progress_series (l : list bslice) :
  forall s : QRSequence,
    seq_inv s -> f32_leb (Progress s) (Progress (absorbAll s l)) = true.
Proof.
  induction l as [|d rest IH]; intros s Hinv.
  - apply Progress_le_self. exact Hinv.
  - cbn [absorbAll].
    destruct (seq_inv_AddChunkFromBytes s d Hinv) as [Hinv' Hadv].
    apply f32_leb_trans with (y := Progress (AddChunkFromBytes s d).1).
    + apply Progress_advances; assumption.
    + apply IH. exact Hinv'.
Qed.

(** C7: on every reachable sequence [Progress] is 0 while the frame size
    is unknown, 1 when the sequence is complete, and otherwise the binary32
    quotient of [nrReceived] by the number of slots, which is the binary32
    number nearest to their ratio; no call of [AddChunkFromBytes] or
    [DecodeImage], and no series of calls, lowers it; and it equals 1
    exactly when [IsComplete] holds. *)
Theorem Progress_spec (s : QRSequence) :
  reachable s ->
  (ChunkSize s = ChunkSizeUnknown -> Progress s = f32_zero)
  /\ (IsComplete s = true -> Progress s = f32_one)
  /\ (ChunkSize s <> ChunkSizeUnknown -> IsComplete s = false ->
      Progress s
      = f32_div (f32_of_Z (nrReceived s)) (f32_of_Z (Zlength' (chunks s)))
      /\ f32_nearest (Progress s) (nrReceived s) (Zlength' (chunks s)) = true)
  /\ (forall d : bslice,
        f32_leb (Progress s) (Progress (AddChunkFromBytes s d).1) = true)
  /\ (forall (image : Type) (scan : image -> option bslice) (img : image),
        f32_leb (Progress s) (Progress (DecodeImage scan s img).1) = true)
  /\ (forall l : list bslice,
        f32_leb (Progress s) (Progress (absorbAll s l)) = true)
  /\ (f32_eqb (Progress s) f32_one = true <-> IsComplete s = true).
Proof.
  intros Hreach. pose proof (reachable_inv s Hreach) as Hinv.
  split; [apply Progress_unknown|].
  split; [apply Progress_complete|].
  split.
  { intros Hk Hinc. unfold IsComplete in Hinc.
    destruct (Z.eqb_spec (ChunkSize s) ChunkSizeUnknown); [contradiction|].
    apply Z.eqb_neq in Hinc.
    destruct (seq_inv_partial s Hinv Hinc) as [Hn Hd].
    assert (E : Progress s
                = quotient (nrReceived s) (Zlength' (chunks s))).
    { rewrite (Progress_known s Hk). unfold progress_at.
      destruct (Z.eqb_spec (nrReceived s) (Zlength' (chunks s)));
        [contradiction | reflexivity]. }
    split; [exact E|]. rewrite E.
    apply (quotient_ok_parts _ _ _ _ (quotient_ok_all _ _ Hn Hd)). }
  split.
  { intros d. destruct (seq_inv_AddChunkFromBytes s d Hinv) as [Hinv' Hadv].
    apply Progress_advances; assumption. }
  split.
  { intros image scan img.
    destruct (seq_inv_DecodeImage scan s img Hinv) as [Hinv' Hadv].
    apply Progress_advances; assumption. }
  split; [intros l; apply Progress_series; exact Hinv|].
  unfold IsComplete.
  destruct (Z.eqb_spec (ChunkSize s) ChunkSizeUnknown) as [Hu | Hk].
  { rewrite (Progress_unknown s Hu). split; discriminate. }
  rewrite (Progress_known s Hk). unfold progress_at.
  destruct (Z.eqb_spec (nrReceived s) (Zlength' (chunks s))) as [He | Hne].
  - split; reflexivity.
  - destruct (seq_inv_partial s Hinv Hne) as [Hn Hd].
    destruct (quotient_ok_parts _ _ _ _ (quotient_ok_all _ _ Hn Hd))
      as (_ & _ & Hneq & _).
    rewrite Hneq. split; discriminate.
Qed.

Lemma Progress_spec_witness :
  Progress (AddChunkFromBytes NewEmpty (exact (bs [0; 2; 32; 0; 1]))).1
  = f32_div (f32_of_Z 1) (f32_of_Z 2)
  /\ f32_leb (Progress NewEmpty)
             (Progress (AddChunkFromBytes NewEmpty
                          (exact (bs [0; 2; 32; 0; 1]))).1) = true.
Proof.
  split.
  - apply (Progress_spec
             (AddChunkFromBytes NewEmpty (exact (bs [0; 2; 32; 0; 1]))).1
             (reach_add _ _ reach_empty));
      [discriminate | reflexivity].
  - apply (Progress_spec NewEmpty reach_empty).
Defined.

(** ** A worked scenario *)

(** 200 bytes at frame size 64 split into four frames with payloads of 60,
    60, 60 and 20 bytes; absorbed as wire bytes in the order 3, 1, 0, 2 the
    progress goes through 0.25, 0.5, 0.75 and 1, the sequence is complete
    after the fourth frame, and [Data] returns the 200 bytes. *)
Example boundary_scenario :
  let D := replicate 50 x61 ++ replicate 70 x62 ++ replicate 80 x63 in
  exists f0 f1 f2 f3 : QRChunk,
    CreateChunks D 64 = Ret [f0; f1; f2; f3]
    /\ (fun c => Zlength' (internal.data c)) <$> [f0; f1; f2; f3]
       = [60; 60; 60; 20]
    /\ let s1 := (AddChunkFromBytes NewEmpty (wireBytes f3)).1 in
       let s2 := (AddChunkFromBytes s1 (wireBytes f1)).1 in
       let s3 := (AddChunkFromBytes s2 (wireBytes f0)).1 in
       let s4 := (AddChunkFromBytes s3 (wireBytes f2)).1 in
       Progress <$> [s1; s2; s3; s4]
       = [S754_finite false 8388608 (-25); S754_finite false 8388608 (-24);
          S754_finite false 12582912 (-24); S754_finite false 8388608 (-23)]
       /\ IsComplete <$> [s1; s2; s3; s4] = [false; false; false; true]
       /\ Data s4 = Ret (Some D).
Proof.
  cbv zeta. do 4 eexists.
  split; [vm_compute; reflexivity|].
  split; vm_compute; repeat split; reflexivity.
Qed.

(** * Further properties of the code *)

(** ** The chunker at every chunk size *)

Lemma chunkPayload_piece (data : list byte) (ds i : Z) :
  0 < ds -> 0 <= i -> i * ds <= Zlength' data ->
  chunkPayload data ds i = Ret (piece data ds i).
Proof. apply chunkPayload_ok. Qed.

Lemma createLoop_pieces (data : list byte) (chunkSize ds tot : Z) (n : nat) :
  forall (i : Z) (acc : list QRChunk),
    0 < ds -> 0 <= i ->
    (n = 0%nat \/ (i + Z.of_nat n - 1) * ds <= Zlength' data) ->
    createLoop data chunkSize ds tot n i acc =
    Ret (acc ++ ((fun k : nat =>
                    mkChunk (uint8 (i + Z.of_nat k)) (uint8 tot) chunkSize
                            (piece data ds (i + Z.of_nat k)))
                   <$> seq 0 n)).
Proof.
  induction n as [|n IH]; intros i acc Hds Hi Hfit.
  - simpl. rewrite app_nil_r. reflexivity.
  - destruct Hfit as [Hfit | Hfit]; [discriminate|].
    cbn [createLoop].
    rewrite chunkPayload_piece, bind_Ret by nia.
    rewrite IH by (try lia; right; nia).
    rewrite <- app_assoc. do 2 f_equal.
    cbn [seq fmap list_fmap app]. f_equal.
    + rewrite Z.add_0_r. reflexivity.
    + rewrite <- seq_shift, <- list_fmap_compose.
      apply list_fmap_ext. intros _ k _. cbn.
      replace (i + 1 + Z.of_nat k) with (i + Z.pos (Pos.of_succ_nat k)) by lia.
      reflexivity.
Qed.

Lemma ceilDiv_framesNeeded (len cap : Z) :
  framesNeeded len (cap + 4) = ceilDiv len cap.
Proof.
  unfold framesNeeded, ceilDiv. replace (cap + 4 - 4) with cap by lia.
  reflexivity.
Qed.

Lemma ceilDiv_fit (len cap : Z) :
  0 <= len -> 0 < cap ->
  0 <= ceilDiv len cap
  /\ (ceilDiv len cap - 1) * cap <= len
  /\ len <= ceilDiv len cap * cap.
Proof.
  intros Hlen Hcap. rewrite <- ceilDiv_framesNeeded.
  pose proof (framesNeeded_fit len (cap + 4) Hlen ltac:(lia)) as H.
  replace (cap + 4 - 4) with cap in H by lia. exact H.
Qed.

Lemma pieces_concat (data : list byte) (cap : Z) (f : nat -> list byte -> QRChunk) (n : nat) :
  0 < cap ->
  (forall k l, internal.data (f k l) = l) ->
  concat (internal.data <$>
            ((fun k : nat => f k (piece data cap (Z.of_nat k))) <$> seq 0 n))
  = take (n * Z.to_nat cap) data.
Proof.
  intros Hcap Hf. induction n as [|n IH].
  - reflexivity.
  - rewrite seq_S, !fmap_app, concat_app, IH. cbn.
    rewrite app_nil_r, Hf. unfold piece.
    replace (Z.to_nat (Z.of_nat n * cap)) with (n * Z.to_nat cap)%nat by nia.
    rewrite take_take_drop. f_equal. lia.
Qed.

(** What [CreateChunks] returns at any chunk size but 4. *)
Lemma CreateChunks_pieces (data : list byte) (chunkSize : Z) :
  payloadCap chunkSize <> 0 ->
  CreateChunks data chunkSize =
  Ret ((fun k : nat =>
          mkChunk (uint8 (Z.of_nat k))
                  (uint8 (ceilDiv (Zlength' data) (payloadCap chunkSize)))
                  chunkSize
                  (piece data (payloadCap chunkSize) (Z.of_nat k)))
         <$> seq 0 (Z.to_nat (ceilDiv (Zlength' data) (payloadCap chunkSize)))).
Proof.
  intros Hcap. unfold CreateChunks. cbv zeta. fold (payloadCap chunkSize).
  assert (Hpos : 0 < payloadCap chunkSize).
  { unfold payloadCap, uint16 in *.
    pose proof (Z.mod_pos_bound (chunkSize - 4) 65536 ltac:(lia)). lia. }
  pose proof (Zlength'_nonneg data) as Hlen.
  destruct (Z.eqb_spec (payloadCap chunkSize) 0) as [H0 | _]; [contradiction|].
  pose proof (tot_framesNeeded (Zlength' data) (payloadCap chunkSize + 4)
                Hlen ltac:(lia)) as Htot.
  replace (payloadCap chunkSize + 4 - 4) with (payloadCap chunkSize) in Htot
    by lia.
  rewrite Htot, ceilDiv_framesNeeded.
  destruct (ceilDiv_fit (Zlength' data) (payloadCap chunkSize) Hlen Hpos)
    as (Hn & Hfit & _).
  rewrite createLoop_pieces; [reflexivity | lia | lia |].
  right. rewrite Z2Nat.id by lia. lia.
Qed.

Lemma payloadCap_zero (chunkSize : Z) :
  is_uint16 chunkSize -> (payloadCap chunkSize = 0 <-> chunkSize = 4).
Proof.
  unfold is_uint16, payloadCap, uint16. intros Hr. split.
  - intros H0. destruct (Z_lt_dec chunkSize 4) as [Hlt | Hge].
    + replace (chunkSize - 4) with (chunkSize + 65532 + (-1) * 65536) in H0
        by lia.
      rewrite Z.mod_add, Z.mod_small in H0 by lia. lia.
    + rewrite Z.mod_small in H0 by lia. lia.
  - intros ->. reflexivity.
Qed.

(** X1: [CreateChunks] panics, with a division by zero, exactly when the
    chunk size is 4.  At every other chunk size it returns
    [ceil(len / cap)] frames of that chunk size, where [cap] is
    [chunkSize - 4] computed in [uint16], and their payloads in order make
    up the data. *)
Theorem CreateChunks_any_size (data : list byte) (chunkSize : Z) :
  is_uint16 chunkSize ->
  (chunkSize = 4 -> CreateChunks data chunkSize = Panic DivideByZero)
  /\ (chunkSize <> 4 ->
      exists split : list QRChunk,
        CreateChunks data chunkSize = Ret split
        /\ Zlength' split = ceilDiv (Zlength' data) (payloadCap chunkSize)
        /\ Forall (fun c => Size c = chunkSize) split
        /\ concat (internal.data <$> split) = data).
Proof.
  intros Hr. split.
  - intros ->. reflexivity.
  - intros Hne.
    assert (Hcap : payloadCap chunkSize <> 0)
      by (rewrite payloadCap_zero by exact Hr; exact Hne).
    assert (Hpos : 0 < payloadCap chunkSize).
    { unfold payloadCap, uint16 in *.
      pose proof (Z.mod_pos_bound (chunkSize - 4) 65536 ltac:(lia)). lia. }
    destruct (ceilDiv_fit (Zlength' data) (payloadCap chunkSize)
                (Zlength'_nonneg data) Hpos) as (Hn & _ & Hcover).
    eexists. split; [apply CreateChunks_pieces; exact Hcap|].
    split; [unfold Zlength' in *; rewrite length_fmap, length_seq; lia|].
    split.
    + apply Forall_fmap, Forall_forall. intros k _. reflexivity.
    + rewrite (pieces_concat data (payloadCap chunkSize)
                 (fun k l => mkChunk (uint8 (Z.of_nat k)) _ chunkSize l))
        by (first [exact Hpos | reflexivity]).
      apply take_ge. unfold Zlength' in *. nia.
Qed.

Lemma CreateChunks_any_size_witness :
  CreateChunks (bs [1; 2; 3]) 4 = Panic DivideByZero
  /\ exists split : list QRChunk,
       CreateChunks (bs [1; 2; 3]) 2 = Ret split
       /\ Zlength' split = ceilDiv (Zlength' (bs [1; 2; 3])) (payloadCap 2)
       /\ Forall (fun c => Size c = 2) split
       /\ concat (internal.data <$> split) = bs [1; 2; 3].
Proof.
  split.
  - apply (CreateChunks_any_size (bs [1; 2; 3]) 4); [vm_compute|]; easy.
  - apply (CreateChunks_any_size (bs [1; 2; 3]) 2); [vm_compute|]; easy.
Defined.

(** ** The frames of a split *)

Lemma framesNeeded_strict (len frameSize : Z) :
  0 < len -> 4 < frameSize ->
  (framesNeeded len frameSize - 1) * (frameSize - 4) < len.
Proof.
  intros Hlen Hfs. unfold framesNeeded.
  set (ds := frameSize - 4). assert (Hds : 0 < ds) by (unfold ds; lia).
  pose proof (Z.div_mod (len + ds - 1) ds ltac:(lia)) as Hdm.
  pose proof (Z.mod_pos_bound (len + ds - 1) ds Hds) as Hr.
  generalize dependent ((len + ds - 1) mod ds).
  generalize dependent ((len + ds - 1) / ds).
  intros q r Hdm Hr. nia.
Qed.

Lemma frames_lookup_inv (data : list byte) (fs total : Z) (i : Z) (c : QRChunk) :
  0 <= total -> 0 <= i ->
  frames data fs total !! Z.to_nat i = Some c ->
  i < total /\ c = frame data fs total i.
Proof.
  intros Ht Hi Hc.
  pose proof (lookup_lt_Some _ _ _ Hc) as Hlt.
  pose proof (frames_length data fs total Ht) as Hlen.
  unfold Zlength' in Hlen.
  assert (Hi' : i < total) by lia.
  split; [exact Hi'|].
  rewrite frames_lookup in Hc by lia. congruence.
Qed.

Lemma frame_payload_length (data : list byte) (fs total i : Z) :
  4 < fs -> 0 <= i ->
  Zlength' (internal.data (frame data fs total i))
  = Z.max 0 (Z.min (fs - 4) (Zlength' data - i * (fs - 4))).
Proof.
  intros Hfs Hi. unfold frame, Zlength'. cbn [internal.data].
  rewrite length_take, length_drop. nia.
Qed.

(** X2: of the frames [CreateChunks] returns at a valid chunk size, every
    frame but the last carries exactly [chunkSize - 4] payload bytes, and
    the last carries the rest of the data, at least one byte and at most
    [chunkSize - 4]. *)
Theorem CreateChunks_payload_lengths (data : list byte) (chunkSize : Z) :
  isValidChunkSize chunkSize = true ->
  exists split : list QRChunk,
    CreateChunks data chunkSize = Ret split
    /\ forall (i : Z) (c : QRChunk),
         0 <= i -> split !! Z.to_nat i = Some c ->
         (i < Zlength' split - 1 ->
          Zlength' (internal.data c) = chunkSize - 4)
         /\ (i = Zlength' split - 1 ->
             Zlength' (internal.data c)
             = Zlength' data - (Zlength' split - 1) * (chunkSize - 4)
             /\ 0 < Zlength' (internal.data c) <= chunkSize - 4).
Proof.
  intros Hv. pose proof (valid_size_bounds _ Hv) as Hb.
  pose proof (Zlength'_nonneg data) as Hlen.
  destruct (framesNeeded_fit (Zlength' data) chunkSize) as (Hn & Hfit & Hcover);
    [lia | lia |].
  eexists. split; [apply CreateChunks_frames; exact Hv|].
  rewrite frames_length by exact Hn.
  intros i c Hi Hc.
  apply frames_lookup_inv in Hc as [Hlt ->]; [|lia|lia].
  rewrite frame_payload_length by lia.
  assert (Hpos : 0 < Zlength' data).
  { destruct (Z.eq_dec (Zlength' data) 0) as [E | E]; [|lia].
    rewrite E in Hlt. unfold framesNeeded in Hlt.
    rewrite Z.div_small in Hlt by lia. lia. }
  pose proof (framesNeeded_strict (Zlength' data) chunkSize Hpos ltac:(lia))
    as Hstrict.
  split; intros Hcase; nia.
Qed.

Lemma CreateChunks_payload_lengths_witness :
  exists split : list QRChunk,
    CreateChunks (bs [1; 2; 3]) 32 = Ret split
    /\ forall (i : Z) (c : QRChunk),
         0 <= i -> split !! Z.to_nat i = Some c ->
         (i < Zlength' split - 1 -> Zlength' (internal.data c) = 32 - 4)
         /\ (i = Zlength' split - 1 ->
             Zlength' (internal.data c)
             = Zlength' (bs [1; 2; 3]) - (Zlength' split - 1) * (32 - 4)
             /\ 0 < Zlength' (internal.data c) <= 32 - 4).
Proof. apply (CreateChunks_payload_lengths (bs [1; 2; 3]) 32). reflexivity. Defined.

Lemma frame_in_range (data : list byte) (fs total i : Z) :
  isValidChunkSize fs = true -> chunk_in_range (frame data fs total i).
Proof.
  intros Hv. apply valid_size_bounds in Hv.
  unfold chunk_in_range, frame, is_uint8, is_uint16. cbn [nr tot cs].
  pose proof (Z.mod_pos_bound i 256 ltac:(lia)).
  pose proof (Z.mod_pos_bound total 256 ltac:(lia)). lia.
Qed.

Lemma frame_parses (data : list byte) (fs total i : Z) :
  isValidChunkSize fs = true -> 0 <= i ->
  NewChunk (wireBytes (frame data fs total i))
  = Ret (Some (frame data fs total i)).
Proof.
  intros Hv Hi. apply NewChunk_wireBytes_parse.
  - apply frame_in_range. exact Hv.
  - exact Hv.
  - pose proof (valid_size_bounds _ Hv).
    rewrite frame_payload_length by lia. cbn [cs frame]. lia.
Qed.

(** X3: when the data needs at most 255 frames at a valid chunk size, the
    frames [CreateChunks] returns are numbered: frame [i] declares index
    [i], the number of frames as its total and the chunk size, and its wire
    bytes parse back to it with [NewChunk]. *)
Theorem CreateChunks_headers (data : list byte) (chunkSize : Z) :
  isValidChunkSize chunkSize = true ->
  framesNeeded (Zlength' data) chunkSize <= 255 ->
  exists split : list QRChunk,
    CreateChunks data chunkSize = Ret split
    /\ forall (i : Z) (c : QRChunk),
         0 <= i -> split !! Z.to_nat i = Some c ->
         Nr c = i /\ Tot c = Zlength' split /\ Size c = chunkSize
         /\ NewChunk (wireBytes c) = Ret (Some c).
Proof.
  intros Hv Hmax. pose proof (valid_size_bounds _ Hv) as Hb.
  destruct (framesNeeded_fit (Zlength' data) chunkSize) as (Hn & _ & _);
    [apply Zlength'_nonneg | lia |].
  eexists. split; [apply CreateChunks_frames; exact Hv|].
  rewrite frames_length by exact Hn.
  intros i c Hi Hc.
  apply frames_lookup_inv in Hc as [Hlt ->]; [|lia|lia].
  unfold Nr, Tot, Size. cbn [nr tot cs frame].
  rewrite !Z.mod_small by lia.
  repeat split; try reflexivity.
  apply frame_parses; assumption.
Qed.

Lemma CreateChunks_headers_witness :
  exists split : list QRChunk,
    CreateChunks (bs [1; 2; 3]) 32 = Ret split
    /\ forall (i : Z) (c : QRChunk),
         0 <= i -> split !! Z.to_nat i = Some c ->
         Nr c = i /\ Tot c = Zlength' split /\ Size c = 32
         /\ NewChunk (wireBytes c) = Ret (Some c).
Proof.
  apply (CreateChunks_headers (bs [1; 2; 3]) 32);
    [reflexivity | vm_compute; discriminate].
Defined.

(** ** Header decoding on four bytes and more *)

Lemma NewChunk_parsed (d : bslice) :
  4 <= slen d ->
  NewChunk d =
  if isValidChunkSize (sizeField (elems d))
  then Ret (Some (parsed (elems d)))
  else Ret None.
Proof.
  intros Hlen. destruct d as [el sp]. unfold slen in Hlen. cbn [elems] in *.
  destruct el as [|b0 [|b1 [|lo [|hi rest]]]];
    try (unfold Zlength' in Hlen; cbn in Hlen; lia).
  unfold NewChunk.
  rewrite (at_index_lookup _ 0 b0), bind_Ret by (first [lia | reflexivity]).
  rewrite (at_index_lookup _ 1 b1), bind_Ret by (first [lia | reflexivity]).
  assert (Hcap : scap (mkSlice (b0 :: b1 :: lo :: hi :: rest) sp)
                 = 4 + Zlength' rest + Zlength' sp).
  { unfold scap. cbn [elems spare]. rewrite !Zlength'_cons. lia. }
  assert (Hslen : slen (mkSlice (b0 :: b1 :: lo :: hi :: rest) sp)
                  = 4 + Zlength' rest).
  { unfold slen. cbn [elems]. rewrite !Zlength'_cons. lia. }
  pose proof (Zlength'_nonneg rest) as Hrest.
  pose proof (Zlength'_nonneg sp) as Hsp.
  rewrite reslice_ok, bind_Ret by lia.
  cbn [elems spare].
  change (take (Z.to_nat (4 - 2))
               (drop (Z.to_nat 2) ((b0 :: b1 :: lo :: hi :: rest) ++ sp)))
    with [lo; hi].
  set (z := Z.lor (byte_to_Z lo) (Z.shiftl (byte_to_Z hi) 8)).
  assert (Hsf : sizeField (b0 :: b1 :: lo :: hi :: rest) = z) by reflexivity.
  unfold parsed. rewrite Hsf.
  change (readUint16LE [lo; hi]) with (Some z). cbv iota beta.
  change (default x00 ((b0 :: b1 :: lo :: hi :: rest) !! 0%nat)) with b0.
  change (default x00 ((b0 :: b1 :: lo :: hi :: rest) !! 1%nat)) with b1.
  destruct (isValidChunkSize z) eqn:Hv; [|reflexivity].
  cbn [negb]. cbv iota.
  pose proof (valid_size_bounds _ Hv) as Hz.
  change (drop 4 (b0 :: b1 :: lo :: hi :: rest)) with rest.
  rewrite Hslen.
  destruct (Z.gtb_spec (4 + Zlength' rest) z) as [Hgt | Hle].
  - rewrite reslice_ok, bind_Ret by lia. cbn [elems spare].
    change (drop (Z.to_nat 4) ((b0 :: b1 :: lo :: hi :: rest) ++ sp))
      with (rest ++ sp).
    rewrite take_app_le by (unfold Zlength' in *; lia). reflexivity.
  - unfold reslice_from. rewrite Hslen, reslice_ok, bind_Ret by lia.
    cbn [elems spare].
    change (drop (Z.to_nat 4) ((b0 :: b1 :: lo :: hi :: rest) ++ sp))
      with (rest ++ sp).
    replace (Z.to_nat (4 + Zlength' rest - 4)) with (length rest)
      by (unfold Zlength'; lia).
    rewrite take_app_length.
    rewrite take_ge by (unfold Zlength' in *; lia). reflexivity.
Qed.

(** X4: on a slice of at least four bytes [NewChunk] never panics.  It
    returns nil exactly when bytes 2 and 3, read as a little-endian
    [uint16], are not one of the six chunk sizes; otherwise it returns the
    frame whose index and total are bytes 0 and 1, whose size is that
    number, and whose payload is what follows the header up to the frame
    size.  Neither the bytes beyond the frame size nor the capacity of the
    slice matter. *)
Theorem NewChunk_spec (d : bslice) :
  4 <= slen d ->
  (isValidChunkSize (sizeField (elems d)) = false -> NewChunk d = Ret None)
  /\ (isValidChunkSize (sizeField (elems d)) = true ->
      NewChunk d = Ret (Some (parsed (elems d)))
      /\ NewChunk d
         = NewChunk (exact (take (Z.to_nat (sizeField (elems d))) (elems d)))).
Proof.
  intros Hlen. rewrite (NewChunk_parsed d Hlen). split.
  - intros ->. reflexivity.
  - intros Hv. rewrite Hv. split; [reflexivity|].
    pose proof (valid_size_bounds _ Hv) as Hz.
    set (z := sizeField (elems d)) in *.
    assert (Hsame : sizeField (take (Z.to_nat z) (elems d)) = z
                    /\ parsed (take (Z.to_nat z) (elems d)) = parsed (elems d)).
    { unfold z, slen, Zlength' in *.
      destruct (elems d) as [|b0 [|b1 [|lo [|hi rest]]]];
        try (cbn in Hlen; lia).
      destruct (Z.to_nat (sizeField (b0 :: b1 :: lo :: hi :: rest)))
        as [|[|[|[|k]]]] eqn:Ek; try lia.
      cbn [take]. split; [reflexivity|].
      unfold parsed.
      change (sizeField (b0 :: b1 :: lo :: hi :: take k rest))
        with (sizeField (b0 :: b1 :: lo :: hi :: rest)).
      change (drop 4 (b0 :: b1 :: lo :: hi :: take k rest)) with (take k rest).
      change (drop 4 (b0 :: b1 :: lo :: hi :: rest)) with rest.
      f_equal. rewrite take_take. f_equal. lia. }
    destruct Hsame as [Hsz Hpar].
    rewrite NewChunk_parsed.
    + cbn [elems exact]. rewrite Hsz, Hv, Hpar. reflexivity.
    + unfold slen, exact, Zlength' in *. cbn [elems].
      rewrite length_take. lia.
Qed.

Lemma NewChunk_spec_witness :
  NewChunk (mkSlice (bs [7; 9; 32; 0; 1; 2] ++ replicate 30 x2a) (bs [5]))
  = Ret (Some (mkChunk 7 9 32 (bs [1; 2] ++ replicate 26 x2a)))
  /\ NewChunk (exact (bs [7; 9; 100; 0; 1; 2])) = Ret None.
Proof.
  split.
  - refine (proj1 (proj2 (NewChunk_spec
             (mkSlice (bs [7; 9; 32; 0; 1; 2] ++ replicate 30 x2a) (bs [5]))
             _) _));
      [vm_compute; discriminate | reflexivity].
  - refine (proj1 (NewChunk_spec (exact (bs [7; 9; 100; 0; 1; 2])) _) _);
      [vm_compute; discriminate | reflexivity].
Defined.

(** X5: a frame returned by [NewChunk] tells that the input had at least
    four bytes; its size is one of the six chunk sizes, its index and total
    fit in a byte, and its payload has [min(len, size) - 4] bytes, never
    more than [size - 4]. *)
Theorem NewChunk_returns (d : bslice) (c : QRChunk) :
  NewChunk d = Ret (Some c) ->
  4 <= slen d
  /\ c = parsed (elems d)
  /\ isValidChunkSize (Size c) = true
  /\ is_uint8 (Nr c) /\ is_uint8 (Tot c)
  /\ Zlength' (internal.Data c) = Z.min (slen d) (Size c) - 4.
Proof.
  intros Hd. pose proof (NewChunk_Some d c Hd) as [Hv (Hnr & Htot & _)].
  assert (Hlen : 4 <= slen d).
  { destruct (Z_le_dec 4 (slen d)) as [H | H]; [exact H | exfalso].
    unfold NewChunk in Hd.
    destruct (at_index d 0) as [b0|] eqn:E0; [|discriminate].
    destruct (at_index d 1) as [b1|] eqn:E1; [|discriminate].
    destruct (reslice d 2 4) as [buf|] eqn:E2; [|discriminate].
    rewrite !bind_Ret in Hd.
    destruct (readUint16LE buf) as [z|] eqn:Ez; [|discriminate].
    destruct (isValidChunkSize z) eqn:Hz; [|discriminate].
    cbn [negb] in Hd. pose proof (valid_size_bounds _ Hz).
    rewrite Zgtb_le in Hd by lia.
    unfold reslice_from in Hd. rewrite reslice_beyond in Hd by lia.
    discriminate. }
  rewrite (NewChunk_parsed d Hlen) in Hd.
  destruct (isValidChunkSize (sizeField (elems d))) eqn:Hz; [|discriminate].
  injection Hd as <-.
  pose proof (valid_size_bounds _ Hz) as Hb.
  split; [exact Hlen|]. split; [reflexivity|]. split; [exact Hv|].
  split; [exact Hnr|]. split; [exact Htot|].
  unfold internal.Data, Size, parsed, slen, Zlength' in *. cbn [data cs].
  rewrite length_take, length_drop. lia.
Qed.

Lemma NewChunk_returns_witness :
  4 <= slen (exact (bs [0; 1; 32; 0; 5]))
  /\ mkChunk 0 1 32 (bs [5]) = parsed (elems (exact (bs [0; 1; 32; 0; 5])))
  /\ isValidChunkSize (Size (mkChunk 0 1 32 (bs [5]))) = true
  /\ is_uint8 (Nr (mkChunk 0 1 32 (bs [5])))
  /\ is_uint8 (Tot (mkChunk 0 1 32 (bs [5])))
  /\ Zlength' (internal.Data (mkChunk 0 1 32 (bs [5])))
     = Z.min (slen (exact (bs [0; 1; 32; 0; 5])))
             (Size (mkChunk 0 1 32 (bs [5]))) - 4.
Proof.
  apply (NewChunk_returns (exact (bs [0; 1; 32; 0; 5]))
                          (mkChunk 0 1 32 (bs [5]))).
  reflexivity.
Defined.

(** ** Input that does not decode *)

(** X6: input that does not decode to a frame is never absorbed.  Bytes
    whose size field is not a chunk size leave the sequence as it is:
    [AddChunkFromBytes] returns silently, [DecodeImage] reports an invalid
    chunk; an image the scanner cannot read leaves it as it is and reports
    the scanner's error.  On a complete sequence [DecodeImage] reports
    nothing, whatever the image. *)
Theorem undecodable_not_absorbed (s : QRSequence) (d : bslice) :
  4 <= slen d ->
  isValidChunkSize (sizeField (elems d)) = false ->
  AddChunkFromBytes s d = (s, Ret tt)
  /\ forall (image : Type) (scan : image -> option bslice) (img : image),
       (scan img = Some d ->
        DecodeImage scan s img
        = (s, Ret (if IsComplete s then None else Some InvalidChunk)))
       /\ (scan img = None ->
           DecodeImage scan s img
           = (s, Ret (if IsComplete s then None else Some CarrierError))).
Proof.
  intros Hlen Hinv.
  assert (Hnil : NewChunk d = Ret None)
    by (rewrite (NewChunk_parsed d Hlen), Hinv; reflexivity).
  split.
  - unfold AddChunkFromBytes. rewrite Hnil.
    destruct (IsComplete s); reflexivity.
  - intros image scan img. split; intros Hscan;
      unfold DecodeImage, NewChunkFromImage; rewrite Hscan, ?Hnil;
      destruct (IsComplete s); reflexivity.
Qed.

Lemma undecodable_not_absorbed_witness :
  AddChunkFromBytes NewEmpty (exact (bs [0; 1; 100; 0; 9])) = (NewEmpty, Ret tt)
  /\ DecodeImage (fun _ : unit => Some (exact (bs [0; 1; 100; 0; 9])))
                 NewEmpty tt
     = (NewEmpty, Ret (Some InvalidChunk)).
Proof.
  destruct (undecodable_not_absorbed NewEmpty (exact (bs [0; 1; 100; 0; 9])))
    as [Hadd Himg]; [vm_compute; discriminate | reflexivity |].
  split; [exact Hadd|].
  apply (Himg unit (fun _ => Some (exact (bs [0; 1; 100; 0; 9]))) tt).
  reflexivity.
Defined.

(** ** What a sequence keeps *)

(** X7: in every reachable sequence [nrReceived] is the number of filled
    slots, so it lies between 0 and the number of slots; and a sequence
    with a known chunk size that is not complete has at most 255 slots. *)
Theorem nrReceived_counts_filled (s : QRSequence) :
  reachable s ->
  nrReceived s = filled (chunks s)
  /\ 0 <= nrReceived s <= Zlength' (chunks s)
  /\ (ChunkSize s <> ChunkSizeUnknown -> IsComplete s = false ->
      nrReceived s < Zlength' (chunks s) <= 255).
Proof.
  intros Hreach. pose proof (reachable_inv s Hreach) as Hinv.
  pose proof Hinv as [Hcount Hsize].
  pose proof (filled_bounds (chunks s)) as Hb.
  split; [exact Hcount|]. split; [lia|].
  intros Hk Hinc. unfold IsComplete in Hinc.
  destruct (Z.eqb_spec (ChunkSize s) ChunkSizeUnknown); [contradiction|].
  apply Z.eqb_neq in Hinc.
  destruct (seq_inv_partial s Hinv Hinc). lia.
Qed.

Lemma nrReceived_counts_filled_witness :
  let s := (AddChunkFromBytes NewEmpty (exact (bs [1; 3; 32; 0; 9]))).1 in
  nrReceived s = filled (chunks s)
  /\ 0 <= nrReceived s <= Zlength' (chunks s)
  /\ (ChunkSize s <> ChunkSizeUnknown -> IsComplete s = false ->
      nrReceived s < Zlength' (chunks s) <= 255).
Proof.
  apply (nrReceived_counts_filled
           (AddChunkFromBytes NewEmpty (exact (bs [1; 3; 32; 0; 9]))).1).
  apply reach_add, reach_empty.
Defined.

Lemma filled_all (l : list (option QRChunk)) :
  filled l = Zlength' l -> exists cl : list QRChunk, l = Some <$> cl.
Proof.
  induction l as [|[c|] l IH]; intros H.
  - exists []. reflexivity.
  - cbn [filled] in H. rewrite Zlength'_cons in H.
    destruct IH as [cl ->]; [lia|]. exists (c :: cl). reflexivity.
  - cbn [filled] in H. rewrite Zlength'_cons in H.
    pose proof (filled_bounds l). lia.
Qed.

(** X8: [Data] never panics on a reachable sequence.  It returns nil when
    the sequence is not complete; when it is complete every slot is filled
    and [Data] returns the payloads of the slots joined in index order, as
    a non-nil slice as soon as there is a slot. *)
Theorem Data_reachable (s : QRSequence) :
  reachable s ->
  (IsComplete s = false -> Data s = Ret None)
  /\ (IsComplete s = true ->
      exists cl : list QRChunk,
        chunks s = Some <$> cl
        /\ Data s = Ret (if decide (cl = []) then None
                         else Some (concat (internal.data <$> cl)))).
Proof.
  intros Hreach. pose proof (reachable_inv s Hreach) as [Hcount _].
  split.
  - intros Hinc. unfold Data. rewrite Hinc. reflexivity.
  - intros Hdone. unfold Data. rewrite Hdone. cbn [negb].
    unfold IsComplete in Hdone.
    destruct (ChunkSize s =? ChunkSizeUnknown); [discriminate|].
    apply Z.eqb_eq in Hdone.
    destruct (filled_all (chunks s)) as [cl Hcl]; [lia|].
    exists cl. split; [exact Hcl|]. rewrite Hcl.
    destruct cl as [|c cl]; [reflexivity|].
    rewrite GetData_filled. reflexivity.
Qed.

Lemma Data_reachable_witness :
  let s := (AddChunkFromBytes NewEmpty (exact (bs [0; 1; 32; 0; 9]))).1 in
  (IsComplete s = false -> Data s = Ret None)
  /\ (IsComplete s = true ->
      exists cl : list QRChunk,
        chunks s = Some <$> cl
        /\ Data s = Ret (if decide (cl = []) then None
                         else Some (concat (internal.data <$> cl)))).
Proof.
  apply (Data_reachable
           (AddChunkFromBytes NewEmpty (exact (bs [0; 1; 32; 0; 9]))).1).
  apply reach_add, reach_empty.
Defined.

Lemma addChunk_keeps (s : QRSequence) (c : QRChunk) :
  ChunkSize s <> ChunkSizeUnknown ->
  ChunkSize (addChunk s c).1 = ChunkSize s
  /\ Zlength' (chunks (addChunk s c).1) = Zlength' (chunks s)
  /\ (forall (i : nat) (c' : QRChunk),
        chunks s !! i = Some (Some c') ->
        chunks (addChunk s c).1 !! i = Some (Some c'))
  /\ nrReceived s <= nrReceived (addChunk s c).1 <= nrReceived s + 1.
Proof.
  intros Hk. rewrite addChunk_known by exact Hk.
  assert (Hsame : ChunkSize s = ChunkSize s
                  /\ Zlength' (chunks s) = Zlength' (chunks s)
                  /\ (forall (i : nat) (c' : QRChunk),
                        chunks s !! i = Some (Some c') ->
                        chunks s !! i = Some (Some c'))
                  /\ nrReceived s <= nrReceived s <= nrReceived s + 1)
    by (repeat split; first [reflexivity | lia | trivial]).
  destruct (slot_at_cases (chunks s) (Nr c))
    as [[E _] | [(E & Hi & Hl) | (c0 & E & _)]]; rewrite E; cbn [fst].
  - exact Hsame.
  - cbn [ChunkSize chunks nrReceived].
    split; [reflexivity|].
    split; [unfold Zlength'; rewrite length_insert; reflexivity|].
    split; [|lia].
    intros i c' Hi'. rewrite list_lookup_insert_ne; [exact Hi'|].
    intros <-. congruence.
  - exact Hsame.
Qed.

(** X9: once the chunk size of a sequence is known, no call of
    [AddChunkFromBytes] or [DecodeImage] changes it or the number of slots,
    a filled slot keeps its frame, and [nrReceived] stays or grows by
    one. *)
Theorem known_sequence_keeps (s : QRSequence) (d : bslice) :
  ChunkSize s <> ChunkSizeUnknown ->
  (let s' := (AddChunkFromBytes s d).1 in
   ChunkSize s' = ChunkSize s
   /\ Zlength' (chunks s') = Zlength' (chunks s)
   /\ (forall (i : nat) (c : QRChunk),
         chunks s !! i = Some (Some c) -> chunks s' !! i = Some (Some c))
   /\ nrReceived s <= nrReceived s' <= nrReceived s + 1)
  /\ forall (image : Type) (scan : image -> option bslice) (img : image),
       let s' := (DecodeImage scan s img).1 in
       ChunkSize s' = ChunkSize s
       /\ Zlength' (chunks s') = Zlength' (chunks s)
       /\ (forall (i : nat) (c : QRChunk),
             chunks s !! i = Some (Some c) -> chunks s' !! i = Some (Some c))
       /\ nrReceived s <= nrReceived s' <= nrReceived s + 1.
Proof.
  intros Hk.
  assert (Hsame : ChunkSize s = ChunkSize s
                  /\ Zlength' (chunks s) = Zlength' (chunks s)
                  /\ (forall (i : nat) (c : QRChunk),
                        chunks s !! i = Some (Some c) ->
                        chunks s !! i = Some (Some c))
                  /\ nrReceived s <= nrReceived s <= nrReceived s + 1)
    by (repeat split; first [reflexivity | lia | trivial]).
  assert (Hbytes : forall d0 : bslice,
            let s' := (AddChunkFromBytes s d0).1 in
            ChunkSize s' = ChunkSize s
            /\ Zlength' (chunks s') = Zlength' (chunks s)
            /\ (forall (i : nat) (c : QRChunk),
                  chunks s !! i = Some (Some c) ->
                  chunks s' !! i = Some (Some c))
            /\ nrReceived s <= nrReceived s' <= nrReceived s + 1).
  { intros d0. cbv zeta. unfold AddChunkFromBytes.
    destruct (IsComplete s); [cbn [fst]; exact Hsame|].
    destruct (NewChunk d0) as [[c|]|p];
      [apply addChunk_keeps; exact Hk | |]; cbn [fst]; exact Hsame. }
  split; [apply Hbytes|].
  intros image scan img. cbv zeta. rewrite DecodeImage_state.
  destruct (scan img) as [d0|]; [apply Hbytes | exact Hsame].
Qed.

Lemma known_sequence_keeps_witness :
  let s := mkSeq 32 [Some (mkChunk 0 2 32 [x01]); None] 1 in
  let s' := (AddChunkFromBytes s (exact (bs [0; 2; 32; 0; 7]))).1 in
  ChunkSize s' = ChunkSize s
  /\ Zlength' (chunks s') = Zlength' (chunks s)
  /\ (forall (i : nat) (c : QRChunk),
        chunks s !! i = Some (Some c) -> chunks s' !! i = Some (Some c))
  /\ nrReceived s <= nrReceived s' <= nrReceived s + 1.
Proof.
  apply (known_sequence_keeps
           (mkSeq 32 [Some (mkChunk 0 2 32 [x01]); None] 1)
           (exact (bs [0; 2; 32; 0; 7]))).
  discriminate.
Defined.

(** ** Pre-filled sequences at every length *)

(** X10: at a valid chunk size [New] never panics, whatever the length of
    the data: the sequence it returns has one slot per frame, all filled,
    is complete with [Progress] 1, and [Data] returns the bytes it was made
    from (also when they need more than 255 frames). *)
Theorem New_prefilled (D : list byte) (chunkSize : Z) :
  isValidChunkSize chunkSize = true ->
  exists (s : QRSequence) (out : option (list byte)),
    New D chunkSize = Ret s
    /\ ChunkSize s = chunkSize
    /\ Zlength' (chunks s) = framesNeeded (Zlength' D) chunkSize
    /\ nrReceived s = Zlength' (chunks s)
    /\ IsComplete s = true
    /\ Progress s = f32_one
    /\ Data s = Ret out
    /\ buffer out = D
    /\ (D <> [] -> out = Some D).
Proof.
  intros Hv. pose proof (valid_size_bounds _ Hv) as Hb.
  set (n := framesNeeded (Zlength' D) chunkSize).
  destruct (framesNeeded_fit (Zlength' D) chunkSize) as (Hn & _ & Hcover);
    [apply Zlength'_nonneg | lia |]. fold n in Hn, Hcover.
  pose proof (frames_length D chunkSize n Hn) as Hlen.
  assert (Hnew : New D chunkSize
                 = Ret (mkSeq chunkSize (Some <$> frames D chunkSize n)
                              (Zlength' (frames D chunkSize n)))).
  { unfold New, uint16. rewrite Z.mod_small by lia.
    rewrite (CreateChunks_frames D chunkSize Hv). reflexivity. }
  assert (Hslots : Zlength' (Some <$> frames D chunkSize n) = n)
    by (unfold Zlength' in *; rewrite length_fmap; exact Hlen).
  assert (Hdone : IsComplete (mkSeq chunkSize (Some <$> frames D chunkSize n)
                                    (Zlength' (frames D chunkSize n))) = true).
  { unfold IsComplete, ChunkSizeUnknown. cbn [ChunkSize nrReceived chunks].
    destruct (Z.eqb_spec chunkSize 0); [lia|]. apply Z.eqb_eq. lia. }
  pose proof (frames_concat D chunkSize ltac:(lia)) as Hcat. fold n in Hcat.
  destruct (Z.eq_dec n 0) as [H0 | Hpos].
  - assert (HD : D = []).
    { destruct D; [reflexivity|]. rewrite Zlength'_cons in Hcover.
      pose proof (Zlength'_nonneg D). nia. }
    exists (mkSeq chunkSize (Some <$> frames D chunkSize n)
                  (Zlength' (frames D chunkSize n))), None.
    split; [exact Hnew|]. split; [reflexivity|].
    split; [exact Hslots|]. split; [cbn; lia|]. split; [exact Hdone|].
    split; [apply Progress_complete; exact Hdone|].
    split; [unfold Data; rewrite Hdone, H0; reflexivity|].
    split; [symmetry; exact HD | congruence].
  - destruct (frames_cons_inv D chunkSize n) as [rest Hrest]; [lia|].
    exists (mkSeq chunkSize (Some <$> frames D chunkSize n)
                  (Zlength' (frames D chunkSize n))), (Some D).
    split; [exact Hnew|]. split; [reflexivity|].
    split; [exact Hslots|]. split; [cbn; lia|]. split; [exact Hdone|].
    split; [apply Progress_complete; exact Hdone|].
    split; [|split; reflexivity].
    unfold Data. rewrite Hdone. cbn [negb chunks].
    rewrite <- Hcat at 2. rewrite Hrest. apply GetData_filled.
Qed.

Lemma New_prefilled_witness :
  exists (s : QRSequence) (out : option (list byte)),
    New (bs [1; 2; 3]) 32 = Ret s
    /\ ChunkSize s = 32
    /\ Zlength' (chunks s) = framesNeeded (Zlength' (bs [1; 2; 3])) 32
    /\ nrReceived s = Zlength' (chunks s)
    /\ IsComplete s = true
    /\ Progress s = f32_one
    /\ Data s = Ret out
    /\ buffer out = bs [1; 2; 3]
    /\ (bs [1; 2; 3] <> [] -> out = Some (bs [1; 2; 3])).
Proof. apply (New_prefilled (bs [1; 2; 3]) 32). reflexivity. Defined.

(** X11: [New] with the chunk size left unknown does not panic but gives a
    sequence that looks empty: it holds the data in frames of 65532 payload
    bytes, yet [IsComplete] is false, [Progress] is 0 and [Data] returns
    nil.  [New] with chunk size 4 panics with a division by zero. *)
Theorem New_degenerate_sizes (D : list byte) :
  (exists s : QRSequence,
     New D ChunkSizeUnknown = Ret s
     /\ Zlength' (chunks s) = ceilDiv (Zlength' D) 65532
     /\ nrReceived s = Zlength' (chunks s)
     /\ concat (internal.data <$> omap id (chunks s)) = D
     /\ IsComplete s = false
     /\ Progress s = f32_zero
     /\ Data s = Ret None)
  /\ New D 4 = Panic DivideByZero.
Proof.
  split; [|reflexivity].
  assert (Hcap : payloadCap 0 = 65532) by reflexivity.
  pose proof (CreateChunks_pieces D 0 ltac:(rewrite Hcap; lia)) as Hsplit.
  rewrite Hcap in Hsplit.
  destruct (ceilDiv_fit (Zlength' D) 65532 (Zlength'_nonneg D) ltac:(lia))
    as (Hn & _ & Hcover).
  eexists. split.
  { unfold New, ChunkSizeUnknown.
    change (uint16 0) with 0. rewrite Hsplit. reflexivity. }
  cbn [chunks nrReceived ChunkSize].
  split; [unfold Zlength' in *; rewrite !length_fmap, length_seq; lia|].
  split; [unfold Zlength'; rewrite !length_fmap; reflexivity|].
  split; [|repeat split; reflexivity].
  assert (Hom : forall l : list QRChunk, omap id (Some <$> l) = l).
  { induction l as [|c l IH]; [reflexivity|]. cbn. f_equal. exact IH. }
  rewrite Hom.
  rewrite (pieces_concat D 65532
             (fun k l => mkChunk (uint8 (Z.of_nat k)) _ 0 l))
    by (first [lia | reflexivity]).
  apply take_ge. unfold Zlength' in *. nia.
Qed.

(** ** The range of [Progress] *)

Lemma f32_ltb_leb (x y : float32) : f32_ltb x y = true -> f32_leb x y = true.
Proof.
  unfold f32_ltb, f32_leb, SFltb, SFleb.
  destruct (SFcompare x y) as [[| |]|]; congruence.
Qed.

(** X12: on every reachable sequence [Progress] is a number between 0
    and 1. *)
Theorem Progress_range (s : QRSequence) :
  reachable s ->
  f32_leb f32_zero (Progress s) = true /\ f32_leb (Progress s) f32_one = true.
Proof.
  intros Hreach. pose proof (reachable_inv s Hreach) as Hinv.
  split; [apply Progress_nonneg; exact Hinv|].
  destruct (Progress_values s Hinv) as [-> | [-> | (n & d & Hn & Hd & ->)]];
    [reflexivity | reflexivity |].
  apply f32_ltb_leb.
  apply (quotient_ok_parts _ _ _ _ (quotient_ok_all n d Hn Hd)).
Qed.

Lemma Progress_range_witness :
  let s := (AddChunkFromBytes NewEmpty (exact (bs [1; 3; 32; 0; 9]))).1 in
  f32_leb f32_zero (Progress s) = true /\ f32_leb (Progress s) f32_one = true.
Proof.
  apply (Progress_range
           (AddChunkFromBytes NewEmpty (exact (bs [1; 3; 32; 0; 9]))).1).
  apply reach_add, reach_empty.
Defined.

(** ** The capacity hint of [GetData] *)

(** X13: for the frames of a split with at most 255 frames,
    [estimatedDataSize] of any of them is [(chunkSize - 4) * total]: at
    least the length of the data, and less than one payload above it, so
    the buffer [GetData] allocates never has to grow. *)
Theorem estimatedDataSize_covers (D : list byte) (chunkSize : Z) :
  isValidChunkSize chunkSize = true ->
  framesNeeded (Zlength' D) chunkSize <= 255 ->
  exists split : list QRChunk,
    CreateChunks D chunkSize = Ret split
    /\ Forall (fun c =>
                 estimatedDataSize c = (chunkSize - 4) * Zlength' split
                 /\ Zlength' D <= estimatedDataSize c
                                < Zlength' D + (chunkSize - 4))
              split.
Proof.
  intros Hv Hmax. pose proof (valid_size_bounds _ Hv) as Hb.
  pose proof (Zlength'_nonneg D) as HD.
  destruct (framesNeeded_fit (Zlength' D) chunkSize) as (Hn & _ & Hcover);
    [lia | lia |].
  eexists. split; [apply CreateChunks_frames; exact Hv|].
  rewrite frames_length by exact Hn.
  apply Forall_forall. intros c Hc.
  apply list_elem_of_lookup in Hc as [k Hk].
  rewrite <- (Nat2Z.id k) in Hk.
  apply frames_lookup_inv in Hk as [Hlt ->]; [|lia|lia].
  unfold estimatedDataSize, frame, uint16. cbn [cs tot].
  rewrite (Z.mod_small (chunkSize - 4)) by lia.
  rewrite (Z.mod_small (framesNeeded _ _) 256) by lia.
  rewrite Z.mod_small by nia.
  split; [reflexivity|].
  assert (Hpos : 0 < Zlength' D).
  { destruct (Z.eq_dec (Zlength' D) 0) as [E | E]; [|lia].
    rewrite E in Hlt. unfold framesNeeded in Hlt.
    rewrite Z.div_small in Hlt by lia. lia. }
  pose proof (framesNeeded_strict (Zlength' D) chunkSize Hpos ltac:(lia)).
  nia.
Qed.

Lemma estimatedDataSize_covers_witness :
  exists split : list QRChunk,
    CreateChunks (bs [1; 2; 3]) 32 = Ret split
    /\ Forall (fun c =>
                 estimatedDataSize c = (32 - 4) * Zlength' split
                 /\ Zlength' (bs [1; 2; 3]) <= estimatedDataSize c
                                < Zlength' (bs [1; 2; 3]) + (32 - 4))
              split.
Proof.
  apply (estimatedDataSize_covers (bs [1; 2; 3]) 32);
    [reflexivity | vm_compute; discriminate].
Defined.

(** ** Frames in any order, with repetitions *)

Lemma filled_insert_same (l : list (option QRChunk)) (i : nat) (c : QRChunk) :
  l !! i = Some (Some c) -> <[i := Some c]> l = l.
Proof. apply list_insert_id. Qed.

Lemma assembling_same (s : QRSequence) (fs : Z) :
  ChunkSize s = fs -> nrReceived s = filled (chunks s) ->
  mkSeq fs (chunks s) (filled (chunks s)) = s.
Proof. destruct s as [a b c]. cbn. intros -> ->. reflexivity. Qed.

(** One frame of the split absorbed by a sequence that is assembling it:
    the frame is in its slot afterwards, and nothing else changed. *)
Lemma assembling_step (D : list byte) (fs n j : Z) (s : QRSequence) :
  isValidChunkSize fs = true -> n <= 255 -> 0 <= j < n ->
  assembling D fs n s ->
  AddChunkFromBytes s (wireBytes (frame D fs n j))
  = (mkSeq fs (<[Z.to_nat j := Some (frame D fs n j)]> (chunks s))
           (filled (<[Z.to_nat j := Some (frame D fs n j)]> (chunks s))),
     Ret tt).
Proof.
  intros Hv Hmax Hj (Hcs & Hlen & Hcount & Hslots).
  pose proof (valid_size_bounds _ Hv) as Hb.
  assert (Hk : ChunkSize s <> ChunkSizeUnknown)
    by (rewrite Hcs; unfold ChunkSizeUnknown; lia).
  assert (Hnr : Nr (frame D fs n j) = j).
  { unfold Nr, frame. cbn [nr]. apply Z.mod_small. lia. }
  assert (Hfilled : forall c0 : QRChunk,
            chunks s !! Z.to_nat j = Some (Some c0) ->
            mkSeq fs (<[Z.to_nat j := Some (frame D fs n j)]> (chunks s))
                  (filled (<[Z.to_nat j := Some (frame D fs n j)]> (chunks s)))
            = s).
  { intros c0 Hc0. pose proof (Hslots _ _ Hc0) as ->.
    rewrite Z2Nat.id in Hc0 by lia.
    rewrite (list_insert_id _ _ _ Hc0).
    apply assembling_same; assumption. }
  unfold AddChunkFromBytes.
  destruct (IsComplete s) eqn:Hdone.
  - (* complete: every slot is filled *)
    unfold IsComplete in Hdone.
    destruct (ChunkSize s =? ChunkSizeUnknown); [discriminate|].
    apply Z.eqb_eq in Hdone.
    destruct (filled_all (chunks s)) as [cl Hcl]; [lia|].
    assert (Hlt : (Z.to_nat j < length (chunks s))%nat)
      by (unfold Zlength' in Hlen; lia).
    destruct (lookup_lt_is_Some_2 _ _ Hlt) as [o Ho].
    assert (Hsome : exists c0, o = Some c0).
    { rewrite Hcl, list_lookup_fmap in Ho.
      destruct (cl !! Z.to_nat j) as [c0|]; [|discriminate].
      injection Ho as <-. eexists. reflexivity. }
    destruct Hsome as [c0 ->]. rewrite (Hfilled c0 Ho). reflexivity.
  - rewrite (frame_parses D fs n j Hv) by lia.
    rewrite addChunk_known by exact Hk. rewrite Hnr.
    destruct (slot_at_cases (chunks s) j)
      as [[E Hout] | [(E & Hi & Hl) | (c0 & E & Hi & Hl)]]; rewrite E.
    + lia.
    + rewrite (filled_insert _ _ _ Hl), Hcs, Hcount. reflexivity.
    + rewrite (Hfilled c0 Hl). reflexivity.
Qed.

Lemma assembling_insert (D : list byte) (fs n j : Z) (s : QRSequence) :
  0 <= j < n -> assembling D fs n s ->
  assembling D fs n
    (mkSeq fs (<[Z.to_nat j := Some (frame D fs n j)]> (chunks s))
           (filled (<[Z.to_nat j := Some (frame D fs n j)]> (chunks s)))).
Proof.
  intros Hj (Hcs & Hlen & Hcount & Hslots).
  unfold assembling. cbn [ChunkSize chunks nrReceived].
  split; [reflexivity|].
  split; [unfold Zlength' in *; rewrite length_insert; exact Hlen|].
  split; [reflexivity|].
  intros i c Hi.
  destruct (Nat.eq_dec (Z.to_nat j) i) as [<- | Hne].
  - rewrite list_lookup_insert_eq in Hi by (unfold Zlength' in Hlen; lia).
    injection Hi as <-. rewrite Z2Nat.id by lia. reflexivity.
  - rewrite list_lookup_insert_ne in Hi by exact Hne.
    apply Hslots. exact Hi.
Qed.

Lemma AddAllFromBytes_assembling (D : list byte) (fs n : Z) (l : list Z) :
  isValidChunkSize fs = true -> n <= 255 ->
  Forall (fun j => 0 <= j < n) l ->
  forall s : QRSequence,
    assembling D fs n s ->
    AddAllFromBytes s ((fun j => wireBytes (frame D fs n j)) <$> l)
    = (mkSeq fs (placed D fs n (chunks s) l)
             (filled (placed D fs n (chunks s) l)), Ret tt)
    /\ assembling D fs n
         (mkSeq fs (placed D fs n (chunks s) l)
                (filled (placed D fs n (chunks s) l))).
Proof.
  intros Hv Hmax Hl. induction Hl as [|j l Hj _ IH]; intros s Hs.
  - cbn. pose proof Hs as (Hcs & _ & Hcount & _).
    rewrite (assembling_same s fs Hcs Hcount). split; [reflexivity | exact Hs].
  - cbn [fmap list_fmap AddAllFromBytes].
    rewrite (assembling_step D fs n j s Hv Hmax Hj Hs).
    pose proof (assembling_insert D fs n j s Hj Hs) as Hs'.
    destruct (IH _ Hs') as [Hrun Hinv]. cbn [chunks] in Hrun, Hinv.
    split; [exact Hrun | exact Hinv].
Qed.

Lemma placed_lookup (D : list byte) (fs n : Z) (l : list Z) :
  Forall (fun j => 0 <= j < n) l ->
  forall (sl : list (option QRChunk)) (i : Z),
    Zlength' sl = n -> 0 <= i < n ->
    placed D fs n sl l !! Z.to_nat i
    = if bool_decide (i ∈ l) then Some (Some (frame D fs n i))
      else sl !! Z.to_nat i.
Proof.
  intros Hl. induction Hl as [|j l Hj _ IH]; intros sl i Hlen Hi.
  - cbn. rewrite bool_decide_eq_false_2 by apply not_elem_of_nil. reflexivity.
  - unfold placed. cbn [foldl]. fold (placed D fs n).
    change (foldl _ ?a l) with (placed D fs n a l).
    rewrite IH by (first [unfold Zlength' in *; rewrite length_insert; lia
                         | lia]).
    destruct (decide (i ∈ l)) as [Hin | Hnin].
    + rewrite !bool_decide_eq_true_2; [reflexivity | | exact Hin].
      apply elem_of_cons. right. exact Hin.
    + rewrite (bool_decide_eq_false_2 (i ∈ l)) by exact Hnin.
      destruct (Z.eq_dec i j) as [-> | Hne].
      * rewrite bool_decide_eq_true_2 by (apply elem_of_cons; left; reflexivity).
        apply list_lookup_insert_eq. unfold Zlength' in Hlen. lia.
      * rewrite bool_decide_eq_false_2
          by (rewrite elem_of_cons; intros [? | ?]; contradiction).
        apply list_lookup_insert_ne. lia.
Qed.

Lemma placed_length (D : list byte) (fs n : Z) (l : list Z) :
  forall sl : list (option QRChunk),
    length (placed D fs n sl l) = length sl.
Proof.
  induction l as [|j l IH]; intros sl; [reflexivity|].
  unfold placed. cbn [foldl].
  change (foldl _ ?a l) with (placed D fs n a l).
  rewrite IH, length_insert. reflexivity.
Qed.

Lemma assembling_start (D : list byte) (fs n : Z) :
  0 <= n ->
  assembling D fs n (mkSeq fs (replicate (Z.to_nat n) None) 0).
Proof.
  intros Hn. unfold assembling. cbn [ChunkSize chunks nrReceived].
  split; [reflexivity|].
  split; [unfold Zlength'; rewrite length_replicate; lia|].
  split; [rewrite filled_replicate_None; reflexivity|].
  intros i c Hi. apply lookup_replicate_1 in Hi as [Hi _]. discriminate.
Qed.

Lemma AddAllFromBytes_first (D : list byte) (fs n j : Z) (ws : list bslice) :
  isValidChunkSize fs = true -> 0 < n <= 255 -> 0 <= j < n ->
  AddAllFromBytes NewEmpty (wireBytes (frame D fs n j) :: ws)
  = AddAllFromBytes (mkSeq fs (replicate (Z.to_nat n) None) 0)
                    (wireBytes (frame D fs n j) :: ws).
Proof.
  intros Hv Hn Hj. pose proof (valid_size_bounds _ Hv) as Hb.
  cbn [AddAllFromBytes]. f_equal.
  unfold AddChunkFromBytes.
  change (IsComplete NewEmpty) with false.
  replace (IsComplete (mkSeq fs (replicate (Z.to_nat n) None) 0)) with false.
  - rewrite (frame_parses D fs n j Hv) by lia.
    rewrite addChunk_unknown
      by (first [reflexivity | unfold Size, frame, ChunkSizeUnknown; cbn; lia]).
    unfold Size, Tot, frame. cbn [cs tot].
    rewrite Z.mod_small by lia. reflexivity.
  - unfold IsComplete, ChunkSizeUnknown. cbn [ChunkSize nrReceived chunks].
    destruct (Z.eqb_spec fs 0); [reflexivity|].
    symmetry. apply Z.eqb_neq. unfold Zlength'.
    rewrite length_replicate. lia.
Qed.

(** The frames of a split absorbed as wire bytes, in any order. *)
Lemma absorb_frames (D : list byte) (fs : Z) (l : list Z) :
  isValidChunkSize fs = true ->
  framesNeeded (Zlength' D) fs <= 255 ->
  l <> [] ->
  Forall (fun j => 0 <= j < framesNeeded (Zlength' D) fs) l ->
  let n := framesNeeded (Zlength' D) fs in
  CreateChunks D fs = Ret (frames D fs n)
  /\ exists s : QRSequence,
       AddAllFromBytes NewEmpty ((fun j => wireBytes (frame D fs n j)) <$> l)
       = (s, Ret tt)
       /\ ChunkSize s = fs
       /\ Zlength' (chunks s) = n
       /\ (forall i : Z,
             0 <= i < n ->
             chunks s !! Z.to_nat i
             = Some (if bool_decide (i ∈ l) then Some (frame D fs n i)
                     else None))
       /\ nrReceived s = filled (chunks s)
       /\ ((forall i : Z, 0 <= i < n -> i ∈ l) ->
           IsComplete s = true /\ Data s = Ret (Some D)).
Proof.
  intros Hv Hmax Hne Hl. cbv zeta.
  set (n := framesNeeded (Zlength' D) fs) in *.
  pose proof (valid_size_bounds _ Hv) as Hb.
  split; [apply CreateChunks_frames; exact Hv|].
  destruct l as [|j rest]; [contradiction|].
  pose proof (Forall_inv Hl) as Hj. cbv beta in Hj.
  assert (Hn : 0 < n <= 255) by lia.
  pose proof (assembling_start D fs n ltac:(lia)) as Hstart.
  destruct (AddAllFromBytes_assembling D fs n (j :: rest) Hv Hmax Hl _ Hstart)
    as [Hrun (Hcs & Hlen & Hcount & Hslots)].
  cbn [chunks] in *.
  set (sl := placed D fs n (replicate (Z.to_nat n) None) (j :: rest)) in *.
  exists (mkSeq fs sl (filled sl)).
  split.
  { cbn [fmap list_fmap]. rewrite AddAllFromBytes_first by assumption.
    exact Hrun. }
  split; [reflexivity|]. split; [exact Hlen|].
  assert (Hlook : forall i : Z,
            0 <= i < n ->
            sl !! Z.to_nat i
            = Some (if bool_decide (i ∈ j :: rest)
                    then Some (frame D fs n i) else None)).
  { intros i Hi. unfold sl. rewrite placed_lookup;
      [| exact Hl | unfold Zlength'; rewrite length_replicate; lia | exact Hi].
    destruct (bool_decide (i ∈ j :: rest)); [reflexivity|].
    apply lookup_replicate_2. lia. }
  split; [exact Hlook|]. split; [reflexivity|].
  intros Hall.
  assert (Hfull : sl = Some <$> frames D fs n).
  { apply list_eq. intros k.
    destruct (Nat.lt_ge_cases k (Z.to_nat n)) as [Hk | Hk].
    - rewrite <- (Nat2Z.id k).
      rewrite Hlook by lia.
      rewrite bool_decide_eq_true_2 by (apply Hall; lia).
      rewrite list_lookup_fmap, frames_lookup by lia. reflexivity.
    - rewrite !lookup_ge_None_2; [reflexivity | |].
      + rewrite length_fmap.
        pose proof (frames_length D fs n ltac:(lia)) as Hfl.
        unfold Zlength' in Hfl. lia.
      + unfold sl. rewrite placed_length, length_replicate. lia. }
  assert (Hdone : IsComplete (mkSeq fs sl (filled sl)) = true).
  { unfold IsComplete, ChunkSizeUnknown. cbn [ChunkSize nrReceived chunks].
    destruct (Z.eqb_spec fs 0); [lia|]. apply Z.eqb_eq.
    rewrite Hfull at 1. rewrite filled_fmap_Some.
    rewrite frames_length by lia. symmetry. exact Hlen. }
  split; [exact Hdone|].
  unfold Data. rewrite Hdone. cbn [negb chunks]. rewrite Hfull.
  destruct (frames_cons_inv D fs n) as [more Hmore]; [lia|].
  pose proof (frames_concat D fs ltac:(lia)) as Hcat. fold n in Hcat.
  rewrite <- Hcat at 2. rewrite Hmore. apply GetData_filled.
Qed.

(** X14: the frames of a split with at most 255 frames, absorbed as wire
    bytes into an empty sequence in any order and with any repetitions:
    no call panics, the sequence takes the chunk size and the number of
    slots of the split, slot [i] holds frame [i] exactly when frame [i] was
    among the input, and [nrReceived] counts those slots.  As soon as every
    frame occurred, the sequence is complete and [Data] returns the data
    that was split. *)
Theorem absorb_any_order (D : list byte) (fs : Z) (l : list Z) :
  isValidChunkSize fs = true ->
  framesNeeded (Zlength' D) fs <= 255 ->
  l <> [] ->
  Forall (fun j => 0 <= j < framesNeeded (Zlength' D) fs) l ->
  let n := framesNeeded (Zlength' D) fs in
  CreateChunks D fs = Ret (frames D fs n)
  /\ exists s : QRSequence,
       AddAllFromBytes NewEmpty ((fun j => wireBytes (frame D fs n j)) <$> l)
       = (s, Ret tt)
       /\ ChunkSize s = fs
       /\ Zlength' (chunks s) = n
       /\ (forall i : Z,
             0 <= i < n ->
             chunks s !! Z.to_nat i
             = Some (if bool_decide (i ∈ l) then Some (frame D fs n i)
                     else None))
       /\ nrReceived s = filled (chunks s)
       /\ ((forall i : Z, 0 <= i < n -> i ∈ l) ->
           IsComplete s = true /\ Data s = Ret (Some D)).
Proof. apply absorb_frames. Qed.

Lemma absorb_any_order_witness :
  let D := replicate 60 x2a in
  exists s : QRSequence,
    AddAllFromBytes NewEmpty
      ((fun j => wireBytes (frame D 32 3 j)) <$> [2; 0; 2; 1; 0])
    = (s, Ret tt)
    /\ IsComplete s = true /\ Data s = Ret (Some D).
Proof.
  cbv zeta.
  destruct (absorb_any_order (replicate 60 x2a) 32 [2; 0; 2; 1; 0])
    as [_ (s & Hrun & _ & _ & _ & _ & Hall)].
  - reflexivity.
  - vm_compute. discriminate.
  - discriminate.
  - repeat constructor; vm_compute; first [discriminate | reflexivity].
  - exists s. split; [exact Hrun|]. apply Hall.
    change (framesNeeded (Zlength' (replicate 60 x2a)) 32) with 3.
    intros i Hi.
    rewrite !elem_of_cons. lia.
Defined.

(** ** Drawing *)

Lemma wrapInt_small (z : Z) : - 2 ^ 63 <= z < 2 ^ 63 -> wrapInt z = z.
Proof.
  intros Hz. unfold wrapInt. rewrite Z.mod_small by lia. lia.
Qed.

Lemma side_bound (side : Z) :
  0 <= side -> side * side <= maxAlloc -> side <= 2 ^ 24.
Proof.
  unfold maxAlloc. intros H0 H.
  destruct (Z.le_gt_cases side (2 ^ 24)) as [Hle | Hgt]; [exact Hle|].
  assert (2 ^ 24 * 2 ^ 24 < side * side) by nia.
  change (2 ^ 24 * 2 ^ 24) with (2 ^ 48) in *. lia.
Qed.

Lemma offset_inj (side x y x' y' : Z) :
  0 <= x < side -> 0 <= x' < side -> 0 <= y -> 0 <= y' ->
  Z.to_nat (y * side + x) = Z.to_nat (y' * side + x') ->
  x = x' /\ y = y'.
Proof.
  intros Hx Hx' Hy Hy' H. apply Z2Nat.inj in H; [|nia|nia].
  destruct (Z.lt_trichotomy y y') as [Hlt | [-> | Hgt]]; [nia | lia | nia].
Qed.

(** In a square image the offset of a pixel is computed without
    wrap-around. *)
Lemma PixOffset_square (side : Z) (p : Paletted) (x y : Z) :
  square side p -> 0 <= x < side -> 0 <= y < side ->
  PixOffset p x y = y * side + x.
Proof.
  intros (Hb & Hs & _ & Hmax) Hx Hy.
  pose proof (side_bound side ltac:(lia) Hmax) as Hside.
  assert (0 <= y * side + x < 2 ^ 48) by (unfold maxAlloc in Hmax; nia).
  assert (0 <= y * side < 2 ^ 48) by nia.
  unfold PixOffset. rewrite Hb, Hs. cbn [MinX MinY].
  unfold addInt, subInt, mulInt.
  rewrite !Z.sub_0_r, (wrapInt_small y), (wrapInt_small x), Z.mul_1_r by lia.
  rewrite (wrapInt_small x) by lia.
  rewrite (wrapInt_small (y * side)) by lia.
  apply wrapInt_small. lia.
Qed.

Lemma setPix_square (side : Z) (p : Paletted) (x y color : Z) :
  square side p -> 0 <= x < side -> 0 <= y < side ->
  exists p' : Paletted,
    setPix p (PixOffset p x y) color = Ret p'
    /\ square side p'
    /\ forall px py : Z,
         0 <= px < side -> 0 <= py < side ->
         pixel p' px py
         = if (px =? x) && (py =? y) then Some color else pixel p px py.
Proof.
  intros Hsq Hx Hy. pose proof Hsq as (Hb & Hs & Hlen & Hmax).
  unfold setPix. rewrite (PixOffset_square side p x y Hsq Hx Hy).
  replace ((0 <=? y * side + x) && (y * side + x <? Zlength' (Pix p)))
    with true
    by (symmetry; apply andb_true_iff; split;
        [apply Z.leb_le | apply Z.ltb_lt]; nia).
  assert (Hsq' : square side
                   (mkPaletted (<[Z.to_nat (y * side + x) := color]> (Pix p))
                               (Stride p) (Bounds p))).
  { unfold square. cbn [Bounds Stride Pix].
    split; [exact Hb|]. split; [exact Hs|]. split; [|exact Hmax].
    unfold Zlength' in *. rewrite length_insert. exact Hlen. }
  eexists. split; [reflexivity|]. split; [exact Hsq'|].
  intros px py Hpx Hpy. unfold pixel.
  rewrite (PixOffset_square side _ px py Hsq' Hpx Hpy),
          (PixOffset_square side p px py Hsq Hpx Hpy).
  cbn [Pix].
  destruct (Z.eqb_spec px x) as [-> | Hne]; cbn [andb].
  - destruct (Z.eqb_spec py y) as [-> | Hne].
    + apply list_lookup_insert_eq. unfold Zlength' in Hlen. nia.
    + apply list_lookup_insert_ne. intros H.
      apply offset_inj in H; lia.
  - apply list_lookup_insert_ne. intros H.
    apply offset_inj in H; lia.
Qed.

Lemma fillColumn_square (side color x : Z) (n : nat) :
  forall (p : Paletted) (y : Z),
    square side p -> 0 <= x < side -> 0 <= y -> y + Z.of_nat n <= side ->
    exists p' : Paletted,
      fillColumn p color x n y = Ret p'
      /\ square side p'
      /\ forall px py : Z,
           0 <= px < side -> 0 <= py < side ->
           pixel p' px py
           = if (px =? x) && (y <=? py) && (py <? y + Z.of_nat n)
             then Some color else pixel p px py.
Proof.
  induction n as [|n IH]; intros p y Hsq Hx Hy Hfit.
  - exists p. split; [reflexivity|]. split; [exact Hsq|].
    intros px py _ _.
    replace (py <? y + Z.of_nat 0) with (py <? y) by (f_equal; lia).
    destruct (px =? x), (Z.leb_spec y py), (Z.ltb_spec py y);
      first [reflexivity | lia].
  - cbn [fillColumn].
    destruct (setPix_square side p x y color Hsq Hx ltac:(lia))
      as (p1 & Hset & Hsq1 & Hpix1).
    rewrite Hset, bind_Ret.
    pose proof (side_bound side ltac:(lia) (proj2 (proj2 (proj2 Hsq))))
      as Hside.
    unfold addInt. rewrite (wrapInt_small (y + 1)) by lia.
    destruct (IH p1 (y + 1) Hsq1 Hx ltac:(lia) ltac:(lia))
      as (p2 & Hrun & Hsq2 & Hpix2).
    exists p2. split; [exact Hrun|]. split; [exact Hsq2|].
    intros px py Hpx Hpy. rewrite Hpix2, Hpix1 by assumption.
    destruct (Z.eqb_spec px x) as [-> | Hne]; cbn [andb]; [|reflexivity].
    destruct (Z.eqb_spec py y) as [-> | Hney].
    + replace (y <=? y) with true by (symmetry; apply Z.leb_le; lia).
      replace (y <? y + Z.of_nat (S n)) with true
        by (symmetry; apply Z.ltb_lt; lia).
      cbn [andb]. destruct ((y + 1 <=? y) && (y <? y + 1 + Z.of_nat n));
        reflexivity.
    + replace (py <? y + 1 + Z.of_nat n) with (py <? y + Z.of_nat (S n))
        by (f_equal; lia).
      destruct (Z.leb_spec (y + 1) py), (Z.leb_spec y py);
        first [reflexivity | lia].
Qed.

Lemma fillColumns_square (side color y1 y2 : Z) (n : nat) :
  forall (p : Paletted) (x : Z),
    square side p -> 0 <= y1 <= y2 -> y2 <= side ->
    0 <= x -> x + Z.of_nat n <= side ->
    exists p' : Paletted,
      fillColumns p color y1 y2 n x = Ret p'
      /\ square side p'
      /\ forall px py : Z,
           0 <= px < side -> 0 <= py < side ->
           pixel p' px py
           = if (x <=? px) && (px <? x + Z.of_nat n)
                && (y1 <=? py) && (py <? y2)
             then Some color else pixel p px py.
Proof.
  induction n as [|n IH]; intros p x Hsq Hy Hy2 Hx Hfit.
  - exists p. split; [reflexivity|]. split; [exact Hsq|].
    intros px py _ _.
    destruct (Z.leb_spec x px), (Z.ltb_spec px (x + Z.of_nat 0));
      first [reflexivity | lia].
  - cbn [fillColumns].
    destruct (fillColumn_square side color x (Z.to_nat (y2 - y1)) p y1 Hsq
                ltac:(lia) ltac:(lia) ltac:(lia))
      as (p1 & Hcol & Hsq1 & Hpix1).
    rewrite Hcol, bind_Ret.
    pose proof (side_bound side ltac:(lia) (proj2 (proj2 (proj2 Hsq))))
      as Hside.
    unfold addInt. rewrite (wrapInt_small (x + 1)) by lia.
    destruct (IH p1 (x + 1) Hsq1 Hy Hy2 ltac:(lia) ltac:(lia))
      as (p2 & Hrun & Hsq2 & Hpix2).
    exists p2. split; [exact Hrun|]. split; [exact Hsq2|].
    intros px py Hpx Hpy. rewrite Hpix2, Hpix1 by assumption.
    replace (y1 + Z.of_nat (Z.to_nat (y2 - y1))) with y2 by lia.
    replace (px <? x + 1 + Z.of_nat n) with (px <? x + Z.of_nat (S n))
      by (f_equal; lia).
    destruct (Z.eqb_spec px x) as [-> | Hne].
    + replace (x <=? x) with true by (symmetry; apply Z.leb_le; lia).
      replace (x <? x + Z.of_nat (S n)) with true
        by (symmetry; apply Z.ltb_lt; lia).
      replace (x + 1 <=? x) with false by (symmetry; apply Z.leb_gt; lia).
      reflexivity.
    + cbn [andb].
      destruct (Z.leb_spec (x + 1) px), (Z.leb_spec x px);
        first [reflexivity | lia].
Qed.

(** [rectangle] inside a square image: it does not panic, and it sets the
    pixels of the rectangle and no other. *)
Lemma rectangle_square (side x1 y1 x2 y2 color : Z) (p : Paletted) :
  square side p ->
  0 <= x1 <= x2 -> x2 <= side -> 0 <= y1 <= y2 -> y2 <= side ->
  exists p' : Paletted,
    rectangle x1 y1 x2 y2 p color = Ret p'
    /\ square side p'
    /\ forall px py : Z,
         0 <= px < side -> 0 <= py < side ->
         pixel p' px py
         = if (x1 <=? px) && (px <? x2) && (y1 <=? py) && (py <? y2)
           then Some color else pixel p px py.
Proof.
  intros Hsq Hx Hx2 Hy Hy2. unfold rectangle.
  destruct (fillColumns_square side color y1 y2 (Z.to_nat (x2 - x1)) p x1
              Hsq Hy Hy2 ltac:(lia) ltac:(lia))
    as (p' & Hrun & Hsq' & Hpix).
  exists p'. split; [exact Hrun|]. split; [exact Hsq'|].
  intros px py Hpx Hpy. rewrite Hpix by assumption.
  replace (x1 + Z.of_nat (Z.to_nat (x2 - x1))) with x2 by lia.
  reflexivity.
Qed.

(** The corners of the block of a cell inside the matrix are computed
    without wrap-around. *)
Lemma block_corners (w bw pad x : Z) :
  0 <= bw -> 0 <= pad -> w * bw + 2 * pad <= 2 ^ 24 -> 0 <= x < w ->
  addInt (mulInt x bw) pad = x * bw + pad
  /\ addInt (mulInt (addInt x 1) bw) pad = (x + 1) * bw + pad.
Proof.
  intros Hbw Hpad Hside Hx.
  destruct (Z.eq_dec bw 0) as [-> | Hne].
  - unfold addInt, mulInt. rewrite !Z.mul_0_r.
    rewrite (wrapInt_small 0) by lia. cbn [Z.add].
    split; apply wrapInt_small; lia.
  - assert (w <= w * bw) by nia.
    assert (0 <= x * bw <= w * bw) by nia.
    assert (0 <= (x + 1) * bw <= w * bw) by nia.
    unfold addInt, mulInt.
    rewrite (wrapInt_small (x + 1)) by lia.
    rewrite (wrapInt_small (x * bw)), (wrapInt_small ((x + 1) * bw)) by lia.
    split; apply wrapInt_small; lia.
Qed.

Lemma drawCells_square (side w bw pad : Z) (cells : list (Z * Z * bool)) :
  0 <= bw -> 0 <= pad -> side = w * bw + 2 * pad ->
  Forall (cell_in w) cells ->
  forall p : Paletted,
    square side p ->
    exists p' : Paletted,
      drawCells p bw pad cells = Ret p'
      /\ square side p'
      /\ forall px py : Z,
           0 <= px < side -> 0 <= py < side ->
           pixel p' px py
           = if existsb (inBlock bw pad px py) cells
             then Some fgColor else pixel p px py.
Proof.
  intros Hbw Hpad Hside Hcells.
  induction Hcells as [|[[x y] v] cells [Hx Hy] _ IH]; intros p Hsq.
  - exists p. split; [reflexivity|]. split; [exact Hsq|]. reflexivity.
  - cbn [fst snd] in Hx, Hy. cbn [drawCells].
    assert (H0 : 0 <= side) by nia.
    pose proof (side_bound side H0 (proj2 (proj2 (proj2 Hsq)))) as Hmax.
    rewrite Hside in Hmax.
    destruct (block_corners w bw pad x Hbw Hpad Hmax Hx) as [Hsx Hex].
    destruct (block_corners w bw pad y Hbw Hpad Hmax Hy) as [Hsy Hey].
    assert (Hstep : exists p1 : Paletted,
              (if v then
                 rectangle (x * bw + pad) (y * bw + pad)
                           ((x + 1) * bw + pad) ((y + 1) * bw + pad) p fgColor
               else Ret p) = Ret p1
              /\ square side p1
              /\ forall px py : Z,
                   0 <= px < side -> 0 <= py < side ->
                   pixel p1 px py
                   = if inBlock bw pad px py (x, y, v)
                     then Some fgColor else pixel p px py).
    { destruct v.
      - destruct (rectangle_square side (x * bw + pad) (y * bw + pad)
                    ((x + 1) * bw + pad) ((y + 1) * bw + pad) fgColor p Hsq)
          as (p1 & Hr & Hsq1 & Hpix1); try nia.
        exists p1. split; [exact Hr|]. split; [exact Hsq1|].
        intros px py Hpx Hpy. rewrite Hpix1 by assumption. reflexivity.
      - exists p. split; [reflexivity|]. split; [exact Hsq|]. reflexivity. }
    destruct Hstep as (p1 & Hr & Hsq1 & Hpix1).
    cbv zeta. rewrite Hsx, Hsy, Hex, Hey, Hr, bind_Ret.
    destruct (IH p1 Hsq1) as (p2 & Hrun & Hsq2 & Hpix2).
    exists p2. split; [exact Hrun|]. split; [exact Hsq2|].
    intros px py Hpx Hpy. rewrite Hpix2, Hpix1 by assumption.
    cbn [existsb].
    destruct (inBlock bw pad px py (x, y, v)), (existsb _ cells); reflexivity.
Qed.

(** The pixel buffer of a square of side [s], an [int] that is not
    negative: [s * s] bytes when the runtime allocates that many, and a
    panic otherwise. *)
Lemma NewPaletted_cases (s : Z) :
  0 <= s < 2 ^ 63 ->
  (s * s <= maxAlloc ->
   NewPaletted (Rect 0 0 s s)
   = Ret (mkPaletted (replicate (Z.to_nat (s * s)) 0) s (mkRect 0 0 s s)))
  /\ (maxAlloc < s * s ->
      exists p : panic, NewPaletted (Rect 0 0 s s) = Panic p).
Proof.
  intros Hs. unfold Rect. rewrite Zgtb_le by lia.
  unfold NewPaletted, pixelBufferLength, Dx, Dy, subInt, mulInt.
  cbn [MaxX MinX MaxY MinY]. rewrite Z.sub_0_r, Z.mul_1_l.
  rewrite !(wrapInt_small s) by lia.
  unfold mul3NonNeg. cbn [Z.ltb Z.compare orb].
  replace (s <? 0) with false by (symmetry; apply Z.ltb_ge; lia).
  cbn [orb]. rewrite Z.mul_1_l.
  rewrite (Z.div_small s), (Z.mod_small s) by lia.
  cbn [Z.eqb negb].
  split.
  - intros Hfit. unfold maxAlloc in Hfit.
    assert (0 <= s * s) by nia.
    rewrite (Z.div_small (s * s)), (Z.mod_small (s * s)) by lia.
    cbn [Z.eqb negb]. rewrite (wrapInt_small (s * s)) by lia.
    replace (s * s <? 0) with false by (symmetry; apply Z.ltb_ge; lia).
    replace (s * s <? 0) with false by (symmetry; apply Z.ltb_ge; lia).
    rewrite bind_Ret. unfold makePix, maxAlloc.
    replace (s * s <? 0) with false by (symmetry; apply Z.ltb_ge; lia).
    replace (2 ^ 48 <? s * s) with false by (symmetry; apply Z.ltb_ge; lia).
    reflexivity.
  - intros Hbig. unfold maxAlloc in Hbig.
    destruct (Z.eqb_spec (s * s / 2 ^ 64) 0) as [Hhi | Hhi]; cbn [negb].
    2:{ eexists. reflexivity. }
    assert (Hlt : 0 <= s * s < 2 ^ 64).
    { split; [nia|].
      destruct (Z.lt_ge_cases (s * s) (2 ^ 64)) as [H | H]; [exact H|].
      pose proof (Z.div_le_mono (2 ^ 64) (s * s) (2 ^ 64) ltac:(lia) H) as Hd.
      rewrite Z.div_same in Hd by lia. lia. }
    rewrite (Z.mod_small (s * s)) by lia.
    destruct (Z.lt_ge_cases (s * s) (2 ^ 63)) as [Hin | Hout].
    + rewrite (wrapInt_small (s * s)) by lia.
      replace (s * s <? 0) with false by (symmetry; apply Z.ltb_ge; lia).
      replace (s * s <? 0) with false by (symmetry; apply Z.ltb_ge; lia).
      rewrite bind_Ret. unfold makePix, maxAlloc.
      replace (s * s <? 0) with false by (symmetry; apply Z.ltb_ge; lia).
      replace (2 ^ 48 <? s * s) with true by (symmetry; apply Z.ltb_lt; lia).
      eexists. reflexivity.
    + assert (Hw : wrapInt (s * s) < 0).
      { unfold wrapInt.
        replace (s * s + 2 ^ 63) with (s * s - 2 ^ 63 + 1 * 2 ^ 64) by lia.
        rewrite Z.mod_add by lia. rewrite Z.mod_small by lia. lia. }
      replace (wrapInt (s * s) <? 0) with true
        by (symmetry; apply Z.ltb_lt; exact Hw).
      eexists. reflexivity.
Qed.

(** The width [Write] computes, when it fits. *)
Lemma Write_width (w bw pad : Z) :
  0 <= w -> 0 <= bw -> 0 <= pad -> w * bw + 2 * pad < 2 ^ 63 ->
  addInt (mulInt w bw) (mulInt 2 pad) = w * bw + 2 * pad.
Proof.
  intros Hw Hbw Hpad Hfit. assert (0 <= w * bw) by nia.
  unfold addInt, mulInt.
  rewrite (wrapInt_small (w * bw)), (wrapInt_small (2 * pad)) by lia.
  apply wrapInt_small. lia.
Qed.

Lemma Write_square (w : imgWriter) (mat : Matrix) :
  0 <= Padding (opt w) -> 0 <= BlockSize (opt w) -> 0 <= Width mat ->
  Forall (cell_in (Width mat)) (visits mat) ->
  (Width mat * BlockSize (opt w) + 2 * Padding (opt w))
  * (Width mat * BlockSize (opt w) + 2 * Padding (opt w)) <= maxAlloc ->
  exists p : Paletted,
    Write w mat = Ret (mkWriter (Some p) (opt w))
    /\ square (Width mat * BlockSize (opt w) + 2 * Padding (opt w)) p
    /\ forall px py : Z,
         0 <= px < Width mat * BlockSize (opt w) + 2 * Padding (opt w) ->
         0 <= py < Width mat * BlockSize (opt w) + 2 * Padding (opt w) ->
         pixel p px py
         = Some (if existsb (inBlock (BlockSize (opt w)) (Padding (opt w))
                                     px py) (visits mat)
                 then fgColor else bgColor).
Proof.
  intros Hpad Hbw Hw Hcells Hfit. unfold Write. cbv zeta.
  assert (Hside : 0 <= Width mat * BlockSize (opt w) + 2 * Padding (opt w))
    by nia.
  pose proof (side_bound _ Hside Hfit) as Hmax.
  rewrite (Write_width _ _ _ Hw Hbw Hpad) by lia.
  set (side := Width mat * BlockSize (opt w) + 2 * Padding (opt w)) in *.
  rewrite (proj1 (NewPaletted_cases side ltac:(lia)) Hfit), bind_Ret.
  assert (Hsq : square side
                  (mkPaletted (replicate (Z.to_nat (side * side)) 0) side
                              (mkRect 0 0 side side))).
  { unfold square. cbn [Bounds Stride Pix].
    split; [reflexivity|]. split; [reflexivity|]. split; [|exact Hfit].
    unfold Zlength'. rewrite length_replicate. nia. }
  destruct (rectangle_square side 0 0 side side bgColor _ Hsq)
    as (p0 & Hbg & Hsq0 & Hpix0); try lia.
  rewrite Hbg, bind_Ret.
  destruct (drawCells_square side (Width mat) (BlockSize (opt w))
              (Padding (opt w)) (visits mat) Hbw Hpad eq_refl Hcells p0 Hsq0)
    as (p1 & Hdraw & Hsq1 & Hpix1).
  rewrite Hdraw, bind_Ret.
  exists p1. split; [reflexivity|]. split; [exact Hsq1|].
  intros px py Hpx Hpy. rewrite Hpix1, Hpix0 by assumption.
  replace ((0 <=? px) && (px <? side) && (0 <=? py) && (py <? side))
    with true.
  - destruct (existsb _ _); reflexivity.
  - symmetry. rewrite !andb_true_iff, !Z.leb_le, !Z.ltb_lt. lia.
Qed.

(** [Write] panics in [image.NewPaletted] when the side of the image fits
    an [int] and its pixel buffer is more than the runtime allocates. *)
Lemma Write_huge (w : imgWriter) (mat : Matrix) :
  0 <= Padding (opt w) -> 0 <= BlockSize (opt w) -> 0 <= Width mat ->
  Width mat * BlockSize (opt w) + 2 * Padding (opt w) < 2 ^ 63 ->
  maxAlloc < (Width mat * BlockSize (opt w) + 2 * Padding (opt w))
             * (Width mat * BlockSize (opt w) + 2 * Padding (opt w)) ->
  exists p : panic, Write w mat = Panic p.
Proof.
  intros Hpad Hbw Hw Hint Hbig. unfold Write. cbv zeta.
  assert (Hside : 0 <= Width mat * BlockSize (opt w) + 2 * Padding (opt w))
    by nia.
  rewrite (Write_width _ _ _ Hw Hbw Hpad Hint).
  destruct (proj2 (NewPaletted_cases _ (conj Hside Hint)) Hbig) as [p Hp].
  rewrite Hp. exists p. reflexivity.
Qed.

Lemma inBlock_margin (w bw pad px py : Z) (cells : list (Z * Z * bool)) :
  0 <= bw -> Forall (cell_in w) cells ->
  px < pad \/ w * bw + pad <= px \/ py < pad \/ w * bw + pad <= py ->
  existsb (inBlock bw pad px py) cells = false.
Proof.
  intros Hbw Hcells Hout.
  induction Hcells as [|[[x y] v] cells [Hx Hy] _ IH]; [reflexivity|].
  cbn [fst snd] in Hx, Hy. cbn [existsb]. rewrite IH, orb_false_r.
  unfold inBlock. rewrite !andb_false_iff, !Z.leb_gt, !Z.ltb_ge.
  destruct Hout as [H | [H | [H | H]]]; auto;
    first [ left; left; left; right; nia
          | left; left; right; nia
          | left; right; nia
          | right; nia ].
Qed.

(** X15: [Write] on a matrix whose visited cells lie inside its width, with
    non-negative block size and padding; [side] is
    [width * blockSize + 2 * padding].  When a pixel buffer of
    [side * side] bytes is within what the runtime allocates, [Write] does
    not panic, and the image it stores is a square of that side with one
    entry per pixel, row after row; a pixel has the foreground index when
    it lies in the block of a set cell and the background index otherwise;
    in particular the margin of [padding] pixels on every side is
    background.  When [side] fits an [int] and the buffer is larger than
    that, [Write] panics. *)
Theorem Write_renders (w : imgWriter) (mat : Matrix) :
  0 <= Padding (opt w) -> 0 <= BlockSize (opt w) -> 0 <= Width mat ->
  Forall (cell_in (Width mat)) (visits mat) ->
  let side := Width mat * BlockSize (opt w) + 2 * Padding (opt w) in
  (side * side <= maxAlloc ->
   exists p : Paletted,
     Write w mat = Ret (mkWriter (Some p) (opt w))
     /\ Bounds p = mkRect 0 0 side side
     /\ Stride p = side
     /\ Zlength' (Pix p) = side * side
     /\ (forall px py : Z,
           0 <= px < side -> 0 <= py < side ->
           Pix p !! Z.to_nat (py * side + px)
           = Some (if existsb (inBlock (BlockSize (opt w)) (Padding (opt w))
                                       px py) (visits mat)
                   then fgColor else bgColor))
     /\ (forall px py : Z,
           0 <= px < side -> 0 <= py < side ->
           px < Padding (opt w) \/ side - Padding (opt w) <= px
           \/ py < Padding (opt w) \/ side - Padding (opt w) <= py ->
           Pix p !! Z.to_nat (py * side + px) = Some bgColor))
  /\ (side < 2 ^ 63 -> maxAlloc < side * side ->
      exists p : panic, Write w mat = Panic p).
Proof.
  intros Hpad Hbw Hw Hcells. cbv zeta. split.
  2:{ intros Hint Hbig. apply Write_huge; assumption. }
  intros Hfit.
  destruct (Write_square w mat Hpad Hbw Hw Hcells Hfit)
    as (p & Hrun & Hsq & Hpix).
  pose proof Hsq as (Hb & Hs & Hlen & _).
  exists p. split; [exact Hrun|]. split; [exact Hb|]. split; [exact Hs|].
  split; [exact Hlen|].
  assert (Hoff : forall px py : Z,
            0 <= px < Width mat * BlockSize (opt w) + 2 * Padding (opt w) ->
            0 <= py < Width mat * BlockSize (opt w) + 2 * Padding (opt w) ->
            pixel p px py
            = Pix p !! Z.to_nat
                (py * (Width mat * BlockSize (opt w) + 2 * Padding (opt w))
                 + px)).
  { intros px py Hpx Hpy. unfold pixel.
    rewrite (PixOffset_square _ p px py Hsq Hpx Hpy). reflexivity. }
  split.
  - intros px py Hpx Hpy. rewrite <- Hoff by assumption.
    apply Hpix; assumption.
  - intros px py Hpx Hpy Hmargin. rewrite <- Hoff, Hpix by assumption.
    rewrite (inBlock_margin (Width mat)); [reflexivity | exact Hbw
                                          | exact Hcells | lia].
Qed.

Lemma Write_renders_witness :
  (exists p : Paletted,
     Write (NewImageWriter (mkOption 1 2))
           (mkMatrix 2 [(0, 0, true); (0, 1, false); (1, 0, false); (1, 1, true)])
     = Ret (mkWriter (Some p) (mkOption 1 2))
     /\ Pix p = [0; 0; 0; 0; 0; 0;
                 0; 1; 1; 0; 0; 0;
                 0; 1; 1; 0; 0; 0;
                 0; 0; 0; 1; 1; 0;
                 0; 0; 0; 1; 1; 0;
                 0; 0; 0; 0; 0; 0])
  /\ exists p : panic,
       Write (NewImageWriter (mkOption 0 (2 ^ 32))) (mkMatrix 1 [(0, 0, true)])
       = Panic p.
Proof.
  split.
  - destruct (Write_renders
                (NewImageWriter (mkOption 1 2))
                (mkMatrix 2 [(0, 0, true); (0, 1, false);
                             (1, 0, false); (1, 1, true)]))
      as [Hfits _]; try (cbn; lia).
    + repeat constructor; cbn; lia.
    + destruct Hfits as (p & Hrun & _); [vm_compute; discriminate|].
      exists p. split; [exact Hrun|].
      vm_compute in Hrun. injection Hrun as <-. reflexivity.
  - destruct (Write_renders
                (NewImageWriter (mkOption 0 (2 ^ 32)))
                (mkMatrix 1 [(0, 0, true)]))
      as [_ Hhuge]; try (cbn; lia).
    + repeat constructor; cbn; lia.
    + apply Hhuge; vm_compute; reflexivity.
Defined.

(** ** QR codes of frames *)

(** X16: [QRCode] reports an invalid block size, before it calls the
    encoder, when the block size is below 1, and the encoder's error when
    the encoder fails.  When the encoder returns a matrix whose visited
    cells lie inside its width, the image has the side
    [(width + 2) * blockSize].  When a pixel buffer for it is within
    what the runtime allocates, [QRCode] does not panic and returns a
    square image of that side: the matrix drawn with blocks of [blockSize]
    pixels inside a margin of [blockSize] background pixels.  When the
    side fits an [int] and the buffer is larger than that, [QRCode]
    panics. *)
Theorem QRCode_outcomes {text : Type} (base64 : list byte -> text)
    (qrNew : text -> option Matrix) (c : QRChunk) (blockSize : Z) :
  (blockSize < 1 ->
   QRCode base64 qrNew c blockSize = Ret (inl InvalidBlockSize))
  /\ (1 <= blockSize ->
      qrNew (base64 (elems (wireBytes c))) = None ->
      QRCode base64 qrNew c blockSize = Ret (inl EncoderError))
  /\ (1 <= blockSize ->
      forall mat : Matrix,
        qrNew (base64 (elems (wireBytes c))) = Some mat ->
        0 <= Width mat ->
        Forall (cell_in (Width mat)) (visits mat) ->
        let side := (Width mat + 2) * blockSize in
        (side * side <= maxAlloc ->
         exists p : Paletted,
           QRCode base64 qrNew c blockSize = Ret (inr (Some p))
           /\ Bounds p = mkRect 0 0 side side
           /\ Stride p = side
           /\ Zlength' (Pix p) = side * side
           /\ forall px py : Z,
                0 <= px < side -> 0 <= py < side ->
                Pix p !! Z.to_nat (py * side + px)
                = Some (if existsb (inBlock blockSize blockSize px py)
                                   (visits mat)
                        then fgColor else bgColor))
        /\ (side < 2 ^ 63 -> maxAlloc < side * side ->
            exists p : panic, QRCode base64 qrNew c blockSize = Panic p)).
Proof.
  split; [|split].
  - intros Hbs. unfold QRCode.
    replace (blockSize <? 1) with true by (symmetry; apply Z.ltb_lt; lia).
    reflexivity.
  - intros Hbs Herr. unfold QRCode.
    replace (blockSize <? 1) with false by (symmetry; apply Z.ltb_ge; lia).
    cbv zeta. rewrite Herr. reflexivity.
  - intros Hbs mat Hmat Hw Hcells. cbv zeta. unfold QRCode.
    replace (blockSize <? 1) with false by (symmetry; apply Z.ltb_ge; lia).
    cbv zeta. rewrite Hmat.
    replace ((Width mat + 2) * blockSize)
      with (Width mat * blockSize + 2 * blockSize) by lia.
    split.
    + intros Hfit.
      destruct (Write_square (NewImageWriter (mkOption blockSize blockSize))
                  mat)
        as (p & Hrun & Hsq & Hpix);
        try (cbn [opt NewImageWriter Padding BlockSize]; lia);
        [exact Hcells|].
      cbn [opt NewImageWriter Padding BlockSize] in *.
      pose proof Hsq as (Hb & Hs & Hlen & _).
      rewrite Hrun, bind_Ret. cbn [Close img].
      exists p. split; [reflexivity|]. split; [exact Hb|].
      split; [exact Hs|]. split; [exact Hlen|].
      intros px py Hpx Hpy. rewrite <- Hpix by assumption.
      unfold pixel. rewrite (PixOffset_square _ p px py Hsq Hpx Hpy).
      reflexivity.
    + intros Hint Hbig.
      destruct (Write_huge (NewImageWriter (mkOption blockSize blockSize)) mat)
        as [p Hp]; try (cbn [opt NewImageWriter Padding BlockSize]; lia).
      rewrite Hp. exists p. reflexivity.
Qed.

Lemma QRCode_outcomes_witness :
  QRCode (fun l : list byte => l) (fun _ => Some (mkMatrix 1 [(0, 0, true)]))
         (mkChunk 0 1 32 []) 0
  = Ret (inl InvalidBlockSize)
  /\ (exists p : Paletted,
        QRCode (fun l : list byte => l)
               (fun _ => Some (mkMatrix 1 [(0, 0, true)]))
               (mkChunk 0 1 32 []) 1
        = Ret (inr (Some p))
        /\ Pix p = [0; 0; 0; 0; 1; 0; 0; 0; 0])
  /\ exists p : panic,
       QRCode (fun l : list byte => l)
              (fun _ => Some (mkMatrix 1 [(0, 0, true)]))
              (mkChunk 0 1 32 []) (2 ^ 32)
       = Panic p.
Proof.
  destruct (QRCode_outcomes (fun l : list byte => l)
              (fun _ => Some (mkMatrix 1 [(0, 0, true)]))
              (mkChunk 0 1 32 []) 0) as (Hbad & _ & _).
  destruct (QRCode_outcomes (fun l : list byte => l)
              (fun _ => Some (mkMatrix 1 [(0, 0, true)]))
              (mkChunk 0 1 32 []) 1) as (_ & _ & Hgood).
  destruct (QRCode_outcomes (fun l : list byte => l)
              (fun _ => Some (mkMatrix 1 [(0, 0, true)]))
              (mkChunk 0 1 32 []) (2 ^ 32)) as (_ & _ & Hhuge).
  split; [apply Hbad; lia|]. split.
  - destruct (Hgood ltac:(lia) (mkMatrix 1 [(0, 0, true)]) eq_refl)
      as [Hfits _].
    + cbn. lia.
    + repeat constructor; cbn; lia.
    + destruct Hfits as (p & Hrun & _); [vm_compute; discriminate|].
      exists p. split; [exact Hrun|].
      vm_compute in Hrun. injection Hrun as <-. reflexivity.
  - destruct (Hhuge ltac:(lia) (mkMatrix 1 [(0, 0, true)]) eq_refl)
      as [_ Hpanic].
    + cbn. lia.
    + repeat constructor; cbn; lia.
    + apply Hpanic; vm_compute; reflexivity.
Defined.

Lemma qrLoop_all {text : Type} (base64 : list byte -> text)
    (qrNew : text -> option Matrix) (blockSize : Z)
    (f : QRChunk -> option Paletted) (cl : list QRChunk) :
  (forall c : QRChunk,
      c ∈ cl -> QRCode base64 qrNew c blockSize = Ret (inr (f c))) ->
  forall images : list (option Paletted),
    qrLoop base64 qrNew blockSize (Some <$> cl) images
    = Ret (inr (images ++ (f <$> cl))).
Proof.
  induction cl as [|c cl IH]; intros Hall images.
  - cbn. rewrite app_nil_r. reflexivity.
  - cbn [fmap list_fmap qrLoop].
    rewrite (Hall c) by (apply elem_of_cons; left; reflexivity).
    rewrite bind_Ret.
    change (list_fmap QRChunk (option QRChunk) Some cl) with (Some <$> cl).
    rewrite IH by (intros c' Hc'; apply Hall, elem_of_cons; right; exact Hc').
    rewrite <- app_assoc. reflexivity.
Qed.

Lemma qrLoop_first_error {text : Type} (base64 : list byte -> text)
    (qrNew : text -> option Matrix) (blockSize : Z)
    (f : QRChunk -> option Paletted) (pre : list QRChunk) (c : QRChunk)
    (post : list QRChunk) (e : encode_error) :
  (forall c' : QRChunk,
      c' ∈ pre -> QRCode base64 qrNew c' blockSize = Ret (inr (f c'))) ->
  QRCode base64 qrNew c blockSize = Ret (inl e) ->
  forall images : list (option Paletted),
    qrLoop base64 qrNew blockSize (Some <$> (pre ++ c :: post)) images
    = Ret (inl e).
Proof.
  induction pre as [|c0 pre IH]; intros Hpre Herr images.
  - cbn [app fmap list_fmap qrLoop]. rewrite Herr. reflexivity.
  - cbn [app fmap list_fmap qrLoop].
    rewrite (Hpre c0) by (apply elem_of_cons; left; reflexivity).
    rewrite bind_Ret.
    change (list_fmap QRChunk (option QRChunk) Some (pre ++ c :: post))
      with (Some <$> (pre ++ c :: post)).
    apply IH; [|exact Herr].
    intros c' Hc'. apply Hpre, elem_of_cons. right. exact Hc'.
Qed.

(** X17: [QRCodes] on a reachable sequence never dereferences a nil chunk.
    On a sequence that is not complete it reports that and makes no image;
    on a complete one it returns one image per slot, in slot order, when
    [QRCode] succeeds on every frame, and otherwise the error of the first
    frame on which [QRCode] fails. *)
Theorem QRCodes_reachable {text : Type} (base64 : list byte -> text)
    (qrNew : text -> option Matrix) (s : QRSequence) (blockSize : Z) :
  reachable s ->
  (IsComplete s = false ->
   QRCodes base64 qrNew s blockSize = Ret (inl SequenceNotComplete))
  /\ (IsComplete s = true ->
      exists cl : list QRChunk,
        chunks s = Some <$> cl
        /\ (forall f : QRChunk -> option Paletted,
              (forall c : QRChunk,
                  c ∈ cl ->
                  QRCode base64 qrNew c blockSize = Ret (inr (f c))) ->
              QRCodes base64 qrNew s blockSize = Ret (inr (f <$> cl)))
        /\ (forall (f : QRChunk -> option Paletted) (pre post : list QRChunk)
                   (c : QRChunk) (e : encode_error),
              cl = pre ++ c :: post ->
              (forall c' : QRChunk,
                  c' ∈ pre ->
                  QRCode base64 qrNew c' blockSize = Ret (inr (f c'))) ->
              QRCode base64 qrNew c blockSize = Ret (inl e) ->
              QRCodes base64 qrNew s blockSize = Ret (inl e))).
Proof.
  intros Hreach. pose proof (reachable_inv s Hreach) as [Hcount _].
  split.
  - intros Hinc. unfold QRCodes. rewrite Hinc. reflexivity.
  - intros Hdone. unfold QRCodes. rewrite Hdone. cbn [negb].
    unfold IsComplete in Hdone.
    destruct (ChunkSize s =? ChunkSizeUnknown); [discriminate|].
    apply Z.eqb_eq in Hdone.
    destruct (filled_all (chunks s)) as [cl Hcl]; [lia|].
    exists cl. split; [exact Hcl|]. rewrite Hcl. split.
    + intros f Hall. rewrite (qrLoop_all base64 qrNew blockSize f cl Hall).
      reflexivity.
    + intros f pre post c e -> Hpre Herr.
      apply (qrLoop_first_error base64 qrNew blockSize f); assumption.
Qed.

Lemma QRCodes_reachable_witness :
  QRCodes (fun l : list byte => l) (fun _ => Some (mkMatrix 1 [(0, 0, true)]))
          NewEmpty 1
  = Ret (inl SequenceNotComplete).
Proof.
  apply (QRCodes_reachable (fun l : list byte => l)
           (fun _ => Some (mkMatrix 1 [(0, 0, true)])) NewEmpty 1 reach_empty).
  reflexivity.
Defined.

(** ** Images in any order *)

Lemma NewChunk_elems (d d' : bslice) :
  4 <= slen d -> elems d = elems d' -> NewChunk d = NewChunk d'.
Proof.
  intros Hlen He.
  assert (Hlen' : 4 <= slen d') by (unfold slen in *; rewrite <- He; exact Hlen).
  rewrite (NewChunk_parsed d Hlen), (NewChunk_parsed d' Hlen'), He.
  reflexivity.
Qed.

Lemma wireBytes_length (c : QRChunk) : 4 <= slen (wireBytes c).
Proof.
  unfold slen, wireBytes, exact, putUint16LE. cbn [elems app].
  rewrite !Zlength'_cons. pose proof (Zlength'_nonneg (internal.data c)). lia.
Qed.

(** An image that scans to the bytes of a frame is absorbed as these bytes
    are. *)
Lemma DecodeImage_scanned {image : Type} (scan : image -> option bslice)
    (s s' : QRSequence) (im : image) (d : bslice) (c : QRChunk) :
  scan im = Some d ->
  elems d = elems (wireBytes c) ->
  NewChunk (wireBytes c) = Ret (Some c) ->
  AddChunkFromBytes s (wireBytes c) = (s', Ret tt) ->
  DecodeImage scan s im = (s', Ret None).
Proof.
  intros Hscan He Hparse Hadd.
  assert (Hd : NewChunk d = Ret (Some c)).
  { rewrite <- Hparse. apply NewChunk_elems; [|exact He].
    unfold slen. rewrite He. apply wireBytes_length. }
  unfold AddChunkFromBytes in Hadd. unfold DecodeImage, NewChunkFromImage.
  destruct (IsComplete s); [congruence|].
  rewrite Hscan, Hd, bind_Ret. rewrite Hparse in Hadd. rewrite Hadd.
  reflexivity.
Qed.

Lemma DecodeAll_as_bytes {image : Type} (scan : image -> option bslice)
    (D : list byte) (fs n : Z) (l : list Z) (imgs : list image) :
  isValidChunkSize fs = true ->
  Forall (fun j => 0 <= j < n) l ->
  Forall2 (fun j im =>
             exists d : bslice,
               scan im = Some d
               /\ elems d = elems (wireBytes (frame D fs n j))) l imgs ->
  forall s s' : QRSequence,
    AddAllFromBytes s ((fun j => wireBytes (frame D fs n j)) <$> l)
    = (s', Ret tt) ->
    DecodeAll scan s imgs = (s', Ret tt).
Proof.
  intros Hv Hl Hscan. revert Hl.
  induction Hscan as [|j im l imgs (d & Hd & He) _ IH]; intros Hl s s' Hrun.
  - exact Hrun.
  - cbn [fmap list_fmap AddAllFromBytes] in Hrun. cbn [DecodeAll].
    pose proof (Forall_inv Hl) as Hj. cbv beta in Hj.
    destruct (AddChunkFromBytes s (wireBytes (frame D fs n j)))
      as [s1 [[]|p]] eqn:Hadd; [|discriminate].
    rewrite (DecodeImage_scanned scan s s1 im d (frame D fs n j) Hd He
               (frame_parses D fs n j Hv ltac:(lia)) Hadd).
    apply IH; [exact (Forall_inv_tail Hl) | exact Hrun].
Qed.

(** X18: images that scan to the wire bytes of the frames of a split with
    at most 255 frames, decoded into an empty sequence in any order and
    with any repetitions by a caller that ignores the returned errors: no
    call panics, slot [i] holds frame [i] exactly when an image of frame
    [i] was among the input, and as soon as every frame occurred the
    sequence is complete and [Data] returns the data that was split. *)
Theorem decode_any_order {image : Type} (scan : image -> option bslice)
    (D : list byte) (fs : Z) (l : list Z) (imgs : list image) :
  isValidChunkSize fs = true ->
  framesNeeded (Zlength' D) fs <= 255 ->
  l <> [] ->
  Forall (fun j => 0 <= j < framesNeeded (Zlength' D) fs) l ->
  let n := framesNeeded (Zlength' D) fs in
  Forall2 (fun j im =>
             exists d : bslice,
               scan im = Some d
               /\ elems d = elems (wireBytes (frame D fs n j))) l imgs ->
  CreateChunks D fs = Ret (frames D fs n)
  /\ exists s : QRSequence,
       DecodeAll scan NewEmpty imgs = (s, Ret tt)
       /\ ChunkSize s = fs
       /\ Zlength' (chunks s) = n
       /\ (forall i : Z,
             0 <= i < n ->
             chunks s !! Z.to_nat i
             = Some (if bool_decide (i ∈ l) then Some (frame D fs n i)
                     else None))
       /\ nrReceived s = filled (chunks s)
       /\ ((forall i : Z, 0 <= i < n -> i ∈ l) ->
           IsComplete s = true /\ Data s = Ret (Some D)).
Proof.
  intros Hv Hmax Hne Hl n Hscan.
  destruct (absorb_frames D fs l Hv Hmax Hne Hl) as [Hsplit (s & Hrun & Hrest)].
  split; [exact Hsplit|]. exists s. split; [|exact Hrest].
  apply (DecodeAll_as_bytes scan D fs n l imgs Hv Hl Hscan). exact Hrun.
Qed.

Lemma decode_any_order_witness :
  let D := replicate 60 x2a in
  let scan := fun j : Z => Some (mkSlice (elems (wireBytes (frame D 32 3 j)))
                                         [x00; x00]) in
  exists s : QRSequence,
    DecodeAll scan NewEmpty [2; 0; 2; 1; 0] = (s, Ret tt)
    /\ IsComplete s = true /\ Data s = Ret (Some D).
Proof.
  cbv zeta.
  destruct (decode_any_order
              (fun j : Z =>
                 Some (mkSlice (elems (wireBytes (frame (replicate 60 x2a)
                                                        32 3 j)))
                               [x00; x00]))
              (replicate 60 x2a) 32 [2; 0; 2; 1; 0] [2; 0; 2; 1; 0])
    as [_ (s & Hrun & _ & _ & _ & _ & Hall)].
  - reflexivity.
  - vm_compute. discriminate.
  - discriminate.
  - repeat constructor; vm_compute; first [discriminate | reflexivity].
  - change (framesNeeded (Zlength' (replicate 60 x2a)) 32) with 3.
    repeat constructor; eexists; split; reflexivity.
  - exists s. split; [exact Hrun|]. apply Hall.
    change (framesNeeded (Zlength' (replicate 60 x2a)) 32) with 3.
    intros i Hi. rewrite !elem_of_cons. lia.
Defined.

(** ** From data to images and back *)









(** ** When absorbing panics *)

(** X21: on input of at least four bytes [AddChunkFromBytes] panics in
    exactly one situation: the sequence is not complete, the size field is
    a chunk size, and the index byte is not below the number of slots,
    which is the total byte when the chunk size of the sequence is still
    unknown.  In every other case it returns. *)
Theorem AddChunkFromBytes_panics_iff (s : QRSequence) (d : bslice) :
  4 <= slen d ->
  let c := parsed (elems d) in
  let slots := if ChunkSize s =? ChunkSizeUnknown then Tot c
               else Zlength' (chunks s) in
  ((exists p : panic, (AddChunkFromBytes s d).2 = Panic p) <->
   IsComplete s = false
   /\ isValidChunkSize (sizeField (elems d)) = true
   /\ slots <= Nr c)
  /\ ((AddChunkFromBytes s d).2 = Ret tt <->
      ~ (IsComplete s = false
         /\ isValidChunkSize (sizeField (elems d)) = true
         /\ slots <= Nr c)).
Proof.
  intros Hlen. cbv zeta.
  set (c := parsed (elems d)).
  set (slots := if ChunkSize s =? ChunkSizeUnknown then Tot c
                else Zlength' (chunks s)).
  set (cond := IsComplete s = false
               /\ isValidChunkSize (sizeField (elems d)) = true
               /\ slots <= Nr c).
  assert (Hdec : (cond /\ exists p, (AddChunkFromBytes s d).2 = Panic p)
                 \/ (~ cond /\ (AddChunkFromBytes s d).2 = Ret tt)).
  { unfold cond, AddChunkFromBytes. rewrite (NewChunk_parsed d Hlen).
    destruct (IsComplete s) eqn:Hdone.
    { right. split; [intros (H & _); discriminate | reflexivity]. }
    destruct (isValidChunkSize (sizeField (elems d))) eqn:Hv.
    2:{ right. split; [intros (_ & H & _); discriminate | reflexivity]. }
    fold c.
    assert (Hc : NewChunk d = Ret (Some c))
      by (rewrite (NewChunk_parsed d Hlen), Hv; reflexivity).
    destruct (NewChunk_Some d c Hc) as [Hvc (Hnr & Htot & _)].
    pose proof (valid_size_known c Hvc) as Hk.
    assert (Hknown : forall s0 : QRSequence,
              ChunkSize s0 <> ChunkSizeUnknown ->
              (Zlength' (chunks s0) <= Nr c
               /\ exists p, (addChunk s0 c).2 = Panic p)
              \/ (~ Zlength' (chunks s0) <= Nr c
                  /\ (addChunk s0 c).2 = Ret tt)).
    { intros s0 Hk0. rewrite addChunk_known by exact Hk0.
      unfold is_uint8, Nr in *.
      destruct (slot_at_cases (chunks s0) (nr c))
        as [[E Hout] | [(E & Hi & _) | (c0 & E & Hi & _)]]; rewrite E.
      - left. split; [lia | eexists; reflexivity].
      - right. split; [lia | reflexivity].
      - right. split; [lia | reflexivity]. }
    unfold slots.
    destruct (Z.eqb_spec (ChunkSize s) ChunkSizeUnknown) as [Hu | Hks].
    - rewrite (addChunk_unknown s c Hu Hk).
      destruct (Hknown (mkSeq (Size c) (replicate (Z.to_nat (Tot c)) None) 0) Hk)
        as [[Hle Hp] | [Hgt Hr]]; cbn [chunks] in *;
        unfold Zlength' in *; rewrite length_replicate in *;
        unfold is_uint8, Tot in *.
      + left. split; [repeat split; lia | exact Hp].
      + right. split; [intros (_ & _ & H); lia | exact Hr].
    - destruct (Hknown s Hks) as [[Hle Hp] | [Hgt Hr]].
      + left. split; [repeat split; assumption | exact Hp].
      + right. split; [intros (_ & _ & H); contradiction | exact Hr]. }
  split; split.
  - intros [p Hp]. destruct Hdec as [[Hc _] | [_ Hr]]; [exact Hc | congruence].
  - intros Hc. destruct Hdec as [[_ Hp] | [Hn _]]; [exact Hp | contradiction].
  - intros Hr Hc. destruct Hdec as [[_ [p Hp]] | [Hn _]];
      [congruence | contradiction].
  - intros Hn. destruct Hdec as [[Hc _] | [_ Hr]]; [contradiction | exact Hr].
Qed.

Lemma AddChunkFromBytes_panics_iff_witness :
  (AddChunkFromBytes NewEmpty (exact (bs [2; 3; 32; 0; 9]))).2 = Ret tt
  /\ exists p : panic,
       (AddChunkFromBytes NewEmpty (exact (bs [3; 3; 32; 0; 9]))).2 = Panic p.
Proof.
  split.
  - apply (AddChunkFromBytes_panics_iff NewEmpty (exact (bs [2; 3; 32; 0; 9])));
      [vm_compute; discriminate|].
    intros (_ & _ & H). vm_compute in H. apply H. reflexivity.
  - apply (AddChunkFromBytes_panics_iff NewEmpty (exact (bs [3; 3; 32; 0; 9])));
      [vm_compute; discriminate|].
    repeat split; vm_compute; discriminate.
Defined.

(** ** Joining payloads *)

Lemma appendAll_nil_chunk (l : list (option QRChunk)) :
  None ∈ l ->
  forall acc : list byte, appendAll acc l = Panic NilDereference.
Proof.
  induction l as [|[c|] l IH]; intros Hin acc.
  - apply elem_of_nil in Hin. destruct Hin.
  - cbn [appendAll]. apply IH.
    apply elem_of_cons in Hin as [Hin | Hin]; [discriminate | exact Hin].
  - reflexivity.
Qed.

(** X22: [GetData] returns nil for an empty slice of chunks, panics with a
    nil dereference when any chunk of a non-empty slice is nil, and
    otherwise returns a non-nil slice with the payloads joined in order. *)
Theorem GetData_spec (l : list (option QRChunk)) :
  (l = [] -> GetData l = Ret None)
  /\ (None ∈ l -> GetData l = Panic NilDereference)
  /\ (forall cl : list QRChunk,
        l = Some <$> cl -> cl <> [] ->
        GetData l = Ret (Some (concat (internal.data <$> cl)))).
Proof.
  split; [intros ->; reflexivity|]. split.
  - intros Hin. destruct l as [|[c|] rest].
    + apply elem_of_nil in Hin. destruct Hin.
    + unfold GetData. rewrite (appendAll_nil_chunk _ Hin). reflexivity.
    + reflexivity.
  - intros cl -> Hne. destruct cl as [|c cl]; [contradiction|].
    apply GetData_filled.
Qed.

Lemma GetData_spec_witness :
  GetData [Some (mkChunk 0 2 32 [x01]); None] = Panic NilDereference
  /\ GetData [Some (mkChunk 0 2 32 [x01]); Some (mkChunk 1 2 32 [x02])]
     = Ret (Some [x01; x02]).
Proof.
  split.
  - refine (proj1 (proj2 (GetData_spec _)) _).
    apply elem_of_cons. right. apply elem_of_cons. left. reflexivity.
  - refine (proj2 (proj2 (GetData_spec _))
              [mkChunk 0 2 32 [x01]; mkChunk 1 2 32 [x02]] _ _);
      [reflexivity | discriminate].
Defined.
